(** * lcapy schematic layout: a shallow embedding of [lcapy/schematic.py]

    The development follows the source file top to bottom: the
    component-name pattern, [longest_path], the classes [Node],
    [NetElement] and [Schematic].  Every Python function that can raise is
    a function into [Py.M], exceptions being values of [Py.exn]; methods
    that mutate [self] return the new object.

    Conventions of the embedding.
    - A Python [dict] is an association list in insertion order, updated
      in place when the key exists ([Py.dset]); [keys()] and [values()]
      enumerate it in that order.
    - A Python [float] is a rational number ([Q]) and float arithmetic is
      exact; statements about coordinates use [==] on [Q].
    - The interpreter's recursion limit is the parameter
      [recursion_limit] of the layout functions: the number of nested
      [get_longest] frames that are available. *)

From Stdlib Require Import List String Ascii Bool Arith ZArith QArith Qminmax Qabs.
From Stdlib Require Import Lia Lqa DecimalString DecimalNat Relations.
Import ListNotations.

Local Open Scope string_scope.
Local Open Scope list_scope.

(* ================================================================== *)
(** * Part I: the program                                              *)
(* ================================================================== *)

(** ** Python values the program relies on *)

Module Py.

(** The exceptions the code can raise, by Python class. *)
Inductive exn : Type :=
| ValueError (msg : string)
| TypeError (msg : string)
| KeyError
| IndexError
| RuntimeError (msg : string).

(** Computations that return or raise. *)
Definition M (A : Type) : Type := (exn + A)%type.

Definition ret {A} (a : A) : M A := inr a.
Definition raise {A} (e : exn) : M A := inl e.
Definition bind {A B} (c : M A) (k : A -> M B) : M B :=
  match c with
  | inl e => inl e
  | inr a => k a
  end.

(** [for x in l: st = body(st, x)], stopping at the first exception. *)
Fixpoint for_each {A S} (body : S -> A -> M S) (l : list A) (st : S) : M S :=
  match l with
  | [] => ret st
  | x :: l' => bind (body st x) (for_each body l')
  end.

(** Keys of dictionaries: strings and integers. *)
Class EqKey (K : Type) : Type :=
  { keqb : K -> K -> bool;
    keqb_eq : forall x y, keqb x y = true <-> x = y }.

#[global] Instance EqKey_string : EqKey string :=
  {| keqb := String.eqb; keqb_eq := String.eqb_eq |}.

#[global] Instance EqKey_nat : EqKey nat :=
  {| keqb := Nat.eqb; keqb_eq := Nat.eqb_eq |}.

Section Dict.
Context {K V : Type} `{EqKey K}.

Definition dict : Type := list (K * V).

(** [d.get(k)]: [None] stands for an absent key. *)
Fixpoint dget (d : dict) (k : K) : option V :=
  match d with
  | [] => None
  | (k', v) :: d' => if keqb k' k then Some v else dget d' k
  end.

(** [d[k]], raising [KeyError] on an absent key. *)
Definition dindex (d : dict) (k : K) : M V :=
  match dget d k with
  | Some v => ret v
  | None => raise KeyError
  end.

(** [d[k] = v]: overwrite in place, or append a new entry. *)
Fixpoint dset (d : dict) (k : K) (v : V) : dict :=
  match d with
  | [] => [(k, v)]
  | (k', v') :: d' =>
      if keqb k' k then (k', v) :: d' else (k', v') :: dset d' k v
  end.

Definition has_key (d : dict) (k : K) : bool :=
  match dget d k with
  | Some _ => true
  | None => false
  end.

Definition keys (d : dict) : list K := map fst d.
Definition values (d : dict) : list V := map snd d.
End Dict.

Arguments dict : clear implicits.

(** [max(a, b)] on numbers: the first of the largest arguments. *)
Definition max2 (a b : Q) : Q := if Qlt_le_dec a b then b else a.

(** *** Strings *)

(** [s.split(sep)] for a one-character separator. *)
Fixpoint split (sep : ascii) (s : string) : list string :=
  match s with
  | EmptyString => [EmptyString]
  | String c s' =>
      if Ascii.eqb c sep then EmptyString :: split sep s'
      else match split sep s' with
           | [] => [String c EmptyString]
           | w :: ws => String c w :: ws
           end
  end.

(** Characters [str.strip()] removes: space, tab, newline, vertical
    tab, form feed, carriage return. *)
Definition isspace (c : ascii) : bool :=
  let n := nat_of_ascii c in
  ((n =? 32) || ((9 <=? n) && (n <=? 13)))%nat.

Fixpoint lstrip (s : string) : string :=
  match s with
  | EmptyString => EmptyString
  | String c s' => if isspace c then lstrip s' else s
  end.

Fixpoint rstrip (s : string) : string :=
  match s with
  | EmptyString => EmptyString
  | String c s' =>
      match rstrip s' with
      | EmptyString => if isspace c then EmptyString else String c EmptyString
      | r => String c r
      end
  end.

Definition strip (s : string) : string := rstrip (lstrip s).

(** [s.replace(a, b)] for one-character [a] and [b]. *)
Fixpoint replace (a b : ascii) (s : string) : string :=
  match s with
  | EmptyString => EmptyString
  | String c s' => String (if Ascii.eqb c a then b else c) (replace a b s')
  end.

(** [s.find(c) != -1]. *)
Fixpoint contains (c : ascii) (s : string) : bool :=
  match s with
  | EmptyString => false
  | String c' s' => Ascii.eqb c' c || contains c s'
  end.

(** [sep.join(l)]. *)
Fixpoint join (sep : string) (l : list string) : string :=
  match l with
  | [] => EmptyString
  | [x] => x
  | x :: l' => x ++ sep ++ join sep l'
  end.

(** ['%d' % n] for a non-negative integer. *)
Definition str_of_nat (n : nat) : string :=
  NilZero.string_of_uint (Nat.to_uint n).

(** [x in (a, b, ...)] on strings. *)
Definition str_in (x : string) (l : list string) : bool :=
  existsb (String.eqb x) l.

(** The class [\w] of [re] on byte strings: letters, digits, underscore. *)
Definition is_word (c : ascii) : bool :=
  let n := nat_of_ascii c in
  (((48 <=? n) && (n <=? 57)) || ((65 <=? n) && (n <=? 90))
   || ((97 <=? n) && (n <=? 122)) || (n =? 95))%nat.

(** Values stored in an option dictionary: [None], an [int], a [str]. *)
Inductive value : Type :=
| VNone
| VInt (z : Z)
| VStr (s : string).

End Py.

Notation "x <- c ;; k" := (Py.bind c (fun x => k))
  (at level 61, c at next level, right associativity).
Notation "' p <- c ;; k" := (Py.bind c (fun x => let 'p := x in k))
  (at level 61, p pattern, c at next level, right associativity).

Import Py.

(** ** Component names *)

(** [cpt_type_map]: component names to circuitikz names.  The keys are
    the allowable component names. *)
Definition cpt_type_map : dict string string :=
  [("R", "R"); ("C", "C"); ("L", "L");
   ("Vac", "sV"); ("Vdc", "V"); ("Iac", "sI"); ("Idc", "I");
   ("V", "V"); ("I", "I"); ("v", "V"); ("i", "I");
   ("TF", "transformer"); ("P", "open"); ("port", "open");
   ("W", "short"); ("wire", "short")].

(** [l.sort(lambda x, y: cmp(len(y), len(x)))]: a stable sort, longer
    names first. *)
Fixpoint insert_longer_first (x : string) (l : list string) : list string :=
  match l with
  | [] => [x]
  | y :: l' =>
      if (String.length y <? String.length x)%nat then x :: l
      else y :: insert_longer_first x l'
  end.

Definition sort_longer_first (l : list string) : list string :=
  fold_left (fun acc x => insert_longer_first x acc) l [].

Definition cpt_types : list string :=
  Eval cbv in sort_longer_first (keys cpt_type_map).

(** [s[n:]]. *)
Fixpoint drop (n : nat) (s : string) : string :=
  match n, s with
  | O, _ => s
  | S n', String _ s' => drop n' s'
  | S _, EmptyString => EmptyString
  end.

(** [cpt_type_pattern.match(name)] for the pattern [(t1|t2|...)(\w)?]:
    the alternatives are tried in the order of [cpt_types] at the start
    of [name]; the optional group takes the next character when it is a
    word character.  The result is [match.groups()], [None] when nothing
    matches. *)
Definition cpt_type_pattern_match (name : string)
  : option (string * option string) :=
  match find (fun t => String.prefix t name) cpt_types with
  | None => None
  | Some t =>
      Some (t, match drop (String.length t) name with
               | String c _ =>
                   if is_word c then Some (String c EmptyString) else None
               | EmptyString => None
               end)
  end.

(** ** [longest_path] *)

Section LongestPath.

(** [from_nodes] is indexed by node and stores, for every node, the
    pairs of a parent node and the minimum size of the component that
    connects them. *)
Variable from_nodes : dict nat (list (nat * Q)).

(** The [for from_node, size in from_nodes[to_node]] loop, the recursive
    call being [rec]. *)
Fixpoint best_over (rec : dict nat Q -> nat -> M (Q * dict nat Q))
    (parents : list (nat * Q)) (best : Q) (memo : dict nat Q)
  : M (Q * dict nat Q) :=
  match parents with
  | [] => ret (best, memo)
  | (from_node, size) :: parents' =>
      '(v, memo1) <- rec memo from_node ;;
      best_over rec parents' (max2 best (v + size)%Q) memo1
  end.

(** [get_longest], the dictionary [memo] being threaded through the
    calls; [depth] frames are left before the interpreter gives up. *)
Fixpoint get_longest (depth : nat) (memo : dict nat Q) (to_node : nat)
  : M (Q * dict nat Q) :=
  match depth with
  | O => raise (RuntimeError "maximum recursion depth exceeded")
  | S depth' =>
      match dget memo to_node with
      | Some v => ret (v, memo)
      | None =>
          parents <- dindex from_nodes to_node ;;
          '(best, memo1) <-
            best_over (get_longest depth') parents 0%Q memo ;;
          ret (best, dset memo1 to_node best)
      end
  end.

(** [[(get_longest(to_node), to_node) for to_node in all_nodes]]. *)
Fixpoint longest_all (depth : nat) (all_nodes : list nat)
    (memo : dict nat Q) : M (list (Q * nat) * dict nat Q) :=
  match all_nodes with
  | [] => ret ([], memo)
  | to_node :: rest =>
      '(v, memo1) <- get_longest depth memo to_node ;;
      '(l, memo2) <- longest_all depth rest memo1 ;;
      ret ((v, to_node) :: l, memo2)
  end.

(** Tuple comparison [a > b] on (number, node) pairs. *)
Definition pair_gt (a b : Q * nat) : bool :=
  match Qcompare (fst a) (fst b) with
  | Gt => true
  | Lt => false
  | Eq => (snd b <? snd a)%nat
  end.

(** [max(l)]: the first of the largest items. *)
Definition max_pairs (l : list (Q * nat)) : M (Q * nat) :=
  match l with
  | [] => raise (ValueError "max() arg is an empty sequence")
  | x :: l' =>
      ret (fold_left (fun m y => if pair_gt y m then y else m) l' x)
  end.

Definition longest_path (depth : nat) (all_nodes : list nat)
  : M (Q * nat * dict nat Q) :=
  '(l, memo) <- longest_all depth all_nodes [] ;;
  '(length, node) <- max_pairs l ;;
  ret (length, node, memo).

End LongestPath.

(** ** [class NetElement] *)

Module NetElement.

Local Open Scope string_scope.

Record t : Type := mk
  { name : string;
    cpt_type : string;
    autolabel : string;
    symbol : option string;
    nodes : string * string;
    opts : dict string value;
(* set by [Schematic._positions_calculate] *)
pos1 : option (Q * Q);
pos2 : option (Q * Q) }.

(** [NetElement(name, node1, node2, *args, **opts)].  The class
    attribute [cpt_type_counter] is passed in and returned.  The only
    [raise] comes before the counter is touched.  The tuple [args] is
    read for the ac/dc marker and not stored, so the final [args[1:]]
    leaves no trace. *)
Definition __init__ (cpt_type_counter : nat) (name node1 node2 : string)
    (args : list string) (opts : dict string value) : M (nat * t) :=
  match cpt_type_pattern_match name with
  | None => raise (ValueError ("Unknown component " ++ name))
  | Some (cpt_type, id) =>
      let '(cpt_type_counter, id, name) :=
        match id with
        | None =>
            let c := S cpt_type_counter in
            let id := "#" ++ str_of_nat c in
            (c, id, cpt_type ++ id)
        | Some id => (cpt_type_counter, id, name)
        end in
      let node1 := replace "." "_" node1 in
      let node2 := replace "." "_" node2 in
      let cpt_type_orig := cpt_type in
      let cpt_type :=
        match args with
        | [] => cpt_type
        | a0 :: _ =>
            if (cpt_type =? "V") && (a0 =? "ac") then "Vac"
            else if (cpt_type =? "V") && (a0 =? "dc") then "Vdc"
            else if (cpt_type =? "I") && (a0 =? "ac") then "Iac"
            else if (cpt_type =? "I") && (a0 =? "dc") then "Idc"
            else cpt_type
        end in
      let symbol : option string := None in
      let autolabel :=
        match symbol with
        | Some s => s
        | None => cpt_type_orig ++ "_{" ++ id ++ "}"
        end in
      let autolabel :=
        if str_in cpt_type ["P"; "port"; "W"; "wire"]
           || contains "#" autolabel
        then "" else "$" ++ autolabel ++ "$" in
      let opts := if has_key opts "dir" then opts
                  else dset opts "dir" VNone in
      let opts := if has_key opts "size" then opts
                  else dset opts "size" (VInt 1) in
      let opts :=
        match dget opts "dir" with
        | Some VNone =>
            dset opts "dir"
              (VStr (if str_in cpt_type ["port"; "P"] then "down"
                     else "right"))
        | _ => opts
        end in
      ret (cpt_type_counter,
           mk name cpt_type autolabel symbol (node1, node2) opts None None)
  end.

(** [elt.__str__()]. *)
Definition __str__ (self : t) : string :=
  join " " [name self; fst (nodes self); snd (nodes self)].

End NetElement.

(** ** [class Node] *)

Module Node.

Record t : Type := mk
  { name : string;
    pos : option (Q * Q);
    port : bool;
    rootname : string;
    primary : bool;
    list : Datatypes.list NetElement.t }.

Definition __init__ (name : string) : t :=
  let parts := split "_" name in
  mk name None false (hd EmptyString parts)
     (Datatypes.length parts =? 1)%nat [].

Definition append (self : t) (elt : NetElement.t) : t :=
  let port :=
    if str_in (NetElement.cpt_type elt) ["P"; "port"; "open"] then true
    else port self in
  mk (name self) (pos self) port (rootname self) (primary self)
     (list self ++ [elt])%list.

End Node.

(** ** [class Schematic] *)

Module Schematic.

Local Open Scope string_scope.

Record t : Type := mk
  { elements : dict string NetElement.t;
    nodes : dict string Node.t;
    vnodes : dict string (dict string NetElement.t);
    scale : Q;
(* set by [_positions_calculate] *)
coords : option (dict string (Q * Q)) }.

(** [Schematic()], without a file to read. *)
Definition __init__ : t := mk [] [] [] 2 None.

Definition _node_add (self : t) (node : string) (elt : NetElement.t) : t :=
  let nodes1 :=
    if has_key (nodes self) node then nodes self
    else dset (nodes self) node (Node.__init__ node) in
  let nd :=
    match dget nodes1 node with
    | Some nd => Node.append nd elt
    | None => Node.append (Node.__init__ node) elt
    end in
  let nodes2 := dset nodes1 node nd in
  let vnode := Node.rootname nd in
  let vnodes1 :=
    if has_key (vnodes self) vnode then vnodes self
    else dset (vnodes self) vnode [] in
  let aliases :=
    match dget vnodes1 vnode with
    | Some d => d
    | None => []
    end in
  let vnodes2 :=
    if has_key aliases node then vnodes1
    else dset vnodes1 vnode (dset aliases node elt) in
  mk (elements self) nodes2 vnodes2 (scale self) (coords self).

(** The message printed when a name is overridden is not modelled. *)
Definition _elt_add (self : t) (elt : NetElement.t) : t :=
  let self1 :=
    mk (dset (elements self) (NetElement.name elt) elt)
       (nodes self) (vnodes self) (scale self) (coords self) in
  let '(n1, n2) := NetElement.nodes elt in
  _node_add (_node_add self1 n1 elt) n2 elt.

Definition _opts_parse (str : string) : dict string value :=
  fold_left
    (fun opts part =>
       let part := strip part in
       if str_in part ["up"; "down"; "left"; "right"]
       then dset opts "dir" (VStr part)
       else
         let fields := split "=" part in
         let key := strip (hd EmptyString fields) in
         let arg :=
           match fields with
           | _ :: f1 :: _ => strip f1
           | _ => EmptyString
           end in
         dset opts key (VStr arg))
    (split "," str)
    [("dir", VNone); ("size", VInt 1)].

(** One of the parameters [name], [node1], [node2] of
    [NetElement.__init__] in the call [NetElement( *parts, **opts)]:
    the positional argument, or the keyword of that name; both, or
    neither, is a [TypeError].  The keywords [_opts_parse] can produce
    under these names hold strings. *)
Definition bind_param (positional : option string)
    (keyword : option value) (param : string) : M string :=
  match positional, keyword with
  | Some s, None => ret s
  | None, Some (VStr s) => ret s
  | Some _, Some _ =>
      raise (TypeError
               ("__init__() got multiple values for keyword argument '"
                  ++ param ++ "'"))
  | None, _ =>
      raise (TypeError "__init__() takes at least 4 arguments")
  end.

(** [NetElement( *parts, **opts)]: the parameters are bound, the
    remaining positional arguments are [args] and the remaining keywords
    are [opts]. *)
Definition NetElement_call (cpt_type_counter : nat) (parts : list string)
    (kw : dict string value) : M (nat * NetElement.t) :=
  if has_key kw "self"
  then raise (TypeError
                "__init__() got multiple values for keyword argument 'self'")
  else
    name <- bind_param (nth_error parts 0) (dget kw "name") "name" ;;
    node1 <- bind_param (nth_error parts 1) (dget kw "node1") "node1" ;;
    node2 <- bind_param (nth_error parts 2) (dget kw "node2") "node2" ;;
    let args := skipn 3 parts in
    let opts :=
      filter (fun kv => negb (str_in (fst kv) ["name"; "node1"; "node2"]))
             kw in
    NetElement.__init__ cpt_type_counter name node1 node2 args opts.

(** [add]: the state is the class counter of [NetElement] and the
    schematic; the result is the state after the call and the exception
    it raised, if any. *)
Definition add (st : nat * t) (line : string) : (nat * t) * option exn :=
  let fields := split ";" line in
  let str :=
    match fields with
    | _ :: f1 :: _ => f1
    | _ => EmptyString
    end in
  let opts := _opts_parse str in
  let parts := split " " (hd EmptyString fields) in
  match NetElement_call (fst st) parts opts with
  | inl e => (st, Some e)
  | inr (counter, elt) => ((counter, _elt_add (snd st) elt), None)
  end.

Section Layout.

(** [float(s)] on a string: [None] when it raises [ValueError]. *)
Variable float_of_str : string -> option Q.

(** Frames available to [get_longest]. *)
Variable recursion_limit : nat.

Definition float (v : value) : M Q :=
  match v with
  | VInt z => ret (inject_Z z)
  | VStr s =>
      match float_of_str s with
      | Some q => ret q
      | None => raise (ValueError "could not convert string to float")
      end
  | VNone =>
      raise (TypeError "float() argument must be a string or a number")
  end.

(** [d in dirs] and [d == dirs[i]] for an option value [d]. *)
Definition dir_eq (d : value) (dir : string) : bool :=
  match d with
  | VStr s => s =? dir
  | _ => false
  end.

Definition dir_in (d : value) (dirs : string * string) : bool :=
  dir_eq d (fst dirs) || dir_eq d (snd dirs).

(** The collective nodes of one axis. *)
Record cstate : Type := mkc
  { cnodes : dict nat (Datatypes.list string);
    cnode_map : dict string nat;
    cnode : nat }.

(** [has_key(n1) and has_key(n2) and cnode_map[n1] != cnode_map[n2]]. *)
Definition conflict (cmap : dict string nat) (n1 n2 : string) : bool :=
  match dget cmap n1, dget cmap n2 with
  | Some a, Some b => negb (a =? b)%nat
  | _, _ => false
  end.

(** [cnodes[node].append(n)]. *)
Definition cnodes_append (cn : dict nat (Datatypes.list string))
    (node : nat) (n : string) : M (dict nat (Datatypes.list string)) :=
  l <- dindex cn node ;;
  ret (dset cn node (l ++ [n])%list).

(** Body of the first loop: components in orthogonal directions
    combine their nodes into a collective node. *)
Definition unify (dirs : string * string) (st : cstate)
    (elt : NetElement.t) : M cstate :=
  d <- dindex (NetElement.opts elt) "dir" ;;
  if dir_in d dirs then ret st
  else
    let '(n1, n2) := NetElement.nodes elt in
    let cmap := cnode_map st in
    if conflict cmap n1 n2
    then raise (ValueError
                  ("Conflict for elt " ++ NetElement.__str__ elt))
    else if negb (has_key cmap n1) && negb (has_key cmap n2)
    then
      let c := S (cnode st) in
      ret (mkc (dset (cnodes st) c [n1; n2])
               (dset (dset cmap n1 c) n2 c) c)
    else if negb (has_key cmap n1)
    then
      node <- dindex cmap n2 ;;
      cn <- cnodes_append (cnodes st) node n1 ;;
      ret (mkc cn (dset cmap n1 node) (cnode st))
    else
      node <- dindex cmap n1 ;;
      cn <- cnodes_append (cnodes st) node n2 ;;
      ret (mkc cn (dset cmap n2 node) (cnode st)).

(** [if not cnode_map.has_key(n): ...] of the second loop. *)
Definition fresh_cnode (st : cstate) (n : string) : cstate :=
  if has_key (cnode_map st) n then st
  else
    let c := S (cnode st) in
    mkc (dset (cnodes st) c [n]) (dset (cnode_map st) n c) c.

(** Body of the second loop: the other nodes used by components in
    the desired directions. *)
Definition augment (dirs : string * string) (st : cstate)
    (elt : NetElement.t) : M cstate :=
  d <- dindex (NetElement.opts elt) "dir" ;;
  if negb (dir_in d dirs) then ret st
  else
    let '(n1, n2) := NetElement.nodes elt in
    ret (fresh_cnode (fresh_cnode st n1) n2).

Definition graph : Type := dict nat (Datatypes.list (nat * Q)).

(** [for m in range(cnode + 1): graph[m] = []]. *)
Definition empty_graph (cnode : nat) : graph :=
  fold_left (fun g m => dset g m []) (seq 0 (S cnode)) [].

(** [g[m].append(x)]. *)
Definition graph_append (g : graph) (m : nat) (x : nat * Q) : M graph :=
  l <- dindex g m ;;
  ret (dset g m (l ++ [x])%list).

(** Body of the third loop: an edge of the forward graph and of the
    reverse graph for a component in a desired direction. *)
Definition connect (dirs : string * string) (cmap : dict string nat)
    (gs : graph * graph) (elt : NetElement.t) : M (graph * graph) :=
  d <- dindex (NetElement.opts elt) "dir" ;;
  if negb (dir_in d dirs) then ret gs
  else
    m1 <- dindex cmap (fst (NetElement.nodes elt)) ;;
    m2 <- dindex cmap (snd (NetElement.nodes elt)) ;;
    sz <- dindex (NetElement.opts elt) "size" ;;
    size <- float sz ;;
    if dir_eq d (fst dirs)
    then
      g <- graph_append (fst gs) m1 (m2, size) ;;
      r <- graph_append (snd gs) m2 (m1, size) ;;
      ret (g, r)
    else if dir_eq d (snd dirs)
    then
      g <- graph_append (fst gs) m2 (m1, size) ;;
      r <- graph_append (snd gs) m1 (m2, size) ;;
      ret (g, r)
    else ret gs.

(** Body of the loop that collects the start nodes of both graphs. *)
Definition orphan (gs : graph * graph)
    (os : Datatypes.list (nat * Q) * Datatypes.list (nat * Q)) (m : nat)
  : M (Datatypes.list (nat * Q) * Datatypes.list (nat * Q)) :=
  gm <- dindex (fst gs) m ;;
  let orphans :=
    match gm with
    | [] => (fst os ++ [(m, 0%Q)])%list
    | _ => fst os
    end in
  rm <- dindex (snd gs) m ;;
  let rorphans :=
    match rm with
    | [] => (snd os ++ [(m, 0%Q)])%list
    | _ => snd os
    end in
  ret (orphans, rorphans).

(** The three position dictionaries [pos], [posr], [posa]. *)
Definition positions : Type :=
  (dict string Q * dict string Q * dict string Q)%type.

(** Body of [for node in cnodes[cnode]]. *)
Definition place (length : Q) (memo memor : dict nat Q) (c : nat)
    (ps : positions) (node : string) : M positions :=
  let '(pos, posr, posa) := ps in
  f <- dindex memo c ;;
  let p := (length - f)%Q in
  r <- dindex memor c ;;
  ret (dset pos node p, dset posr node r,
       dset posa node ((1 # 2) * (p + r))%Q).

(** Body of [for cnode in graph.keys()]. *)
Definition place_cnode (length : Q) (memo memor : dict nat Q)
    (cn : dict nat (Datatypes.list string)) (ps : positions) (c : nat)
  : M positions :=
  if (c =? 0)%nat then ret ps
  else
    members <- dindex cn c ;;
    for_each (place length memo memor c) members ps.

(** The first half of [_make_graphs]: the collective nodes of the
    axis [dirs], the forward graph and the reverse graph. *)
Definition axis_graphs (self : t) (dirs : string * string)
  : M (cstate * graph * graph) :=
  let elts := values (elements self) in
  st <- for_each (unify dirs) elts (mkc [] [] 0%nat) ;;
  st <- for_each (augment dirs) elts st ;;
  let g0 := empty_graph (cnode st) in
  gs <- for_each (connect dirs (cnode_map st)) elts (g0, g0) ;;
  '(orphans, rorphans) <-
    for_each (orphan gs) (seq 1 (cnode st)) ([], []) ;;
  ret (st, dset (fst gs) 0%nat rorphans, dset (snd gs) 0%nat orphans).

Definition _make_graphs (self : t) (dirs : string * string)
  : M (dict string Q) :=
  '(st, g, r) <- axis_graphs self dirs ;;
  '(length, node, memo) <- longest_path g recursion_limit (keys g) ;;
  '(length, node, memor) <- longest_path r recursion_limit (keys g) ;;
  '(pos, posr, posa) <-
    for_each (place_cnode length memo memor (cnodes st)) (keys g)
             ([], [], []) ;;
  ret posa.

(** [for node in xpos.keys(): coords[node] = ...]. *)
Definition scale_coords (scale : Q) (xpos ypos : dict string Q)
    (coords : dict string (Q * Q)) (node : string)
  : M (dict string (Q * Q)) :=
  x <- dindex xpos node ;;
  y <- dindex ypos node ;;
  ret (dset coords node (x * scale, y * scale)%Q).

Definition set_pos1 (elt : NetElement.t) (p : Q * Q) : NetElement.t :=
  NetElement.mk (NetElement.name elt) (NetElement.cpt_type elt)
    (NetElement.autolabel elt) (NetElement.symbol elt)
    (NetElement.nodes elt) (NetElement.opts elt)
    (Some p) (NetElement.pos2 elt).

Definition set_pos2 (elt : NetElement.t) (p : Q * Q) : NetElement.t :=
  NetElement.mk (NetElement.name elt) (NetElement.cpt_type elt)
    (NetElement.autolabel elt) (NetElement.symbol elt)
    (NetElement.nodes elt) (NetElement.opts elt)
    (NetElement.pos1 elt) (Some p).

(** The loop that stores [elt.pos1] and [elt.pos2]: the elements
    after the loop, and the exception that stopped it, if any. *)
Fixpoint attach (coords : dict string (Q * Q))
    (elts : dict string NetElement.t)
  : dict string NetElement.t * option exn :=
  match elts with
  | [] => ([], None)
  | (k, elt) :: rest =>
      let '(n1, n2) := NetElement.nodes elt in
      match dget coords n1 with
      | None => ((k, elt) :: rest, Some KeyError)
      | Some p1 =>
          let elt1 := set_pos1 elt p1 in
          match dget coords n2 with
          | None => ((k, elt1) :: rest, Some KeyError)
          | Some p2 =>
              let '(rest', e) := attach coords rest in
              ((k, set_pos2 elt1 p2) :: rest', e)
          end
      end
  end.

(** [_positions_calculate]: the schematic after the call and the
    exception it raised, if any. *)
Definition _positions_calculate (self : t) : t * option exn :=
  match
    (xpos <- _make_graphs self ("right", "left") ;;
     ypos <- _make_graphs self ("up", "down") ;;
     for_each (scale_coords (scale self) xpos ypos) (keys xpos) [])
  with
  | inl e => (self, Some e)
  | inr coords' =>
      match attach coords' (elements self) with
      | (elts, Some e) =>
          (mk elts (nodes self) (vnodes self) (scale self) (coords self),
           Some e)
      | (elts, None) =>
          (mk elts (nodes self) (vnodes self) (scale self) (Some coords'),
           None)
      end
  end.

(** [draw]: the scale is stored and the positions are computed; the
    drawing itself is left to the rendering back ends. *)
Definition draw (self : t) (scale : Q) : t * option exn :=
  _positions_calculate
    (mk (elements self) (nodes self) (vnodes self) scale (coords self)).

End Layout.

(** [_make_wires1]; the class counter of [NetElement] is threaded
    through the constructor calls. *)
Definition _make_wires1 (cpt_type_counter : nat)
    (vnode : dict string NetElement.t)
  : M (nat * Datatypes.list NetElement.t) :=
  let num_wires := (Datatypes.length vnode - 1)%nat in
  if (num_wires =? 0)%nat then ret (cpt_type_counter, [])
  else
    for_each
      (fun (st : nat * Datatypes.list NetElement.t) n =>
         n1 <- match nth_error (keys vnode) n with
               | Some k => ret k
               | None => raise IndexError
               end ;;
         n2 <- match nth_error (keys vnode) (n + 1) with
               | Some k => ret k
               | None => raise IndexError
               end ;;
         '(counter, wire) <- NetElement.__init__ (fst st) "W_" n1 n2 [] [] ;;
         ret (counter, (snd st ++ [wire])%list))
      (seq 0 num_wires) (cpt_type_counter, []).

(** Create implicit wires between common nodes. *)
Definition _make_wires (cpt_type_counter : nat) (self : t)
  : M (nat * Datatypes.list NetElement.t) :=
  for_each
    (fun (st : nat * Datatypes.list NetElement.t) vnode =>
       '(counter, ws) <- _make_wires1 (fst st) vnode ;;
       ret (counter, (snd st ++ ws)%list))
    (values (vnodes self)) (cpt_type_counter, []).

(** [sch[name]]: the component of that name. *)
Definition __getitem__ (self : t) (name : string) : M NetElement.t :=
  dindex (elements self) name.

(** [netlist()]: the current netlist, one line for each element. *)
Definition netlist (self : t) : string :=
  join (String (ascii_of_nat 10) EmptyString)
       (map NetElement.__str__ (values (elements self))).

(** The loop of [netfile_add] over [lines], the list [file.readlines()]
    returned: a line that starts with ['#'] or ['%'] is skipped, the
    others are stripped and added; [line[0]] raises on an empty line.
    The state is the class counter and the schematic, as for [add]. *)
Fixpoint netfile_add (st : nat * t) (lines : Datatypes.list string)
  : (nat * t) * option exn :=
  match lines with
  | [] => (st, None)
  | line :: rest =>
      match line with
      | EmptyString => (st, Some IndexError)
      | String c _ =>
          if str_in (String c EmptyString) ["#"; "%"]
          then netfile_add st rest
          else
            match add st (strip line) with
            | (st', Some e) => (st', Some e)
            | (st', None) => netfile_add st' rest
            end
      end
  end.

(** One end of the string [_node_str] builds for the node [n]. *)
Definition node_mark (self : t) (n : string) (draw_nodes : bool) : M string :=
  nd <- dindex (nodes self) n ;;
  if Node.port nd then ret "o"
  else ret (if draw_nodes && negb (contains "_" n) then "*" else "").

Definition _node_str (self : t) (n1 n2 : string) (draw_nodes : bool)
  : M string :=
  m1 <- node_mark self n1 draw_nodes ;;
  m2 <- node_mark self n2 draw_nodes ;;
  let node_str := m1 ++ "-" ++ m2 in
  ret (if node_str =? "-" then "" else node_str).

End Schematic.

(* ================================================================== *)
(** * Part II: vocabulary of the statements                            *)
(* ================================================================== *)

(** ** Parsing of one netlist line *)

(** The positional fields of a line, as [Schematic.add] splits it. *)
Definition line_parts (line : string) : list string :=
  split " " (hd EmptyString (split ";" line)).

(** The keywords of a line, as [Schematic.add] parses them. *)
Definition line_opts (line : string) : dict string value :=
  Schematic._opts_parse
    match split ";" line with
    | _ :: f1 :: _ => f1
    | _ => EmptyString
    end.

(** A line that cannot be parsed into the required fields: its name
    starts with no known component type, or one of the two terminals is
    given neither by position nor by keyword. *)
Definition malformed (line : string) : Prop :=
  cpt_type_pattern_match (hd EmptyString (line_parts line)) = None
  \/ (nth_error (line_parts line) 1 = None
      /\ has_key (line_opts line) "node1" = false)
  \/ (nth_error (line_parts line) 2 = None
      /\ has_key (line_opts line) "node2" = false).

(** The errors of a malformed element. *)
Definition malformed_error (e : exn) : Prop :=
  match e with
  | ValueError _ | TypeError _ => True
  | _ => False
  end.

(** The size option a constructor call asks for: the keyword [size], or
    the default 1. *)
Definition size_option (opts : dict string value) : value :=
  match dget opts "size" with
  | Some v => v
  | None => VInt 1
  end.

(** ** Terminal identifiers *)

(** [s.replace('.', '_')]. *)
Definition undot (s : string) : string := replace "." "_" s.

(** Two identifiers that differ only by ['.'] versus ['_']. *)
Definition dot_or_underscore (c : ascii) : bool :=
  Ascii.eqb c "." || Ascii.eqb c "_".

Fixpoint dot_equiv (s1 s2 : string) : bool :=
  match s1, s2 with
  | EmptyString, EmptyString => true
  | String a r1, String b r2 =>
      (Ascii.eqb a b || (dot_or_underscore a && dot_or_underscore b))
      && dot_equiv r1 r2
  | _, _ => false
  end.

(** The part of [s] before the first occurrence of [c]. *)
Fixpoint prefix_before (c : ascii) (s : string) : string :=
  match s with
  | EmptyString => EmptyString
  | String a r => if Ascii.eqb a c then EmptyString
                  else String a (prefix_before c r)
  end.

(** Every node of the schematic carries the flags [Node.__init__] derives
    from its key. *)
Definition nodes_from_keys (s : Schematic.t) : Prop :=
  forall k nd, dget (Schematic.nodes s) k = Some nd ->
    Node.rootname nd = Node.rootname (Node.__init__ k)
    /\ Node.primary nd = Node.primary (Node.__init__ k).

(** ** Support of the examples *)

(** A fragment of [float()] on strings: unsigned decimal integers. *)
Definition float_of_decimal (s : string) : option Q :=
  match s with
  | EmptyString => None
  | _ => option_map (fun u => inject_Z (Z.of_uint u))
                    (NilEmpty.uint_of_string s)
  end.

(** [sch = Schematic()] followed by [sch.add(line)] for every line, in a
    process whose class counter is 0; a failing [add] leaves the state
    as it is. *)
Definition build (lines : list string) : nat * Schematic.t :=
  fold_left (fun st line => fst (Schematic.add st line)) lines
            (0%nat, Schematic.__init__).

(** The coordinates stored for a terminal are [(x, y)]. *)
Definition coord_at (s : Schematic.t) (node : string) (x y : Q) : Prop :=
  match Schematic.coords s with
  | Some coords =>
      match dget coords node with
      | Some (a, b) => a == x /\ b == y
      | None => False
      end
  | None => False
  end.

(** Three series elements, each to the right, chained t0, t1, t2, t3. *)
Definition series_lines : list string :=
  ["R1 t0 t1; right"; "R2 t1 t2; right"; "R3 t2 t3; right"].

(** ** Graphs of the scheduler *)

(** [u] is a parent of [v]: [from_nodes[v]] holds a pair [(u, size)]. *)
Definition parent_of (g : dict nat (list (nat * Q))) (v u : nat) : Prop :=
  exists ps s, dget g v = Some ps /\ In (u, s) ps.

(** [v] lies on a cycle of the constraints. *)
Definition on_cycle (g : dict nat (list (nat * Q))) (v : nat) : Prop :=
  clos_trans nat (parent_of g) v v.

(** Every node the scheduler is asked for, and every parent, has an
    entry in [from_nodes]. *)
Definition closed_graph (g : dict nat (list (nat * Q)))
    (all_nodes : list nat) : Prop :=
  (forall v, In v all_nodes -> has_key g v = true)
  /\ (forall v u, parent_of g v u -> has_key g u = true).

(** What the interpreter raises when the frames are used up. *)
Definition recursion_error : exn :=
  RuntimeError "maximum recursion depth exceeded".

(** Three elements, each to the right, chaining A to B to C and back. *)
Definition cycle_lines : list string :=
  ["R1 A B; right"; "R2 B C; right"; "R3 C A; right"].

(** ** Nets and wires *)

(** The terminal identifiers [_node_add] is called with, in call order,
    when the elements [elts] are added one after the other. *)
Definition node_refs (elts : list NetElement.t) : list string :=
  flat_map (fun e => [fst (NetElement.nodes e); snd (NetElement.nodes e)])
           elts.

(** The distinct items of [l], in the order they are first encountered. *)
Definition encounter (seen : list string) (x : string) : list string :=
  if str_in x seen then seen else seen ++ [x].

Definition encounter_order (l : list string) : list string :=
  fold_left encounter l [].

(** [n] is a terminal of the net [root]: its root name is [root]. *)
Definition in_net (root : string) (n : string) : bool :=
  String.eqb (Node.rootname (Node.__init__ n)) root.

(** The aliases of the net [root]: the terminals with that root name. *)
Definition net_aliases (root : string) (elts : list NetElement.t)
  : list string :=
  encounter_order (filter (in_net root) (node_refs elts)).

(** The pairs of neighbours of a list. *)
Definition consecutive {A} (l : list A) : list (A * A) := combine l (tl l).

(** No ['.'] is left in the terminals of an element, as is the case
    after [NetElement.__init__]. *)
Definition undotted (e : NetElement.t) : bool :=
  negb (contains "." (fst (NetElement.nodes e)))
  && negb (contains "." (snd (NetElement.nodes e))).

(** The schematic after [_elt_add] of every element of [elts]. *)
Definition add_all (elts : list NetElement.t) : Schematic.t :=
  fold_left Schematic._elt_add elts Schematic.__init__.

(** The element [NetElement('W_', n1, n2)]. *)
Definition wire (n1 n2 : string) : NetElement.t :=
  NetElement.mk "W_" "W" "" None (undot n1, undot n2)
                [("dir", VStr "right"); ("size", VInt 1)] None None.

(** The aliases recorded for the net [root], in dictionary order. *)
Definition aliases_of (s : Schematic.t) (root : string) : list string :=
  match dget (Schematic.vnodes s) root with
  | Some d => keys d
  | None => []
  end.

(** The encounter order continued from the terminals already seen. *)
Definition encounter_order_from (seen l : list string) : list string :=
  fold_left encounter l seen.

(** ** Layout passes *)

(** The collective nodes before the first loop of [_make_graphs]. *)
Definition no_cnodes : Schematic.cstate := Schematic.mkc [] [] 0.

(** The error of a conflict at [elt]. *)
Definition conflict_error (elt : NetElement.t) : exn :=
  ValueError ("Conflict for elt " ++ NetElement.__str__ elt).

(** The axes of the two passes. *)
Definition x_axis : string * string := ("right", "left").
Definition y_axis : string * string := ("up", "down").

(** A consistent chain whose middle element is added last. *)
Definition split_chain_lines : list string :=
  ["R1 a b; right"; "R3 c d; right"; "R2 b c; right"].

(** What a layout pass reads of an element. *)
Definition elt_view (e : NetElement.t)
  : string * (string * string) * dict string value :=
  (NetElement.name e, NetElement.nodes e, NetElement.opts e).

(** What a layout pass reads of a schematic: the scale and the ordered
    element list. *)
Definition layout_input (s : Schematic.t)
  : Q * list (string * (string * string) * dict string value) :=
  (Schematic.scale s, map elt_view (values (Schematic.elements s))).

(** What a layout pass gives: the exception, or the coordinate map. *)
Definition layout_result (r : Schematic.t * option exn)
  : exn + option (dict string (Q * Q)) :=
  match snd r with
  | Some e => inl e
  | None => inr (Schematic.coords (fst r))
  end.

(** The element [add] makes of the line [R<id> n1 n2; right]. *)
Definition resistor (id n1 n2 : string) : NetElement.t :=
  NetElement.mk ("R" ++ id) "R" ("$R_{" ++ id ++ "}$") None (n1, n2)
                [("dir", VStr "right"); ("size", VInt 1)] None None.

(** ** Longest paths without the memo *)

(** The loop of [get_longest] over the parents, the value of a parent
    being [rec]. *)
Fixpoint lp_over (rec : nat -> option Q) (parents : list (nat * Q))
    (best : Q) : option Q :=
  match parents with
  | [] => Some best
  | (u, s) :: parents' =>
      match rec u with
      | Some w => lp_over rec parents' (max2 best (w + s)%Q)
      | None => None
      end
  end.

(** [get_longest] without its dictionary, to the depth [h]. *)
Fixpoint lp (g : dict nat (list (nat * Q))) (h : nat) (v : nat) : option Q :=
  match h with
  | O => None
  | S h' =>
      match dget g v with
      | Some ps => lp_over (lp g h') ps 0%Q
      | None => None
      end
  end.

(** [val] is the longest-path value of [v]. *)
Definition has_longest (g : dict nat (list (nat * Q))) (v : nat) (val : Q)
  : Prop :=
  exists h, lp g h v = Some val.

(** Every entry of the dictionary is a longest-path value. *)
Definition memo_sound (g : dict nat (list (nat * Q))) (memo : dict nat Q)
  : Prop :=
  forall k w, dget memo k = Some w -> has_longest g k w.

(** An edge of the scheduler's input, with its weight. *)
Definition edge (g : dict nat (list (nat * Q))) (v u : nat) (s : Q) : Prop :=
  exists ps, dget g v = Some ps /\ In (u, s) ps.


(** ** Invariants of the graph construction *)

(** The collective nodes are numbered 1 to [cnode], and the map of the
    terminals agrees with the member lists. *)
Definition cnodes_wf (st : Schematic.cstate) : Prop :=
  (forall n c, dget (Schematic.cnode_map st) n = Some c ->
     (1 <= c <= Schematic.cnode st)%nat
     /\ exists l, dget (Schematic.cnodes st) c = Some l /\ In n l)
  /\ (forall c l, dget (Schematic.cnodes st) c = Some l ->
        (1 <= c <= Schematic.cnode st)%nat
        /\ forall n, In n l -> dget (Schematic.cnode_map st) n = Some c).

(** [g'] is [g] with one more edge, from [v] to [u] with weight [s]. *)
Definition adds_edge (g g' : Schematic.graph) (v u : nat) (s : Q) : Prop :=
  keys g' = keys g
  /\ forall v' u' s', edge g' v' u' s'
                      <-> edge g v' u' s' \/ (v' = v /\ u' = u /\ s' = s).

(** What one pass of the third loop may do to the two graphs: nothing,
    or one edge between two collective nodes in the forward graph and
    the opposite edge in the reverse graph. *)
Definition connects (cmap : dict string nat)
    (gs gs' : Schematic.graph * Schematic.graph) : Prop :=
  gs' = gs
  \/ exists a b size,
      (exists n, dget cmap n = Some a) /\ (exists n, dget cmap n = Some b)
      /\ adds_edge (fst gs) (fst gs') a b size
      /\ adds_edge (snd gs) (snd gs') b a size.

(** The reverse graph is the transpose of the forward graph. *)
Definition transposed (g r : Schematic.graph) : Prop :=
  forall v u s, edge g v u s <-> edge r u v s.

(** The graphs [gs] grown from [gs0] by the third loop. *)
Definition grown (cmap : dict string nat)
    (gs0 gs : Schematic.graph * Schematic.graph) : Prop :=
  keys (fst gs) = keys (fst gs0) /\ keys (snd gs) = keys (snd gs0)
  /\ (forall v u s, edge (fst gs0) v u s -> edge (fst gs) v u s)
  /\ (forall v u s, edge (snd gs0) v u s -> edge (snd gs) v u s)
  /\ (forall v u s, edge (fst gs) v u s ->
        edge (fst gs0) v u s
        \/ ((exists n, dget cmap n = Some v) /\ exists n, dget cmap n = Some u))
  /\ (transposed (fst gs0) (snd gs0) -> transposed (fst gs) (snd gs)).

(** The constraint an element in a direction of the axis [dirs] puts on
    the two graphs [g] and [r]: an edge of its size between the
    collective nodes of its terminals, oriented by its direction. *)
Definition constrained (float_of_str : string -> option Q)
    (dirs : string * string) (cmap : dict string nat)
    (g r : Schematic.graph) (elt : NetElement.t) : Prop :=
  forall d, dget (NetElement.opts elt) "dir" = Some d ->
    Schematic.dir_in d dirs = true ->
    exists m1 m2 szv size,
      dget cmap (fst (NetElement.nodes elt)) = Some m1
      /\ dget cmap (snd (NetElement.nodes elt)) = Some m2
      /\ dget (NetElement.opts elt) "size" = Some szv
      /\ Schematic.float float_of_str szv = inr size
      /\ (Schematic.dir_eq d (fst dirs) = true ->
          edge g m1 m2 size /\ edge r m2 m1 size)
      /\ (Schematic.dir_eq d (fst dirs) = false ->
          edge g m2 m1 size /\ edge r m1 m2 size).

(** The shape of a graph of [_make_graphs]: nodes 0 to [n]; no edge
    enters the root 0, and the edges that leave it weigh 0. *)
Definition rooted (g : Schematic.graph) (n : nat) : Prop :=
  keys g = seq 0 (S n)
  /\ forall v u s, edge g v u s ->
       u <> 0%nat /\ (u <= n)%nat /\ (v = 0%nat -> s = 0%Q).

(** The coordinate [_make_graphs] computes for the collective node [c]
    from [length] and the two dictionaries of longest paths. *)
Definition centre (length : Q) (memo memor : dict nat Q) (c : nat)
  : option Q :=
  match dget memo c, dget memor c with
  | Some f, Some r => Some ((1 # 2) * ((length - f) + r))%Q
  | _, _ => None
  end.

(** ** The span of an element along its axis *)





(** ** Centred coordinates *)



(** ** More invariants of the layout *)

(** The map of the terminals only grows. *)
Definition cmap_extends (st st' : Schematic.cstate) : Prop :=
  forall n c, dget (Schematic.cnode_map st) n = Some c ->
              dget (Schematic.cnode_map st') n = Some c.

(** The terminals [st'] maps are those of [st] and those of [elts]. *)
Definition cmap_within (elts : list NetElement.t)
    (st st' : Schematic.cstate) : Prop :=
  forall n, has_key (Schematic.cnode_map st') n = true ->
            has_key (Schematic.cnode_map st) n = true
            \/ In n (node_refs elts).

(** The two terminals of [elt] are in one collective node. *)
Definition joined (st : Schematic.cstate) (elt : NetElement.t) : Prop :=
  exists c, dget (Schematic.cnode_map st) (fst (NetElement.nodes elt)) = Some c
            /\ dget (Schematic.cnode_map st) (snd (NetElement.nodes elt))
               = Some c.

(** The two terminals of [elt] have collective nodes. *)
Definition mapped (st : Schematic.cstate) (elt : NetElement.t) : Prop :=
  (exists c, dget (Schematic.cnode_map st) (fst (NetElement.nodes elt))
             = Some c)
  /\ exists c, dget (Schematic.cnode_map st) (snd (NetElement.nodes elt))
               = Some c.

(** The terminal [n] joins the collective node [c], whose members are
    [l]. *)
Definition join_cnode (st : Schematic.cstate) (n : string) (c : nat)
    (l : list string) : Schematic.cstate :=
  Schematic.mkc (dset (Schematic.cnodes st) c (l ++ [n]))
                (dset (Schematic.cnode_map st) n c) (Schematic.cnode st).

(** The terminal [n] opens the next collective node. *)
Definition open_cnode (st : Schematic.cstate) (n : string)
  : Schematic.cstate :=
  Schematic.mkc (dset (Schematic.cnodes st) (S (Schematic.cnode st)) [n])
                (dset (Schematic.cnode_map st) n (S (Schematic.cnode st)))
                (S (Schematic.cnode st)).

(** Every collective node from 1 to [cnode] has a list of members, which
    is not empty. *)
Definition cnodes_full (st : Schematic.cstate) : Prop :=
  forall c, (1 <= c <= Schematic.cnode st)%nat ->
    exists l n, dget (Schematic.cnodes st) c = Some l /\ In n l.

(** ** Component names *)

(** The names of [l] are in order of decreasing length. *)
Fixpoint longer_first (l : list string) : bool :=
  match l with
  | [] => true
  | x :: l' =>
      forallb (fun y => (String.length y <=? String.length x)%nat) l'
      && longer_first l'
  end.

(** What the optional group of the pattern matches after the type [t]. *)
Definition id_after (t name : string) : option string :=
  match drop (String.length t) name with
  | String c _ => if is_word c then Some (String c EmptyString) else None
  | EmptyString => None
  end.

(** ** Bookkeeping of the nodes *)

(** The component types that make a node a port. *)
Definition port_type (e : NetElement.t) : bool :=
  str_in (NetElement.cpt_type e) ["P"; "port"; "open"].

(** The calls of [_node_add] when the elements [elts] are added: the
    terminal and the element, in call order. *)
Definition node_calls (elts : list NetElement.t)
  : list (string * NetElement.t) :=
  flat_map (fun e => [(fst (NetElement.nodes e), e);
                      (snd (NetElement.nodes e), e)]) elts.

(** The elements attached to the terminal [k], once for each of their
    terminals that is [k], in the order they were added. *)
Definition attached (k : string) (calls : list (string * NetElement.t))
  : list NetElement.t :=
  map snd (filter (fun p => String.eqb (fst p) k) calls).

(** The node stored under [k] records exactly the calls [calls]. *)
Definition node_records (s : Schematic.t)
    (calls : list (string * NetElement.t)) : Prop :=
  forall k,
    match dget (Schematic.nodes s) k with
    | Some nd =>
        Node.name nd = k
        /\ Node.list nd = attached k calls
        /\ Node.port nd = existsb port_type (attached k calls)
        /\ attached k calls <> []
    | None => attached k calls = []
    end.

(** ** Nets of a schematic *)

(** The root name of a terminal: the part before the first ['_']. *)
Definition rootname_of (n : string) : string :=
  Node.rootname (Node.__init__ n).


(** The nets of the elements: the distinct root names of their
    terminals, as first encountered. *)
Definition nets (elts : list NetElement.t) : list string :=
  encounter_order (map rootname_of (node_refs elts)).

(** The element [w] joins two distinct terminals of one net of [elts]. *)
Definition joins_net (elts : list NetElement.t) (w : NetElement.t) : Prop :=
  let '(a, b) := NetElement.nodes w in
  a <> b
  /\ In a (node_refs elts) /\ In b (node_refs elts)
  /\ rootname_of a = rootname_of b.

(** ** Errors of the layout *)

(** What [float] raises on a string that is no number. *)
Definition float_error : exn :=
  ValueError "could not convert string to float".

(** The element carries a direction and a size that is a number or a
    string, as is the case after [NetElement.__init__] on the options
    [_opts_parse] returns. *)
Definition has_options (elt : NetElement.t) : Prop :=
  (exists d, dget (NetElement.opts elt) "dir" = Some d)
  /\ exists sz, dget (NetElement.opts elt) "size" = Some sz /\ sz <> VNone.

(** The exceptions of a layout pass: the conflict of an element of the
    schematic, a size that is no number, and the recursion limit. *)
Definition layout_error (self : Schematic.t) (e : exn) : Prop :=
  (exists elt, In elt (values (Schematic.elements self))
               /\ e = conflict_error elt)
  \/ e = float_error
  \/ e = recursion_error.

(** ** Elements stored by [add] *)

(** The options of an element [add] stores: a direction that is a
    string, and a size that is the default 1 or a string. *)
Definition parsed_options (opts : dict string value) : Prop :=
  (exists d, dget opts "dir" = Some (VStr d))
  /\ (dget opts "size" = Some (VInt 1)
      \/ exists s, dget opts "size" = Some (VStr s)).

(** The options [_opts_parse] returns: as above, the direction may
    still be [None]. *)
Definition raw_options (opts : dict string value) : Prop :=
  (dget opts "dir" = Some VNone \/ exists d, dget opts "dir" = Some (VStr d))
  /\ (dget opts "size" = Some (VInt 1)
      \/ exists s, dget opts "size" = Some (VStr s)).

(** What holds of every element [add] stores. *)
Definition stored_by_add (elt : NetElement.t) : Prop :=
  undotted elt = true /\ parsed_options (NetElement.opts elt).

(** ** Lines of the netlist *)

(** None of the three words of the netlist line of [elt] holds the
    separator [c]. *)
Definition words_without (c : ascii) (elt : NetElement.t) : bool :=
  negb (contains c (NetElement.name elt))
  && negb (contains c (fst (NetElement.nodes elt)))
  && negb (contains c (snd (NetElement.nodes elt))).

(** The element [add] stores for the line [name n1 n2] without options,
    of component type [t]: the options are the defaults and the empty
    keyword [_opts_parse] makes of the empty option string. *)
Definition plain_element (name t id n1 n2 : string) : NetElement.t :=
  NetElement.mk name t
    (if str_in t ["P"; "port"; "W"; "wire"]
        || contains "#" (t ++ "_{" ++ id ++ "}")
     then "" else "$" ++ (t ++ "_{" ++ id ++ "}") ++ "$")
    None (undot n1, undot n2)
    [("dir", VStr (if str_in t ["port"; "P"] then "down" else "right"));
     ("size", VInt 1); ("", VStr "")]
    None None.

(** ** Lines of a netlist file *)

(** The line is skipped by [netfile_add]: it starts with ['#'] or
    ['%']. *)
Definition is_comment (line : string) : bool :=
  match line with
  | EmptyString => false
  | String c _ => str_in (String c EmptyString) ["#"; "%"]
  end.

(** The line holds white space only, and at least its end of line. *)
Definition is_blank (line : string) : bool :=
  negb (String.eqb line "") && String.eqb (strip line) "".

(** The last element of [elts] with the name [name]. *)
Definition last_named (name : string) (elts : list NetElement.t)
  : option NetElement.t :=
  find (fun e => String.eqb (NetElement.name e) name) (rev elts).

(** The wires [_make_wires] returns for the schematic [s]. *)
Definition net_wires (s : Schematic.t) : list NetElement.t :=
  flat_map (fun d : dict string NetElement.t =>
              map (fun p => wire (fst p) (snd p)) (consecutive (keys d)))
           (values (Schematic.vnodes s)).

(** The mark [_node_str] draws at the terminal [n] of a schematic built
    from [elts]. *)
Definition mark_of (elts : list NetElement.t) (draw_nodes : bool)
    (n : string) : string :=
  if existsb port_type (attached n (node_calls elts)) then "o"
  else if draw_nodes && negb (contains "_" n) then "*" else "".

(** ** The scale of a drawing *)

(** The coordinates stored in [s] are the positions [xpos] and [ypos] of
    the two axes, multiplied by [k]. *)
Definition scaled_layout (xpos ypos : dict string Q) (k : Q)
    (s : Schematic.t) : Prop :=
  exists coords,
    Schematic.coords s = Some coords
    /\ forall n,
         dget coords n
         = match dget xpos n, dget ypos n with
           | Some x, Some y => Some (x * k, y * k)%Q
           | _, _ => None
           end.

(** ** Anonymous names *)

(** The name [NetElement.__init__] makes up for an element of type [t]
    when the counter reaches [n]. *)
Definition anonymous_name (t : string) (n : nat) : string :=
  t ++ "#" ++ str_of_nat n.

(** No element is stored under a made-up name whose number is above the
    counter. *)
Definition counter_bounds (st : nat * Schematic.t) : Prop :=
  forall t n,
    has_key cpt_type_map t = true -> (fst st < n)%nat ->
    has_key (Schematic.elements (snd st)) (anonymous_name t n) = false.

(* ================================================================== *)
(** * Part III: properties                                             *)
(* ================================================================== *)

(** ** Dictionaries *)

Section DictFacts.
Context {K V : Type} `{EqKey K}.

Lemma keqb_refl (k : K) : keqb k k = true.
Proof. now apply keqb_eq. Qed.

Lemma keqb_neq (k k' : K) : k <> k' -> keqb k k' = false.
Proof.
  intros Hn. destruct (keqb k k') eqn:E; [|reflexivity].
  apply keqb_eq in E. contradiction.
Qed.

Lemma keqb_spec (k k' : K) : reflect (k = k') (keqb k k').
Proof.
  destruct (keqb k k') eqn:E; constructor.
  - now apply keqb_eq.
  - intros ->. rewrite keqb_refl in E. discriminate.
Qed.

Lemma key_eq_dec (k k' : K) : {k = k'} + {k <> k'}.
Proof. destruct (keqb_spec k k'); [left|right]; assumption. Qed.

Lemma dget_dset_same (d : dict K V) k v : dget (dset d k v) k = Some v.
Proof.
  induction d as [|[k' v'] d IH]; simpl.
  - now rewrite keqb_refl.
  - destruct (keqb k' k) eqn:E; simpl; rewrite E; auto.
Qed.

Lemma dget_dset_other (d : dict K V) k k' v :
  k <> k' -> dget (dset d k v) k' = dget d k'.
Proof.
  intros Hn. induction d as [|[k0 v0] d IH]; simpl.
  - now rewrite keqb_neq.
  - destruct (keqb_spec k0 k) as [->|Hk]; simpl.
    + now rewrite (keqb_neq k k').
    + now rewrite IH.
Qed.

Lemma dget_dset (d : dict K V) k k' v :
  dget (dset d k v) k' = if keqb k k' then Some v else dget d k'.
Proof.
  destruct (keqb_spec k k') as [->|Hn].
  - apply dget_dset_same.
  - now apply dget_dset_other.
Qed.

Lemma has_key_dset (d : dict K V) k k' v :
  has_key (dset d k v) k' = keqb k k' || has_key d k'.
Proof.
  unfold has_key. rewrite dget_dset. now destruct (keqb k k').
Qed.

Lemma dget_In (d : dict K V) k v : dget d k = Some v -> In (k, v) d.
Proof.
  induction d as [|[k' v'] d IH]; simpl; [discriminate|].
  destruct (keqb_spec k' k) as [->|Hn].
  - intros [= ->]. now left.
  - intros Hd. right. now apply IH.
Qed.

Lemma dget_None_keys (d : dict K V) k : dget d k = None <-> ~ In k (keys d).
Proof.
  induction d as [|[k' v'] d IH]; simpl.
  - tauto.
  - destruct (keqb_spec k' k) as [->|Hn].
    + split; [discriminate|]. intros Hc. exfalso. apply Hc. now left.
    + rewrite IH. split.
      * intros Hc [He|Hi]; auto.
      * intros Hc Hi. apply Hc. now right.
Qed.

Lemma has_key_keys (d : dict K V) k : has_key d k = true <-> In k (keys d).
Proof.
  unfold has_key. destruct (dget d k) eqn:E.
  - split; [intros _|reflexivity].
    destruct (in_dec key_eq_dec k (keys d)) as [Hi|Hi]; [assumption|].
    apply dget_None_keys in Hi. congruence.
  - split; [discriminate|]. intros Hi. now apply dget_None_keys in E.
Qed.

Lemma dset_new (d : dict K V) k v :
  dget d k = None -> dset d k v = d ++ [(k, v)].
Proof.
  induction d as [|[k' v'] d IH]; simpl; [reflexivity|].
  destruct (keqb k' k); [discriminate|].
  intros Hd. now rewrite IH.
Qed.

Lemma keys_dset_old (d : dict K V) k v :
  has_key d k = true -> keys (dset d k v) = keys d.
Proof.
  unfold has_key.
  induction d as [|[k' v'] d IH]; simpl; [discriminate|].
  destruct (keqb k' k) eqn:E; simpl; [reflexivity|].
  intros Hd. f_equal. now apply IH.
Qed.

Lemma keys_dset_new (d : dict K V) k v :
  has_key d k = false -> keys (dset d k v) = keys d ++ [k].
Proof.
  unfold has_key. intros Hd. rewrite dset_new.
  - unfold keys. now rewrite map_app.
  - now destruct (dget d k).
Qed.

End DictFacts.

(** Inversion of the monadic bind. *)
Lemma bind_inr {A B} (c : M A) (k : A -> M B) (b : B) :
  bind c k = inr b -> exists a, c = inr a /\ k a = inr b.
Proof. destruct c as [e|a]; simpl; [discriminate|]. intros Hk. now exists a. Qed.

Lemma bind_inl {A B} (c : M A) (k : A -> M B) (e : exn) :
  bind c k = inl e -> c = inl e \/ exists a, c = inr a /\ k a = inl e.
Proof.
  destruct c as [e'|a]; simpl.
  - intros [= ->]. now left.
  - intros Hk. right. now exists a.
Qed.

Ltac inv_bind H :=
  let a := fresh "a" in
  let Ha := fresh "Ha" in
  apply bind_inr in H; destruct H as [a [Ha H]].

(** ** Strings *)

Lemma split_nonempty sep s : split sep s <> [].
Proof.
  destruct s as [|c s]; simpl; [discriminate|].
  destruct (Ascii.eqb c sep); [discriminate|].
  destruct (split sep s); discriminate.
Qed.

Lemma hd_split sep s : hd EmptyString (split sep s) = prefix_before sep s.
Proof.
  induction s as [|c s IH]; simpl; [reflexivity|].
  destruct (Ascii.eqb c sep); simpl; [reflexivity|].
  destruct (split sep s) as [|w ws] eqn:E; simpl in *.
  - now destruct (split_nonempty sep s).
  - now rewrite IH.
Qed.

Lemma length_split sep s :
  (Datatypes.length (split sep s) =? 1)%nat = negb (contains sep s).
Proof.
  induction s as [|c s IH]; simpl; [reflexivity|].
  destruct (Ascii.eqb c sep) eqn:E; simpl.
  - destruct (split sep s) eqn:E2; [now destruct (split_nonempty sep s)|reflexivity].
  - destruct (split sep s) as [|w ws] eqn:E2; simpl in *.
    + now destruct (split_nonempty sep s).
    + exact IH.
Qed.

Lemma contains_undot s : contains "." s = true -> contains "_" (undot s) = true.
Proof.
  unfold undot. induction s as [|c s IH]; simpl; [discriminate|].
  destruct (Ascii.eqb c ".") eqn:E; simpl; [reflexivity|].
  intros Hc. rewrite IH by assumption. apply orb_true_r.
Qed.

Lemma undot_clean s : contains "." (undot s) = false.
Proof.
  unfold undot. induction s as [|c s IH]; simpl; [reflexivity|].
  rewrite IH. destruct (Ascii.eqb c ".") eqn:E; simpl.
  - reflexivity.
  - now rewrite E.
Qed.

Lemma undot_id s : contains "." s = false -> undot s = s.
Proof.
  unfold undot. induction s as [|c s IH]; simpl; [reflexivity|].
  destruct (Ascii.eqb c ".") eqn:E; simpl; [discriminate|].
  intros Hc. now rewrite IH.
Qed.

Lemma dot_equiv_undot s1 s2 : dot_equiv s1 s2 = true -> undot s1 = undot s2.
Proof.
  unfold undot. revert s2.
  induction s1 as [|a r1 IH]; intros [|b r2]; simpl; try discriminate; auto.
  intros Hd. apply andb_true_iff in Hd. destruct Hd as [Hc Hr].
  rewrite (IH _ Hr). f_equal.
  apply orb_true_iff in Hc. destruct Hc as [Hc|Hc].
  - apply Ascii.eqb_eq in Hc. now subst.
  - apply andb_true_iff in Hc. destruct Hc as [Ha Hb].
    unfold dot_or_underscore in *.
    apply orb_true_iff in Ha. apply orb_true_iff in Hb.
    destruct Ha as [Ha|Ha], Hb as [Hb|Hb];
      apply Ascii.eqb_eq in Ha; apply Ascii.eqb_eq in Hb; subst; reflexivity.
Qed.
(** ** The constructor of [NetElement] *)

Lemma init_inv c name n1 n2 args opts c' elt :
  NetElement.__init__ c name n1 n2 args opts = inr (c', elt) ->
  cpt_type_pattern_match name <> None
  /\ NetElement.nodes elt = (undot n1, undot n2)
  /\ dget (NetElement.opts elt) "size" = Some (size_option opts).
Proof.
  unfold NetElement.__init__, size_option.
  destruct (cpt_type_pattern_match name) as [[ct id]|]; [|discriminate].
  intros Hr. split; [discriminate|].
  destruct id as [id|]; simpl in Hr; injection Hr as _ <-; simpl;
    (split; [reflexivity|]).
  all: repeat match goal with
       | |- context [if has_key ?o ?k then _ else _] =>
           let E := fresh "E" in destruct (has_key o k) eqn:E
       | |- context [match dget ?o "dir" with _ => _ end] =>
           let E := fresh "E" in destruct (dget o "dir") as [[]|] eqn:E
       end;
    repeat (rewrite dget_dset; simpl);
    try reflexivity.
  all: unfold has_key in *;
    repeat match goal with
    | H : context [dget (dset _ _ _) _] |- _ => rewrite dget_dset in H; simpl in H
    end;
    destruct (dget opts "size"); try discriminate; reflexivity.
Qed.

Lemma init_unknown c name n1 n2 args opts :
  cpt_type_pattern_match name = None ->
  NetElement.__init__ c name n1 n2 args opts
  = inl (ValueError ("Unknown component " ++ name)).
Proof. unfold NetElement.__init__. now intros ->. Qed.

Lemma init_known c name n1 n2 args opts :
  cpt_type_pattern_match name <> None ->
  exists c' elt, NetElement.__init__ c name n1 n2 args opts = inr (c', elt).
Proof.
  unfold NetElement.__init__.
  destruct (cpt_type_pattern_match name) as [[ct id]|]; [|congruence].
  intros _. destruct id; simpl; eauto.
Qed.
(** ** Adding elements *)

Lemma init_undotted c name n1 n2 args opts c' elt :
  NetElement.__init__ c name n1 n2 args opts = inr (c', elt) ->
  undotted elt = true.
Proof.
  intros Hi. destruct (init_inv _ _ _ _ _ _ _ _ Hi) as [_ [Hn _]].
  unfold undotted. rewrite Hn. cbn [fst snd].
  now rewrite !undot_clean.
Qed.

Lemma append_flags nd elt :
  Node.rootname (Node.append nd elt) = Node.rootname nd
  /\ Node.primary (Node.append nd elt) = Node.primary nd.
Proof. split; reflexivity. Qed.

Lemma node_add_nodes s k elt k' :
  dget (Schematic.nodes (Schematic._node_add s k elt)) k'
  = if String.eqb k k'
    then Some (Node.append
                 match dget (Schematic.nodes s) k with
                 | Some nd => nd
                 | None => Node.__init__ k
                 end elt)
    else dget (Schematic.nodes s) k'.
Proof.
  unfold Schematic._node_add; simpl.
  rewrite dget_dset. change (keqb k k') with (String.eqb k k').
  unfold has_key.
  destruct (dget (Schematic.nodes s) k) eqn:E2.
  - rewrite E2. reflexivity.
  - rewrite dget_dset_same, dget_dset.
    change (keqb k k') with (String.eqb k k').
    now destruct (String.eqb k k').
Qed.

Lemma node_add_from_keys s k elt :
  nodes_from_keys s -> nodes_from_keys (Schematic._node_add s k elt).
Proof.
  intros Hs k' nd. rewrite node_add_nodes.
  destruct (String.eqb_spec k k') as [<-|Hn]; [|apply Hs].
  intros [= <-]. rewrite !(proj1 (append_flags _ _)), !(proj2 (append_flags _ _)).
  destruct (dget (Schematic.nodes s) k) eqn:E; [now apply Hs|now split].
Qed.

Lemma elt_add_nodes s elt :
  Schematic.nodes (Schematic._elt_add s elt)
  = Schematic.nodes
      (Schematic._node_add
         (Schematic._node_add s (fst (NetElement.nodes elt)) elt)
         (snd (NetElement.nodes elt)) elt).
Proof.
  unfold Schematic._elt_add. destruct (NetElement.nodes elt) as [n1 n2].
  reflexivity.
Qed.

Lemma elt_add_from_keys s elt :
  nodes_from_keys s -> nodes_from_keys (Schematic._elt_add s elt).
Proof.
  intros Hs. unfold Schematic._elt_add.
  destruct (NetElement.nodes elt) as [n1 n2].
  apply node_add_from_keys, node_add_from_keys.
  exact Hs.
Qed.

Lemma elt_add_has_node s elt n :
  n = fst (NetElement.nodes elt) \/ n = snd (NetElement.nodes elt) ->
  exists nd, dget (Schematic.nodes (Schematic._elt_add s elt)) n = Some nd.
Proof.
  intros Hn. rewrite elt_add_nodes, node_add_nodes.
  destruct (String.eqb_spec (snd (NetElement.nodes elt)) n) as [E|E]; [eauto|].
  rewrite node_add_nodes.
  destruct (String.eqb_spec (fst (NetElement.nodes elt)) n) as [E1|E1]; [eauto|].
  destruct Hn; congruence.
Qed.

Lemma init_flags_dotted n :
  contains "." n = true ->
  Node.primary (Node.__init__ (undot n)) = false
  /\ Node.rootname (Node.__init__ (undot n)) = prefix_before "_" (undot n).
Proof.
  intros Hc. unfold Node.__init__; simpl. split.
  - rewrite length_split, contains_undot by assumption. reflexivity.
  - apply hd_split.
Qed.

Lemma init_dot_equiv c name n1 n2 m1 m2 args opts :
  undot n1 = undot m1 -> undot n2 = undot m2 ->
  NetElement.__init__ c name n1 n2 args opts
  = NetElement.__init__ c name m1 m2 args opts.
Proof.
  unfold undot, NetElement.__init__. intros -> ->. reflexivity.
Qed.

Lemma add_unfold st line :
  Schematic.add st line
  = match Schematic.NetElement_call (fst st) (line_parts line) (line_opts line) with
    | inl e => (st, Some e)
    | inr (counter, elt) => ((counter, Schematic._elt_add (snd st) elt), None)
    end.
Proof. reflexivity. Qed.

Lemma bind_param_missing kw k :
  has_key kw k = false -> exists m, Schematic.bind_param None (dget kw k) k = inl (TypeError m).
Proof.
  unfold has_key, Schematic.bind_param. destruct (dget kw k); [discriminate|].
  eauto.
Qed.

Lemma bind_param_error p kw k e :
  Schematic.bind_param p kw k = inl e -> malformed_error e.
Proof.
  unfold Schematic.bind_param.
  destruct p, kw as [[]|]; intros [= <-]; exact I.
Qed.

Lemma call_error c parts kw e :
  Schematic.NetElement_call c parts kw = inl e -> malformed_error e.
Proof.
  unfold Schematic.NetElement_call.
  destruct (has_key kw "self"); [intros [= <-]; exact I|].
  intros Hc.
  apply bind_inl in Hc.
  destruct Hc as [Hc|[nm [_ Hc]]]; [now apply bind_param_error in Hc|].
  apply bind_inl in Hc.
  destruct Hc as [Hc|[a1 [_ Hc]]]; [now apply bind_param_error in Hc|].
  apply bind_inl in Hc.
  destruct Hc as [Hc|[a2 [_ Hc]]]; [now apply bind_param_error in Hc|].
  unfold NetElement.__init__ in Hc.
  destruct (cpt_type_pattern_match nm) as [[ct [id|]]|]; simpl in Hc;
    try discriminate.
  now injection Hc as <-.
Qed.

Lemma call_malformed c line :
  malformed line ->
  exists e, Schematic.NetElement_call c (line_parts line) (line_opts line) = inl e.
Proof.
  intros Hm.
  destruct (Schematic.NetElement_call c (line_parts line) (line_opts line))
    as [e|[c' elt]] eqn:Hc; [eauto|exfalso].
  unfold Schematic.NetElement_call in Hc.
  destruct (has_key (line_opts line) "self"); [discriminate|].
  apply bind_inr in Hc. destruct Hc as [nm [Hnm Hc]].
  apply bind_inr in Hc. destruct Hc as [a1 [H1 Hc]].
  apply bind_inr in Hc. destruct Hc as [a2 [H2 Hc]].
  destruct Hm as [Hm|[[Hm Hk]|[Hm Hk]]].
  - assert (Hp : nth_error (line_parts line) 0 = Some (hd EmptyString (line_parts line))).
    { unfold line_parts. destruct (split " " _) eqn:E; [|reflexivity].
      now destruct (split_nonempty _ _ E). }
    rewrite Hp in Hnm. unfold Schematic.bind_param in Hnm.
    destruct (dget (line_opts line) "name"); [discriminate|].
    injection Hnm as <-.
    now rewrite init_unknown in Hc.
  - rewrite Hm in H1. destruct (bind_param_missing _ _ Hk) as [m Hb]. congruence.
  - rewrite Hm in H2. destruct (bind_param_missing _ _ Hk) as [m Hb]. congruence.
Qed.

(** C9. Adding a line that cannot be parsed into a known component name
    and two terminals fails with a [ValueError] or a [TypeError]; the
    class counter and the schematic (elements, nodes, nets, coordinates)
    are what they were before the call. *)
Theorem add_malformed_fails (st : nat * Schematic.t) (line : string) :
  malformed line ->
  exists e, Schematic.add st line = (st, Some e) /\ malformed_error e.
Proof.
  intros Hm. rewrite add_unfold.
  destruct (call_malformed (fst st) line Hm) as [e He].
  rewrite He. exists e. split; [reflexivity|].
  now apply call_error in He.
Qed.

Lemma add_malformed_fails_witness :
  malformed "X1 1 2"
  /\ exists e, Schematic.add (0%nat, Schematic.__init__) "X1 1 2"
               = ((0%nat, Schematic.__init__), Some e) /\ malformed_error e.
Proof.
  assert (Hm : malformed "X1 1 2") by (left; reflexivity).
  split; [exact Hm|].
  exact (add_malformed_fails (0%nat, Schematic.__init__) "X1 1 2" Hm).
Defined.

(** C8 (amended). The constructor checks the component name and nothing
    else: it fails exactly when the name starts with no known component
    type; otherwise it succeeds for any two terminals, equal or not, and
    any size option, storing the terminals with ['.'] replaced by ['_']
    and the size option as given (1 when absent). *)
Theorem NetElement_init_checks_name_only (c : nat) (name n1 n2 : string)
    (args : list string) (opts : dict string value) :
  match NetElement.__init__ c name n1 n2 args opts with
  | inl e =>
      cpt_type_pattern_match name = None
      /\ e = ValueError ("Unknown component " ++ name)
  | inr (_, elt) =>
      cpt_type_pattern_match name <> None
      /\ NetElement.nodes elt = (undot n1, undot n2)
      /\ dget (NetElement.opts elt) "size" = Some (size_option opts)
  end.
Proof.
  destruct (NetElement.__init__ c name n1 n2 args opts) as [e|[c' elt]] eqn:E.
  - destruct (cpt_type_pattern_match name) eqn:Em.
    + destruct (init_known c name n1 n2 args opts) as [c' [elt E']]; congruence.
    + rewrite init_unknown in E by assumption. split; congruence.
  - now apply init_inv in E.
Qed.
Lemma NetElement_invariant_counterexample :
  (exists elt,
      snd (Schematic.add (0%nat, Schematic.__init__) "W 0.2 0.2; right") = None
      /\ dget (Schematic.elements (snd (build ["W 0.2 0.2; right"]))) "W#1"
         = Some elt
      /\ fst (NetElement.nodes elt) = snd (NetElement.nodes elt))
  /\ (exists elt sz,
         snd (Schematic.add (0%nat, Schematic.__init__) "R1 1 2; size=0") = None
         /\ dget (Schematic.elements (snd (build ["R1 1 2; size=0"]))) "R1"
            = Some elt
         /\ dget (NetElement.opts elt) "size" = Some sz
         /\ Schematic.float float_of_decimal sz = inr 0%Q).
Proof.
  split.
  - eexists. split; [reflexivity|]. split; [reflexivity|]. reflexivity.
  - eexists. eexists. split; [reflexivity|]. split; [reflexivity|].
    split; reflexivity.
Qed.

(** C10. The constructor replaces every ['.'] of the two terminal
    identifiers by ['_'], so identifiers that differ only by ['.'] versus
    ['_'] give the same element and the same nodes; the nodes of the
    schematic are looked up and created under the replaced identifier,
    and a node whose identifier contained a ['.'] is not primary and has
    the part before the first ['_'] as root name. *)
Theorem terminals_undotted (c : nat) (name n1 n2 : string)
    (args : list string) (opts : dict string value) (c' : nat)
    (elt : NetElement.t) (self : Schematic.t) :
  NetElement.__init__ c name n1 n2 args opts = inr (c', elt) ->
  nodes_from_keys self ->
  NetElement.nodes elt = (undot n1, undot n2)
  /\ (forall m1 m2, dot_equiv n1 m1 = true -> dot_equiv n2 m2 = true ->
        NetElement.__init__ c name m1 m2 args opts = inr (c', elt))
  /\ (forall n, n = n1 \/ n = n2 ->
        exists nd,
          dget (Schematic.nodes (Schematic._elt_add self elt)) (undot n)
          = Some nd
          /\ (contains "." n = true ->
              Node.primary nd = false
              /\ Node.rootname nd = prefix_before "_" (undot n))).
Proof.
  intros Hi Hs.
  destruct (init_inv _ _ _ _ _ _ _ _ Hi) as [_ [Hn _]].
  split; [exact Hn|]. split.
  - intros m1 m2 H1 H2. rewrite <- Hi. symmetry.
    apply init_dot_equiv; now apply dot_equiv_undot.
  - intros n Hc.
    destruct (elt_add_has_node self elt (undot n)) as [nd Hnd].
    { rewrite Hn; simpl. destruct Hc; subst; auto. }
    exists nd. split; [exact Hnd|].
    intros Hdot.
    destruct (elt_add_from_keys self elt Hs _ _ Hnd) as [Hr Hp].
    rewrite Hr, Hp. destruct (init_flags_dotted n Hdot). now split.
Qed.

Lemma terminals_undotted_witness :
  exists elt,
    NetElement.__init__ 0 "P1" "1" "0.1" [] [] = inr (0%nat, elt)
    /\ nodes_from_keys Schematic.__init__
    /\ NetElement.nodes elt = ("1", "0_1")
    /\ exists nd,
        dget (Schematic.nodes (Schematic._elt_add Schematic.__init__ elt)) "0_1"
        = Some nd
        /\ Node.primary nd = false /\ Node.rootname nd = "0".
Proof.
  eexists.
  assert (Hi : NetElement.__init__ 0 "P1" "1" "0.1" [] [] = inr (0%nat, _))
    by reflexivity.
  assert (Hs : nodes_from_keys Schematic.__init__) by (intros k nd; discriminate).
  split; [exact Hi|]. split; [exact Hs|].
  destruct (terminals_undotted _ _ _ _ _ _ _ _ _ Hi Hs) as [Hn [_ Hk]].
  split; [exact Hn|].
  destruct (Hk "0.1" (or_intror eq_refl)) as [nd [Hnd Hf]].
  exists nd. split; [exact Hnd|]. exact (Hf eq_refl).
Defined.
(** ** The worked example *)

(** C5. Three series elements of size 1, each to the right, chained
    t0, t1, t2, t3, drawn with scale 2: the x-coordinates are 0, 2, 4, 6
    and every y-coordinate is 0, the four terminals being one collective
    node of the vertical pass.  Five frames of recursion are enough. *)
Theorem series_example (float_of_str : string -> option Q) (spare : nat) :
  let s := snd (build series_lines) in
  (exists s',
      Schematic.draw float_of_str (5 + spare) s 2 = (s', None)
      /\ coord_at s' "t0" 0 0 /\ coord_at s' "t1" 2 0
      /\ coord_at s' "t2" 4 0 /\ coord_at s' "t3" 6 0)
  /\ (exists st g r,
         Schematic.axis_graphs float_of_str s ("up", "down") = inr (st, g, r)
         /\ Schematic.cnode st = 1%nat
         /\ forall t, In t ["t0"; "t1"; "t2"; "t3"] ->
                      dget (Schematic.cnode_map st) t = Some 1%nat).
Proof.
  split.
  - eexists. split; [vm_compute; reflexivity|].
    repeat split; reflexivity.
  - do 3 eexists. split; [vm_compute; reflexivity|].
    split; [reflexivity|].
    intros t [<-|[<-|[<-|[<-|[]]]]]; reflexivity.
Qed.
(** ** The scheduler on a cycle *)

Section CycleFacts.
Variable g : dict nat (list (nat * Q)).

Lemma cycle_parent v :
  on_cycle g v -> exists u, parent_of g v u /\ on_cycle g u.
Proof.
  unfold on_cycle. intros Hc. apply clos_trans_t1n in Hc.
  inversion Hc as [y Hs|y z Hs Hr]; subst.
  - exists v. split; [assumption|]. now apply t_step.
  - exists y. split; [assumption|].
    apply clos_t1n_trans in Hr.
    eapply t_trans; [exact Hr|]. now apply t_step.
Qed.

(** A dictionary of results none of whose keys lies on a cycle. *)
Let clean (memo : dict nat Q) : Prop :=
  forall k, has_key memo k = true -> ~ on_cycle g k.

Lemma best_over_clean rec ps :
  (forall memo u val memo',
      clean memo -> rec memo u = inr (val, memo') ->
      ~ on_cycle g u /\ clean memo') ->
  forall best memo val memo',
    clean memo -> best_over rec ps best memo = inr (val, memo') ->
    clean memo' /\ forall u s, In (u, s) ps -> ~ on_cycle g u.
Proof.
  intros Hrec. induction ps as [|[u s] ps IH]; simpl; intros best memo val memo' Hm Hb.
  - injection Hb as _ <-. split; [assumption|]. intros ? ? [].
  - apply bind_inr in Hb. destruct Hb as [[w memo1] [Hr Hb]].
    destruct (Hrec _ _ _ _ Hm Hr) as [Hu Hm1].
    destruct (IH _ _ _ _ Hm1 Hb) as [Hm' Hps].
    split; [assumption|].
    intros u' s' [[= <- <-]|Hi]; [assumption|eauto].
Qed.

Lemma get_longest_clean depth :
  forall memo v val memo',
    clean memo -> get_longest g depth memo v = inr (val, memo') ->
    ~ on_cycle g v /\ clean memo'.
Proof.
  induction depth as [|d IH]; simpl; intros memo v val memo' Hm Hg;
    [discriminate|].
  destruct (dget memo v) as [w|] eqn:Ev.
  - injection Hg as _ <-. split; [|assumption].
    apply Hm. unfold has_key. now rewrite Ev.
  - apply bind_inr in Hg. destruct Hg as [ps [Hps Hg]].
    apply bind_inr in Hg. destruct Hg as [[best memo1] [Hb Hg]].
    injection Hg as _ <-.
    unfold dindex in Hps. destruct (dget g v) as [ps'|] eqn:Eg; [|discriminate].
    injection Hps as ->.
    destruct (best_over_clean _ ps IH _ _ _ _ Hm Hb) as [Hm1 Hps].
    assert (Hv : ~ on_cycle g v).
    { intros Hc. destruct (cycle_parent v Hc) as [u [[ps' [s [Hd Hi]]] Hu]].
      rewrite Eg in Hd. injection Hd as <-. now apply (Hps u s). }
    split; [assumption|].
    intros k Hk. rewrite has_key_dset in Hk.
    destruct (keqb_spec v k) as [E|Hn]; [now rewrite <- E|].
    now apply Hm1.
Qed.

Hypothesis parents_closed : forall v u, parent_of g v u -> has_key g u = true.

Lemma best_over_error rec ps :
  (forall memo u e, has_key g u = true -> rec memo u = inl e ->
                    e = recursion_error) ->
  (forall u s, In (u, s) ps -> has_key g u = true) ->
  forall best memo e,
    best_over rec ps best memo = inl e -> e = recursion_error.
Proof.
  intros Hrec. induction ps as [|[u s] ps IH]; simpl; intros Hps best memo e Hb;
    [discriminate|].
  apply bind_inl in Hb. destruct Hb as [Hb|[[w memo1] [_ Hb]]].
  - eapply Hrec; [|exact Hb]. apply (Hps u s). now left.
  - eapply IH; [|exact Hb]. intros u' s' Hi. apply (Hps u' s'). now right.
Qed.

Lemma get_longest_error depth :
  forall memo v e,
    has_key g v = true -> get_longest g depth memo v = inl e ->
    e = recursion_error.
Proof.
  induction depth as [|d IH]; simpl; intros memo v e Hv Hg.
  - now injection Hg as <-.
  - destruct (dget memo v); [discriminate|].
    unfold has_key in Hv. unfold dindex in Hg.
    destruct (dget g v) as [ps|] eqn:Eg; [|discriminate]. simpl in Hg.
    apply bind_inl in Hg. destruct Hg as [Hg|[[b m] [_ Hg]]]; [|discriminate].
    eapply best_over_error; [exact IH| |exact Hg].
    intros u s Hi. apply (parents_closed v). now exists ps, s.
Qed.

Lemma longest_all_cycle depth all_nodes :
  (forall v, In v all_nodes -> has_key g v = true) ->
  forall memo v,
    clean memo -> In v all_nodes -> on_cycle g v ->
    longest_all g depth all_nodes memo = inl recursion_error.
Proof.
  induction all_nodes as [|u rest IH]; simpl; intros Hall memo v Hm Hi Hc;
    [contradiction|].
  destruct (get_longest g depth memo u) as [e|[w memo1]] eqn:Hg; simpl.
  - f_equal. eapply get_longest_error; [|exact Hg]. apply Hall. now left.
  - destruct (get_longest_clean _ _ _ _ _ Hm Hg) as [Hu Hm1].
    destruct Hi as [->|Hi]; [contradiction|].
    rewrite (IH (fun x Hx => Hall x (or_intror Hx)) memo1 v Hm1 Hi Hc).
    reflexivity.
Qed.

End CycleFacts.

(** C2 (amended). The scheduler has no cycle detection.  When a node it
    is asked for lies on a cycle of the constraints, [get_longest]
    re-enters it until the frames are used up: whatever the recursion
    limit, [longest_path] raises the interpreter's [RuntimeError]; it
    returns no length and no coordinate, and raises no error of its
    own. *)
Theorem longest_path_cycle (g : dict nat (list (nat * Q)))
    (all_nodes : list nat) (v : nat) (depth : nat) :
  closed_graph g all_nodes -> In v all_nodes -> on_cycle g v ->
  longest_path g depth all_nodes = inl recursion_error.
Proof.
  intros [Hall Hpar] Hi Hc. unfold longest_path.
  rewrite (longest_all_cycle g Hpar depth all_nodes Hall [] v); auto.
  intros k Hk. discriminate.
Qed.
Lemma longest_path_cycle_witness :
  let g := [(0, []); (1, [(2, 1%Q)]); (2, [(3, 1%Q)]); (3, [(1, 1%Q)])]%nat in
  Schematic.axis_graphs float_of_decimal (snd (build cycle_lines))
                        ("right", "left")
  = inr (Schematic.mkc [(1, ["A"]); (2, ["B"]); (3, ["C"])]%nat
                       [("A", 1); ("B", 2); ("C", 3)]%nat 3,
         g,
         [(0, []); (1, [(3, 1%Q)]); (2, [(1, 1%Q)]); (3, [(2, 1%Q)])]%nat)
  /\ closed_graph g (keys g) /\ In 1%nat (keys g) /\ on_cycle g 1
  /\ longest_path g 1000 (keys g) = inl recursion_error.
Proof.
  intros g.
  assert (Hclosed : closed_graph g (keys g)).
  { split.
    - intros v Hv. simpl in Hv.
      destruct Hv as [<-|[<-|[<-|[<-|[]]]]]; reflexivity.
    - intros v u [ps [s [Hd Hi]]].
      destruct v as [|[|[|[|v]]]]; simpl in Hd; try discriminate;
        injection Hd as <-; simpl in Hi;
        try contradiction; destruct Hi as [[= <- <-]|[]]; reflexivity. }
  assert (Hin : In 1%nat (keys g)) by (simpl; auto).
  assert (Hcyc : on_cycle g 1).
  { apply t_trans with 2%nat; [|apply t_trans with 3%nat]; apply t_step.
    - exists [(2%nat, 1%Q)], 1%Q. split; [reflexivity|now left].
    - exists [(3%nat, 1%Q)], 1%Q. split; [reflexivity|now left].
    - exists [(1%nat, 1%Q)], 1%Q. split; [reflexivity|now left]. }
  split; [reflexivity|]. split; [exact Hclosed|]. split; [exact Hin|].
  split; [exact Hcyc|].
  exact (longest_path_cycle g (keys g) 1 1000 Hclosed Hin Hcyc).
Defined.

Lemma cycle_counterexample :
  Schematic._make_graphs float_of_decimal 1000 (snd (build cycle_lines))
                         ("right", "left")
  = inl (RuntimeError "maximum recursion depth exceeded")
  /\ Schematic.draw float_of_decimal 1000 (snd (build cycle_lines)) 2
     = (snd (build cycle_lines),
        Some (RuntimeError "maximum recursion depth exceeded")).
Proof. split; vm_compute; reflexivity. Qed.
(** ** Wire inference *)

Lemma init_wire c n1 n2 :
  NetElement.__init__ c "W_" n1 n2 [] [] = inr (c, wire n1 n2).
Proof. reflexivity. Qed.

Lemma wires_loop (vnode : dict string NetElement.t) :
  forall l pre c acc,
    keys vnode = pre ++ l ->
    for_each
      (fun (st : nat * list NetElement.t) n =>
         n1 <- match nth_error (keys vnode) n with
               | Some k => ret k
               | None => raise IndexError
               end ;;
         n2 <- match nth_error (keys vnode) (n + 1) with
               | Some k => ret k
               | None => raise IndexError
               end ;;
         '(counter, wire) <- NetElement.__init__ (fst st) "W_" n1 n2 [] [] ;;
         ret (counter, (snd st ++ [wire])%list))
      (seq (Datatypes.length pre) (Datatypes.length l - 1)) (c, acc)
    = inr (c, acc ++ map (fun p => wire (fst p) (snd p)) (consecutive l)).
Proof.
  induction l as [|x l IH]; intros pre c acc Hk.
  - simpl. now rewrite app_nil_r.
  - destruct l as [|y l].
    + simpl. now rewrite app_nil_r.
    + replace (Datatypes.length (x :: y :: l) - 1)%nat
        with (S (Datatypes.length (y :: l) - 1)) by (simpl; lia).
      cbn [seq for_each].
      assert (H1 : nth_error (keys vnode) (Datatypes.length pre) = Some x).
      { rewrite Hk, nth_error_app2, Nat.sub_diag by lia. reflexivity. }
      assert (H2 : nth_error (keys vnode) (Datatypes.length pre + 1) = Some y).
      { rewrite Hk, nth_error_app2 by lia.
        replace (Datatypes.length pre + 1 - Datatypes.length pre)%nat
          with 1%nat by lia. reflexivity. }
      rewrite H1, H2. cbn [bind ret fst snd]. rewrite init_wire.
      cbn [bind ret fst snd].
      specialize (IH (pre ++ [x]) c (acc ++ [wire x y])).
      assert (Hlen : Datatypes.length (pre ++ [x]) = S (Datatypes.length pre))
        by (rewrite length_app; simpl; lia).
      rewrite Hlen in IH.
      rewrite IH by (rewrite Hk, <- app_assoc; reflexivity).
      unfold consecutive. cbn [tl combine map fst snd].
      now rewrite <- app_assoc.
Qed.


Lemma make_wires1_spec c (vnode : dict string NetElement.t) :
  Schematic._make_wires1 c vnode
  = inr (c, map (fun p => wire (fst p) (snd p)) (consecutive (keys vnode))).
Proof.
  unfold Schematic._make_wires1.
  assert (Hl : Datatypes.length vnode = Datatypes.length (keys vnode))
    by (unfold keys; now rewrite length_map).
  destruct (Nat.eqb_spec (Datatypes.length vnode - 1) 0) as [E|E].
  - destruct (keys vnode) as [|x [|y l]] eqn:Ek; try reflexivity.
    simpl in Hl. lia.
  - rewrite Hl. exact (wires_loop vnode (keys vnode) [] c [] eq_refl).
Qed.
Lemma str_in_In x l : str_in x l = true <-> In x l.
Proof.
  unfold str_in. rewrite existsb_exists. split.
  - intros [y [Hi He]]. apply String.eqb_eq in He. now subst.
  - intros Hi. exists x. split; [assumption|apply String.eqb_refl].
Qed.

Lemma str_in_keys {V} (d : dict string V) k : str_in k (keys d) = has_key d k.
Proof.
  destruct (has_key d k) eqn:E.
  - apply str_in_In. now apply has_key_keys.
  - destruct (str_in k (keys d)) eqn:E2; [|reflexivity].
    apply str_in_In, has_key_keys in E2. congruence.
Qed.

Lemma encounter_order_app l x :
  encounter_order (l ++ [x]) = encounter (encounter_order l) x.
Proof. unfold encounter_order. now rewrite fold_left_app. Qed.

Lemma encounter_NoDup l : NoDup (encounter_order l).
Proof.
  unfold encounter_order.
  assert (G : forall acc, NoDup acc -> NoDup (fold_left encounter l acc)).
  { induction l as [|x l IH]; simpl; intros acc Ha; [assumption|].
    apply IH. unfold encounter. destruct (str_in x acc) eqn:E; [assumption|].
    apply NoDup_app; [assumption|repeat constructor; intros []|].
    intros y Hy [<-|[]]. apply str_in_In in Hy. congruence. }
  apply G. constructor.
Qed.

Lemma encounter_incl l x : In x (encounter_order l) -> In x l.
Proof.
  unfold encounter_order.
  assert (G : forall acc, In x (fold_left encounter l acc) -> In x acc \/ In x l).
  { induction l as [|y l IH]; simpl; intros acc Hi; [now left|].
    destruct (IH _ Hi) as [Ha|Hl]; [|now right; right].
    unfold encounter in Ha. destruct (str_in y acc); [now left|].
    apply in_app_or in Ha. destruct Ha as [Ha|[<-|[]]]; [now left|].
    right. now left. }
  intros Hi. destruct (G [] Hi) as [[]|Hl]. exact Hl.
Qed.

Lemma node_add_vnodes s k elt :
  nodes_from_keys s ->
  Schematic.vnodes (Schematic._node_add s k elt)
  = let r := Node.rootname (Node.__init__ k) in
    let v1 := if has_key (Schematic.vnodes s) r then Schematic.vnodes s
              else dset (Schematic.vnodes s) r [] in
    let al := match dget v1 r with Some d => d | None => [] end in
    if has_key al k then v1 else dset v1 r (dset al k elt).
Proof.
  intros Hs. unfold Schematic._node_add; cbn [Schematic.vnodes].
  assert (Hr : Node.rootname
                 match
                   dget (if has_key (Schematic.nodes s) k
                         then Schematic.nodes s
                         else dset (Schematic.nodes s) k (Node.__init__ k)) k
                 with
                 | Some nd => Node.append nd elt
                 | None => Node.append (Node.__init__ k) elt
                 end
               = Node.rootname (Node.__init__ k)).
  { unfold has_key. destruct (dget (Schematic.nodes s) k) as [nd|] eqn:E.
    - rewrite E. simpl. now apply Hs.
    - now rewrite dget_dset_same. }
  rewrite Hr. reflexivity.
Qed.

Lemma node_add_aliases s k elt root :
  nodes_from_keys s ->
  aliases_of (Schematic._node_add s k elt) root
  = if in_net root k then encounter (aliases_of s root) k
    else aliases_of s root.
Proof.
  intros Hs. unfold aliases_of, in_net, encounter.
  rewrite node_add_vnodes by assumption. cbv zeta.
  set (r := Node.rootname (Node.__init__ k)).
  destruct (String.eqb_spec r root) as [<-|Hn].
  - destruct (dget (Schematic.vnodes s) r) as [d|] eqn:Ed.
    + assert (Hh : has_key (Schematic.vnodes s) r = true)
        by (unfold has_key; now rewrite Ed).
      rewrite Hh, Ed, str_in_keys.
      destruct (has_key d k) eqn:Ek.
      * now rewrite Ed.
      * rewrite dget_dset_same. now apply keys_dset_new.
    + assert (Hh : has_key (Schematic.vnodes s) r = false)
        by (unfold has_key; now rewrite Ed).
      rewrite Hh, dget_dset_same. cbn [has_key dget].
      rewrite dget_dset_same. reflexivity.
  - assert (Hv1 : dget (if has_key (Schematic.vnodes s) r
                        then Schematic.vnodes s
                        else dset (Schematic.vnodes s) r []) root
                  = dget (Schematic.vnodes s) root).
    { destruct (has_key (Schematic.vnodes s) r); [reflexivity|].
      now apply dget_dset_other. }
    match goal with
    | |- context [if ?b then _ else _] => destruct b
    end.
    + now rewrite Hv1.
    + rewrite dget_dset_other by assumption. now rewrite Hv1.
Qed.
Lemma elt_add_aliases s elt root :
  nodes_from_keys s ->
  aliases_of (Schematic._elt_add s elt) root
  = encounter_order_from (aliases_of s root)
      (filter (in_net root) (node_refs [elt])).
Proof.
  intros Hs. unfold Schematic._elt_add, node_refs, encounter_order_from.
  cbn [flat_map app].
  destruct (NetElement.nodes elt) as [n1 n2]. cbn [fst snd filter].
  set (s1 := Schematic.mk _ _ _ _ _).
  assert (Hs1 : nodes_from_keys s1) by exact Hs.
  rewrite node_add_aliases by now apply node_add_from_keys.
  rewrite node_add_aliases by assumption.
  change (aliases_of s1 root) with (aliases_of s root).
  destruct (in_net root n1), (in_net root n2); reflexivity.
Qed.

Lemma add_all_aliases elts :
  forall s refs,
    nodes_from_keys s ->
    (forall root,
        aliases_of s root = encounter_order (filter (in_net root) refs)) ->
    nodes_from_keys (fold_left Schematic._elt_add elts s)
    /\ forall root,
        aliases_of (fold_left Schematic._elt_add elts s) root
        = encounter_order (filter (in_net root) (refs ++ node_refs elts)).
Proof.
  induction elts as [|e elts IH]; intros s refs Hs Ha.
  - simpl. rewrite app_nil_r. now split.
  - cbn [fold_left].
    destruct (IH (Schematic._elt_add s e) (refs ++ node_refs [e])) as [Hs' Ha'].
    + now apply elt_add_from_keys.
    + intros root. rewrite elt_add_aliases, Ha by assumption.
      unfold encounter_order_from, encounter_order.
      now rewrite filter_app, fold_left_app.
    + split; [assumption|]. intros root. rewrite Ha'.
      rewrite <- app_assoc. reflexivity.
Qed.

Lemma undot_pairs (l : list (string * string)) :
  (forall p, In p l -> contains "." (fst p) = false
                       /\ contains "." (snd p) = false) ->
  map NetElement.nodes (map (fun p => wire (fst p) (snd p)) l) = l.
Proof.
  induction l as [|[a b] l IH]; intros Hl; [reflexivity|].
  cbn [map wire NetElement.nodes fst snd].
  destruct (Hl (a, b) (or_introl eq_refl)) as [Ha Hb]. simpl in Ha, Hb.
  rewrite (undot_id a Ha), (undot_id b Hb), IH; [reflexivity|].
  intros p Hp. apply Hl. now right.
Qed.

Lemma in_consecutive {A} (l : list A) (p : A * A) :
  In p (consecutive l) -> In (fst p) l /\ In (snd p) l.
Proof.
  unfold consecutive. destruct p as [a b]. intros Hi. split.
  - now apply in_combine_l in Hi.
  - apply in_combine_r in Hi. destruct l; [contradiction|now right].
Qed.

Lemma node_refs_undotted elts n :
  Forall (fun e => undotted e = true) elts ->
  In n (node_refs elts) -> contains "." n = false.
Proof.
  intros Hf Hi. unfold node_refs in Hi. apply in_flat_map in Hi.
  destruct Hi as [e [He Hn]].
  rewrite Forall_forall in Hf. specialize (Hf e He).
  unfold undotted in Hf. apply andb_true_iff in Hf. destruct Hf as [H1 H2].
  apply negb_true_iff in H1. apply negb_true_iff in H2.
  destruct Hn as [<-|[<-|[]]]; assumption.
Qed.


(** ** Loops *)

Lemma for_each_app {A S} (body : S -> A -> M S) l1 l2 st :
  for_each body (l1 ++ l2) st = bind (for_each body l1 st) (for_each body l2).
Proof.
  revert st. induction l1 as [|x l1 IH]; intros st; simpl; [reflexivity|].
  destruct (body st x) as [e|st1]; simpl; [reflexivity|apply IH].
Qed.

Lemma for_each_ext {A B S} (f : A -> B) (body1 body2 : S -> A -> M S) l1 l2 :
  (forall st a b, f a = f b -> body1 st a = body2 st b) ->
  map f l1 = map f l2 ->
  forall st, for_each body1 l1 st = for_each body2 l2 st.
Proof.
  intros Hb. revert l2.
  induction l1 as [|a l1 IH]; intros [|b l2] Hm st; try discriminate;
    [reflexivity|].
  injection Hm as Hab Hm. simpl. rewrite (Hb st a b Hab).
  destruct (body2 st b); simpl; [reflexivity|now apply IH].
Qed.

(** ** Conflicts of the axis unifier *)

Lemma unify_conflict dirs st elt d a b :
  dget (NetElement.opts elt) "dir" = Some d ->
  Schematic.dir_in d dirs = false ->
  dget (Schematic.cnode_map st) (fst (NetElement.nodes elt)) = Some a ->
  dget (Schematic.cnode_map st) (snd (NetElement.nodes elt)) = Some b ->
  a <> b ->
  Schematic.unify dirs st elt = inl (conflict_error elt).
Proof.
  intros Hd Hdir Ha Hb Hab. unfold Schematic.unify, dindex.
  rewrite Hd. cbn [bind ret]. rewrite Hdir.
  destruct (NetElement.nodes elt) as [n1 n2]. cbn [fst snd] in *.
  unfold Schematic.conflict. rewrite Ha, Hb.
  apply Nat.eqb_neq in Hab. rewrite Hab. reflexivity.
Qed.

Lemma positions_error_x float_of_str limit self e :
  Schematic._make_graphs float_of_str limit self x_axis = inl e ->
  Schematic._positions_calculate float_of_str limit self = (self, Some e).
Proof.
  intros He. unfold Schematic._positions_calculate.
  change ("right", "left") with x_axis. now rewrite He.
Qed.

Lemma positions_error_y float_of_str limit self xpos e :
  Schematic._make_graphs float_of_str limit self x_axis = inr xpos ->
  Schematic._make_graphs float_of_str limit self y_axis = inl e ->
  Schematic._positions_calculate float_of_str limit self = (self, Some e).
Proof.
  intros Hx He. unfold Schematic._positions_calculate.
  change ("right", "left") with x_axis. change ("up", "down") with y_axis.
  now rewrite Hx, He.
Qed.

(** C3. When the first loop of an axis pass reaches an orthogonal element
    whose two terminals are already in two different collective nodes,
    the pass raises the conflict error that names the element; neither
    collective node is chosen.  The error ends [_positions_calculate]
    with the schematic as it was: no coordinate is stored. *)
Theorem conflict_detected (float_of_str : string -> option Q) (limit : nat)
    (self : Schematic.t) (dirs : string * string)
    (before after : list NetElement.t) (elt : NetElement.t)
    (st : Schematic.cstate) (d : value) (a b : nat) :
  values (Schematic.elements self) = before ++ elt :: after ->
  for_each (Schematic.unify dirs) before no_cnodes = inr st ->
  dget (NetElement.opts elt) "dir" = Some d ->
  Schematic.dir_in d dirs = false ->
  dget (Schematic.cnode_map st) (fst (NetElement.nodes elt)) = Some a ->
  dget (Schematic.cnode_map st) (snd (NetElement.nodes elt)) = Some b ->
  a <> b ->
  Schematic._make_graphs float_of_str limit self dirs
  = inl (conflict_error elt)
  /\ (dirs = x_axis ->
      Schematic._positions_calculate float_of_str limit self
      = (self, Some (conflict_error elt)))
  /\ (dirs = y_axis ->
      forall xpos,
        Schematic._make_graphs float_of_str limit self x_axis = inr xpos ->
        Schematic._positions_calculate float_of_str limit self
        = (self, Some (conflict_error elt))).
Proof.
  intros Hv Hu Hd Hdir Ha Hb Hab.
  assert (Hg : Schematic._make_graphs float_of_str limit self dirs
               = inl (conflict_error elt)).
  { unfold Schematic._make_graphs, Schematic.axis_graphs.
    rewrite Hv, for_each_app. fold no_cnodes. rewrite Hu.
    cbn [bind for_each].
    rewrite (unify_conflict dirs st elt d a b Hd Hdir Ha Hb Hab).
    reflexivity. }
  split; [exact Hg|]. split.
  - intros ->. now apply positions_error_x.
  - intros -> xpos Hx. now apply positions_error_y with xpos.
Qed.

Lemma conflict_detected_witness :
  let self := snd (build split_chain_lines) in
  let e1 := resistor "1" "a" "b" in
  let e3 := resistor "3" "c" "d" in
  let e2 := resistor "2" "b" "c" in
  let st := Schematic.mkc [(1, ["a"; "b"]); (2, ["c"; "d"])]%nat
                          [("a", 1); ("b", 1); ("c", 2); ("d", 2)]%nat 2 in
  values (Schematic.elements self) = [e1; e3] ++ e2 :: []
  /\ for_each (Schematic.unify y_axis) [e1; e3] no_cnodes = inr st
  /\ dget (NetElement.opts e2) "dir" = Some (VStr "right")
  /\ Schematic.dir_in (VStr "right") y_axis = false
  /\ dget (Schematic.cnode_map st) (fst (NetElement.nodes e2)) = Some 1%nat
  /\ dget (Schematic.cnode_map st) (snd (NetElement.nodes e2)) = Some 2%nat
  /\ 1%nat <> 2%nat
  /\ (exists xpos,
         Schematic._make_graphs float_of_decimal 1000 self x_axis = inr xpos)
  /\ Schematic._positions_calculate float_of_decimal 1000 self
     = (self, Some (ValueError "Conflict for elt R2 b c")).
Proof.
  intros self e1 e3 e2 st.
  assert (Hv : values (Schematic.elements self) = [e1; e3] ++ e2 :: [])
    by reflexivity.
  assert (Hu : for_each (Schematic.unify y_axis) [e1; e3] no_cnodes = inr st)
    by reflexivity.
  assert (Hd : dget (NetElement.opts e2) "dir" = Some (VStr "right"))
    by reflexivity.
  assert (Hdir : Schematic.dir_in (VStr "right") y_axis = false)
    by reflexivity.
  assert (Ha : dget (Schematic.cnode_map st) (fst (NetElement.nodes e2))
               = Some 1%nat) by reflexivity.
  assert (Hb : dget (Schematic.cnode_map st) (snd (NetElement.nodes e2))
               = Some 2%nat) by reflexivity.
  assert (Hab : 1%nat <> 2%nat) by discriminate.
  assert (Hx : exists xpos,
             Schematic._make_graphs float_of_decimal 1000 self x_axis
             = inr xpos) by (eexists; vm_compute; reflexivity).
  split; [exact Hv|]. split; [exact Hu|].
  split; [exact Hd|]. split; [exact Hdir|]. split; [exact Ha|].
  split; [exact Hb|]. split; [exact Hab|]. split; [exact Hx|].
  destruct Hx as [xpos Hx].
  destruct (conflict_detected float_of_decimal 1000 self y_axis
              [e1; e3] [] e2 st (VStr "right") 1 2
              Hv Hu Hd Hdir Ha Hb Hab) as [_ [_ Hy]].
  exact (Hy eq_refl xpos Hx).
Defined.
(** ** Determinism of the position synthesizer *)

Lemma view_eq a b :
  elt_view a = elt_view b ->
  NetElement.name a = NetElement.name b
  /\ NetElement.nodes a = NetElement.nodes b
  /\ NetElement.opts a = NetElement.opts b.
Proof. unfold elt_view. intros [= H1 H2 H3]. auto. Qed.

Lemma unify_view dirs st a b :
  elt_view a = elt_view b -> Schematic.unify dirs st a = Schematic.unify dirs st b.
Proof.
  intros Hv. destruct (view_eq a b Hv) as [Hn [Hnd Ho]].
  unfold Schematic.unify, NetElement.__str__. now rewrite Hn, Hnd, Ho.
Qed.

Lemma augment_view dirs st a b :
  elt_view a = elt_view b ->
  Schematic.augment dirs st a = Schematic.augment dirs st b.
Proof.
  intros Hv. destruct (view_eq a b Hv) as [Hn [Hnd Ho]].
  unfold Schematic.augment. now rewrite Hnd, Ho.
Qed.

Lemma connect_view float_of_str dirs cmap gs a b :
  elt_view a = elt_view b ->
  Schematic.connect float_of_str dirs cmap gs a
  = Schematic.connect float_of_str dirs cmap gs b.
Proof.
  intros Hv. destruct (view_eq a b Hv) as [Hn [Hnd Ho]].
  unfold Schematic.connect. now rewrite Hnd, Ho.
Qed.

Lemma axis_graphs_view float_of_str s1 s2 dirs :
  map elt_view (values (Schematic.elements s1))
  = map elt_view (values (Schematic.elements s2)) ->
  Schematic.axis_graphs float_of_str s1 dirs
  = Schematic.axis_graphs float_of_str s2 dirs.
Proof.
  intros Hv. unfold Schematic.axis_graphs.
  rewrite (for_each_ext elt_view _ (Schematic.unify dirs) _ _
             (unify_view dirs) Hv).
  destruct (for_each (Schematic.unify dirs) _ _) as [e|st]; [reflexivity|].
  cbn [bind].
  rewrite (for_each_ext elt_view _ (Schematic.augment dirs) _ _
             (augment_view dirs) Hv).
  destruct (for_each (Schematic.augment dirs) _ _) as [e|st1]; [reflexivity|].
  cbn [bind].
  rewrite (for_each_ext elt_view _
             (Schematic.connect float_of_str dirs (Schematic.cnode_map st1))
             _ _ (connect_view float_of_str dirs _) Hv).
  reflexivity.
Qed.

Lemma make_graphs_view float_of_str limit s1 s2 dirs :
  map elt_view (values (Schematic.elements s1))
  = map elt_view (values (Schematic.elements s2)) ->
  Schematic._make_graphs float_of_str limit s1 dirs
  = Schematic._make_graphs float_of_str limit s2 dirs.
Proof.
  intros Hv. unfold Schematic._make_graphs.
  now rewrite (axis_graphs_view float_of_str s1 s2 dirs Hv).
Qed.

Lemma attach_view coords :
  forall d1 d2 : dict string NetElement.t,
    map elt_view (values d1) = map elt_view (values d2) ->
    snd (Schematic.attach coords d1) = snd (Schematic.attach coords d2).
Proof.
  induction d1 as [|[k1 a] d1 IH]; intros [|[k2 b] d2] Hv; try discriminate;
    [reflexivity|].
  cbn [values map snd] in Hv.
  assert (Hab : elt_view a = elt_view b) by congruence.
  assert (Hv' : map elt_view (values d1) = map elt_view (values d2))
    by (unfold values; congruence).
  clear Hv. rename Hv' into Hv.
  destruct (view_eq a b Hab) as [_ [Hnd _]].
  cbn [Schematic.attach]. rewrite Hnd.
  destruct (NetElement.nodes b) as [n1 n2].
  destruct (dget coords n1); [|reflexivity].
  destruct (dget coords n2); [|reflexivity].
  specialize (IH d2 Hv).
  destruct (Schematic.attach coords d1), (Schematic.attach coords d2).
  exact IH.
Qed.

Lemma attach_keeps_view coords :
  forall d : dict string NetElement.t,
    map elt_view (values (fst (Schematic.attach coords d)))
    = map elt_view (values d).
Proof.
  induction d as [|[k a] d IH]; [reflexivity|].
  cbn [Schematic.attach].
  destruct (NetElement.nodes a) as [n1 n2] eqn:En.
  destruct (dget coords n1); [|reflexivity].
  destruct (dget coords n2); [|reflexivity].
  destruct (Schematic.attach coords d) as [rest e].
  cbn [fst values map snd] in *. now rewrite IH.
Qed.

Lemma positions_keep_input float_of_str limit s :
  layout_input (fst (Schematic._positions_calculate float_of_str limit s))
  = layout_input s.
Proof.
  unfold Schematic._positions_calculate, layout_input.
  match goal with
  | |- context [match ?c with inl _ => _ | inr _ => _ end] => destruct c as [e|coords']
  end; [reflexivity|].
  pose proof (attach_keeps_view coords' (Schematic.elements s)) as Hk.
  destruct (Schematic.attach coords' (Schematic.elements s)) as [elts [e|]];
    cbn [fst Schematic.scale Schematic.elements] in *; now rewrite Hk.
Qed.

Lemma positions_view float_of_str limit s1 s2 :
  layout_input s1 = layout_input s2 ->
  layout_result (Schematic._positions_calculate float_of_str limit s1)
  = layout_result (Schematic._positions_calculate float_of_str limit s2).
Proof.
  unfold layout_input. intros [= Hs Hv].
  unfold Schematic._positions_calculate.
  rewrite (make_graphs_view float_of_str limit s1 s2 _ Hv).
  destruct (Schematic._make_graphs float_of_str limit s2 ("right", "left"))
    as [e|xpos]; [reflexivity|]. cbn [bind].
  rewrite (make_graphs_view float_of_str limit s1 s2 _ Hv).
  destruct (Schematic._make_graphs float_of_str limit s2 ("up", "down"))
    as [e|ypos]; [reflexivity|]. cbn [bind].
  rewrite Hs.
  destruct (for_each (Schematic.scale_coords _ xpos ypos) (keys xpos) [])
    as [e|coords']; [reflexivity|].
  pose proof (attach_view coords' _ _ Hv) as Ha.
  destruct (Schematic.attach coords' (Schematic.elements s1)) as [el1 r1],
           (Schematic.attach coords' (Schematic.elements s2)) as [el2 r2].
  cbn [snd] in Ha. subst r2. now destruct r1.
Qed.

(** C7. The position synthesizer is a function of the scale and of the
    ordered element list (names, terminals, options) only: two
    schematics that agree on them get the same exception or the same
    coordinates for every terminal on both axes, and running it again on
    the schematic it has just updated gives the same result. *)
Theorem positions_deterministic (float_of_str : string -> option Q)
    (limit : nat) (s1 s2 : Schematic.t) :
  layout_input s1 = layout_input s2 ->
  layout_result (Schematic._positions_calculate float_of_str limit s1)
  = layout_result (Schematic._positions_calculate float_of_str limit s2)
  /\ layout_result
       (Schematic._positions_calculate float_of_str limit
          (fst (Schematic._positions_calculate float_of_str limit s1)))
     = layout_result (Schematic._positions_calculate float_of_str limit s1).
Proof.
  intros Hi. split.
  - now apply positions_view.
  - apply positions_view, positions_keep_input.
Qed.

Lemma positions_deterministic_witness :
  let s1 := snd (build series_lines) in
  let s2 := fst (Schematic._positions_calculate float_of_decimal 1000 s1) in
  layout_input s1 = layout_input s2
  /\ s1 <> s2
  /\ layout_result (Schematic._positions_calculate float_of_decimal 1000 s1)
     = layout_result (Schematic._positions_calculate float_of_decimal 1000 s2).
Proof.
  intros s1 s2.
  assert (Hi : layout_input s1 = layout_input s2) by (vm_compute; reflexivity).
  split; [exact Hi|]. split.
  - intros Hc. apply (f_equal Schematic.coords) in Hc. vm_compute in Hc.
    discriminate.
  - exact (proj1 (positions_deterministic float_of_decimal 1000 s1 s2 Hi)).
Defined.
(** ** Soundness of the scheduler *)




Section SchedulerFacts.
Variable g : dict nat (list (nat * Q)).

Lemma lp_over_mono (rec1 rec2 : nat -> option Q) ps :
  (forall u w, rec1 u = Some w -> rec2 u = Some w) ->
  forall b val, lp_over rec1 ps b = Some val -> lp_over rec2 ps b = Some val.
Proof.
  intros Hr. induction ps as [|[u s] ps IH]; simpl; intros b val Hl;
    [assumption|].
  destruct (rec1 u) as [w|] eqn:E; [|discriminate].
  rewrite (Hr u w E). now apply IH.
Qed.

Lemma lp_step h : forall v val, lp g h v = Some val -> lp g (S h) v = Some val.
Proof.
  induction h as [|h IH]; intros v val Hl; [discriminate|].
  cbn [lp] in Hl |- *.
  destruct (dget g v) as [ps|]; [|discriminate].
  eapply lp_over_mono; [|exact Hl]. exact IH.
Qed.

Lemma lp_le h h' v val : (h <= h')%nat -> lp g h v = Some val -> lp g h' v = Some val.
Proof.
  induction 1 as [|h' Hle IH]; [auto|].
  intros Hl. apply lp_step. now apply IH.
Qed.

Lemma has_longest_unique v a b :
  has_longest g v a -> has_longest g v b -> a = b.
Proof.
  intros [h1 H1] [h2 H2].
  apply (lp_le h1 (Nat.max h1 h2)) in H1; [|lia].
  apply (lp_le h2 (Nat.max h1 h2)) in H2; [|lia].
  congruence.
Qed.




Lemma best_over_sound rec ps :
  (forall memo u val memo',
      memo_sound g memo -> rec memo u = inr (val, memo') ->
      memo_sound g memo' /\ has_longest g u val
      /\ (forall k, has_key memo k = true -> has_key memo' k = true)) ->
  forall b memo val memo',
    memo_sound g memo -> best_over rec ps b memo = inr (val, memo') ->
    memo_sound g memo' /\ (exists h, lp_over (lp g h) ps b = Some val)
    /\ (forall k, has_key memo k = true -> has_key memo' k = true).
Proof.
  intros Hrec. induction ps as [|[u s] ps IH]; simpl; intros b memo val memo' Hm Hb.
  - injection Hb as <- <-. split; [assumption|]. split; [now exists O|auto].
  - apply bind_inr in Hb. destruct Hb as [[w memo1] [Hr Hb]].
    destruct (Hrec _ _ _ _ Hm Hr) as [Hm1 [[hu Hu] Hk1]].
    destruct (IH _ _ _ _ Hm1 Hb) as [Hm' [[h Hl] Hk']].
    split; [assumption|]. split; [|auto].
    exists (Nat.max hu h).
    rewrite (lp_le hu (Nat.max hu h) u w) by (auto; lia).
    eapply lp_over_mono; [|exact Hl].
    intros u' w'. apply lp_le. lia.
Qed.

Lemma get_longest_sound depth :
  forall memo v val memo',
    memo_sound g memo -> get_longest g depth memo v = inr (val, memo') ->
    memo_sound g memo' /\ has_longest g v val
    /\ (forall k, has_key memo k = true -> has_key memo' k = true).
Proof.
  induction depth as [|d IH]; intros memo v val memo' Hm Hg; [discriminate|].
  cbn [get_longest] in Hg.
  destruct (dget memo v) as [w|] eqn:Ev.
  - injection Hg as <- <-. split; [assumption|]. split; [now apply Hm|auto].
  - apply bind_inr in Hg. destruct Hg as [ps [Hps Hg]].
    apply bind_inr in Hg. destruct Hg as [[best memo1] [Hb Hg]].
    injection Hg as <- <-.
    unfold dindex in Hps. destruct (dget g v) as [ps'|] eqn:Eg; [|discriminate].
    injection Hps as ->.
    destruct (best_over_sound _ ps IH _ _ _ _ Hm Hb) as [Hm1 [[h Hl] Hk]].
    assert (Hv : has_longest g v best).
    { exists (S h). cbn [lp]. now rewrite Eg. }
    split; [|split; [assumption|]].
    + intros k w. rewrite dget_dset.
      destruct (keqb_spec v k) as [<-|Hn]; [|apply Hm1].
      now intros [= <-].
    + intros k Hk0. rewrite has_key_dset. rewrite (Hk k Hk0). apply orb_true_r.
Qed.

Lemma get_longest_stored depth memo v val memo' :
  get_longest g depth memo v = inr (val, memo') -> dget memo' v = Some val.
Proof.
  destruct depth as [|d]; [discriminate|]. cbn [get_longest].
  destruct (dget memo v) as [w|] eqn:Ev.
  - now intros [= <- <-].
  - intros Hg.
    apply bind_inr in Hg. destruct Hg as [ps [Hps Hg]].
    apply bind_inr in Hg. destruct Hg as [[best memo1] [Hb Hg]].
    injection Hg as <- <-. apply dget_dset_same.
Qed.

(** The list [longest_all] returns pairs every node with its value. *)
Lemma longest_all_sound depth all_nodes :
  forall memo l memo',
    memo_sound g memo -> longest_all g depth all_nodes memo = inr (l, memo') ->
    memo_sound g memo'
    /\ (forall k, has_key memo k = true -> has_key memo' k = true)
    /\ map snd l = all_nodes
    /\ (forall val v, In (val, v) l -> has_longest g v val)
    /\ (forall v, In v all_nodes -> has_key memo' v = true).
Proof.
  induction all_nodes as [|u rest IH]; simpl; intros memo l memo' Hm Hl.
  - injection Hl as <- <-.
    split; [assumption|]. split; [auto|]. split; [reflexivity|].
    split; [intros ? ? []|intros ? []].
  - apply bind_inr in Hl. destruct Hl as [[w memo1] [Hg Hl]].
    apply bind_inr in Hl. destruct Hl as [[l1 memo2] [Hr Hl]].
    injection Hl as <- <-.
    destruct (get_longest_sound _ _ _ _ _ Hm Hg) as [Hm1 [Hu Hk1]].
    destruct (IH _ _ _ Hm1 Hr) as [Hm2 [Hk2 [Hmap [Hvals Hall]]]].
    split; [assumption|]. split; [auto|]. split; [simpl; now rewrite Hmap|].
    split.
    + intros val v [[= <- <-]|Hi]; [assumption|now apply Hvals].
    + intros v [<-|Hi]; [|now apply Hall].
      apply Hk2. unfold has_key.
      now rewrite (get_longest_stored _ _ _ _ _ Hg).
Qed.

End SchedulerFacts.
Lemma pair_gt_true y m : pair_gt y m = true -> (fst m <= fst y)%Q.
Proof.
  unfold pair_gt. destruct (Qcompare (fst y) (fst m)) eqn:E; intros Hp.
  - apply Qeq_alt in E. lra.
  - discriminate.
  - apply Qgt_alt in E. lra.
Qed.

Lemma pair_gt_false y m : pair_gt y m = false -> (fst y <= fst m)%Q.
Proof.
  unfold pair_gt. destruct (Qcompare (fst y) (fst m)) eqn:E; intros Hp.
  - apply Qeq_alt in E. lra.
  - apply Qlt_alt in E. lra.
  - discriminate.
Qed.

Lemma max_pairs_spec l m :
  max_pairs l = inr m ->
  In m l /\ forall x, In x l -> (fst x <= fst m)%Q.
Proof.
  destruct l as [|x0 l]; [discriminate|]. cbn [max_pairs ret]. intros [= <-].
  assert (G : forall l m0,
             let m := fold_left (fun m y => if pair_gt y m then y else m) l m0 in
             (m = m0 \/ In m l) /\ (fst m0 <= fst m)%Q
             /\ forall y, In y l -> (fst y <= fst m)%Q).
  { clear. induction l as [|y l IH]; intros m0; cbn [fold_left].
    - split; [now left|]. split; [lra|intros ? []].
    - destruct (IH (if pair_gt y m0 then y else m0)) as [Hm [Hle Hall]].
      destruct (pair_gt y m0) eqn:Ep.
      + apply pair_gt_true in Ep. split; [|split].
        * right. destruct Hm as [->|Hm]; [now left|now right].
        * lra.
        * intros z [<-|Hz]; [assumption|now apply Hall].
      + apply pair_gt_false in Ep. split; [|split].
        * destruct Hm as [->|Hm]; [now left|right; now right].
        * assumption.
        * intros z [<-|Hz]; [lra|now apply Hall]. }
  destruct (G l x0) as [Hm [Hle Hall]]. split.
  - destruct Hm as [->|Hm]; [now left|now right].
  - intros x [<-|Hx]; [assumption|now apply Hall].
Qed.

(** What a successful call of [longest_path] returns: the dictionary
    holds the longest-path value of every node asked for, and the length
    is the largest of them. *)
Lemma longest_path_sound g depth all_nodes L node memo :
  longest_path g depth all_nodes = inr (L, node, memo) ->
  memo_sound g memo
  /\ (forall v, In v all_nodes ->
        exists val, dget memo v = Some val /\ has_longest g v val
                    /\ (val <= L)%Q)
  /\ (exists v, In v all_nodes /\ dget memo v = Some L /\ has_longest g v L).
Proof.
  unfold longest_path. intros Hl.
  apply bind_inr in Hl. destruct Hl as [[l memo1] [Hall Hl]].
  apply bind_inr in Hl. destruct Hl as [[L1 node1] [Hmax Hl]].
  injection Hl as <- <- <-.
  destruct (longest_all_sound g depth all_nodes [] l memo1) as
      [Hm [_ [Hmap [Hvals Hkeys]]]]; [intros k w; discriminate|assumption|].
  destruct (max_pairs_spec _ _ Hmax) as [Hin Hle].
  assert (Hstored : forall val v, In (val, v) l -> dget memo1 v = Some val).
  { intros val v Hi.
    assert (Hv : In v all_nodes).
    { rewrite <- Hmap. change v with (snd (val, v)). now apply in_map. }
    specialize (Hkeys v Hv). unfold has_key in Hkeys.
    destruct (dget memo1 v) as [w|] eqn:E; [|discriminate].
    f_equal. apply (has_longest_unique g v); [exact (Hm v w E)|].
    exact (Hvals val v Hi). }
  split; [assumption|]. split.
  - intros v Hv. rewrite <- Hmap in Hv. apply in_map_iff in Hv.
    destruct Hv as [[val v'] [Hs Hi]]. simpl in Hs. subst v'.
    exists val. split; [now apply Hstored|]. split; [now apply Hvals|].
    exact (Hle _ Hi).
  - exists node1. split; [|split].
    + rewrite <- Hmap. change node1 with (snd (L1, node1)). now apply in_map.
    + now apply Hstored.
    + now apply Hvals.
Qed.
(** ** Collective nodes *)

Lemma dset_dset_same {K V} `{EqKey K} (d : dict K V) k v v' :
  dset (dset d k v) k v' = dset d k v'.
Proof.
  induction d as [|[k0 v0] d IH]; simpl.
  - now rewrite keqb_refl.
  - destruct (keqb k0 k) eqn:E; simpl; rewrite E; [reflexivity|].
    now rewrite IH.
Qed.

Lemma has_key_false {K V} `{EqKey K} (d : dict K V) k :
  has_key d k = false <-> dget d k = None.
Proof. unfold has_key. destruct (dget d k); split; congruence. Qed.

Lemma has_key_true {K V} `{EqKey K} (d : dict K V) k :
  has_key d k = true <-> exists v, dget d k = Some v.
Proof.
  unfold has_key. destruct (dget d k) as [v|]; split; try congruence; eauto.
  intros [v Hv]. discriminate.
Qed.

(** A terminal joins an existing collective node. *)
Lemma cnodes_wf_join st n c l :
  cnodes_wf st ->
  dget (Schematic.cnodes st) c = Some l ->
  dget (Schematic.cnode_map st) n = None
  \/ dget (Schematic.cnode_map st) n = Some c ->
  cnodes_wf (Schematic.mkc (dset (Schematic.cnodes st) c (l ++ [n]))
                           (dset (Schematic.cnode_map st) n c)
                           (Schematic.cnode st)).
Proof.
  intros [H1 H2] Hc Hn. destruct (H2 c l Hc) as [Hrange Hmem].
  split; cbn [Schematic.cnodes Schematic.cnode_map Schematic.cnode].
  - intros n' c'. rewrite dget_dset.
    destruct (keqb_spec n n') as [<-|Hne].
    + intros [= <-]. split; [assumption|].
      exists (l ++ [n]). rewrite dget_dset_same. split; [reflexivity|].
      apply in_or_app. right. now left.
    + intros Hd. destruct (H1 n' c' Hd) as [Hr [l' [Hl' Hi]]].
      split; [assumption|]. rewrite dget_dset.
      destruct (keqb_spec c c') as [<-|Hnc].
      * exists (l ++ [n]). split; [reflexivity|].
        rewrite Hc in Hl'. injection Hl' as <-. apply in_or_app. now left.
      * now exists l'.
  - intros c' l'. rewrite dget_dset.
    destruct (keqb_spec c c') as [<-|Hnc].
    + intros [= <-]. split; [assumption|].
      intros n' Hi. rewrite dget_dset.
      destruct (keqb_spec n n') as [<-|Hne]; [reflexivity|].
      apply in_app_or in Hi. destruct Hi as [Hi|[Hi|[]]]; [auto|contradiction].
    + intros Hd. destruct (H2 c' l' Hd) as [Hr Hm]. split; [assumption|].
      intros n' Hi. rewrite dget_dset.
      destruct (keqb_spec n n') as [<-|Hne]; [|auto].
      specialize (Hm n Hi). destruct Hn as [Hn|Hn]; congruence.
Qed.

(** A terminal opens a new collective node. *)
Lemma cnodes_wf_fresh st n :
  cnodes_wf st ->
  dget (Schematic.cnode_map st) n = None ->
  cnodes_wf (Schematic.mkc
               (dset (Schematic.cnodes st) (S (Schematic.cnode st)) [n])
               (dset (Schematic.cnode_map st) n (S (Schematic.cnode st)))
               (S (Schematic.cnode st))).
Proof.
  intros [H1 H2] Hn.
  assert (Hfree : dget (Schematic.cnodes st) (S (Schematic.cnode st)) = None).
  { destruct (dget (Schematic.cnodes st) (S (Schematic.cnode st))) as [l|] eqn:E;
      [|reflexivity].
    destruct (H2 _ _ E) as [Hr _]. lia. }
  split; cbn [Schematic.cnodes Schematic.cnode_map Schematic.cnode].
  - intros n' c'. rewrite dget_dset.
    destruct (keqb_spec n n') as [<-|Hne].
    + intros [= <-]. split; [lia|]. exists [n]. rewrite dget_dset_same.
      split; [reflexivity|now left].
    + intros Hd. destruct (H1 n' c' Hd) as [Hr [l' [Hl' Hi]]].
      split; [lia|]. exists l'. split; [|assumption].
      rewrite dget_dset_other; [assumption|lia].
  - intros c' l'. rewrite dget_dset.
    destruct (keqb_spec (S (Schematic.cnode st)) c') as [<-|Hnc].
    + intros [= <-]. split; [lia|].
      intros n' [<-|[]]. apply dget_dset_same.
    + intros Hd. destruct (H2 c' l' Hd) as [Hr Hm]. split; [lia|].
      intros n' Hi. rewrite dget_dset.
      destruct (keqb_spec n n') as [<-|Hne]; [|auto].
      specialize (Hm n Hi). congruence.
Qed.

Lemma cnodes_wf_empty : cnodes_wf no_cnodes.
Proof. split; intros ? ? Hd; discriminate. Qed.

Lemma fresh_cnode_wf st n : cnodes_wf st -> cnodes_wf (Schematic.fresh_cnode st n).
Proof.
  intros Hw. unfold Schematic.fresh_cnode.
  destruct (has_key (Schematic.cnode_map st) n) eqn:E; [assumption|].
  apply cnodes_wf_fresh; [assumption|]. now apply has_key_false.
Qed.

Lemma unify_wf dirs st elt st' :
  cnodes_wf st -> Schematic.unify dirs st elt = inr st' -> cnodes_wf st'.
Proof.
  intros Hw. unfold Schematic.unify. intros Hu.
  apply bind_inr in Hu. destruct Hu as [d [_ Hu]].
  destruct (Schematic.dir_in d dirs); [now injection Hu as <-|].
  destruct (NetElement.nodes elt) as [n1 n2].
  destruct (Schematic.conflict (Schematic.cnode_map st) n1 n2) eqn:Ec;
    [discriminate|].
  unfold Schematic.conflict in Ec.
  destruct (has_key (Schematic.cnode_map st) n1) eqn:E1;
    destruct (has_key (Schematic.cnode_map st) n2) eqn:E2;
    cbn [negb andb] in Hu.
  - (* both mapped, to the same collective node *)
    apply has_key_true in E1. destruct E1 as [a E1].
    apply has_key_true in E2. destruct E2 as [b E2].
    rewrite E1, E2 in Ec. apply negb_false_iff, Nat.eqb_eq in Ec. subst b.
    unfold dindex in Hu. rewrite E1 in Hu. cbn [bind ret] in Hu.
    apply bind_inr in Hu. destruct Hu as [cn [Hcn Hu]]. injection Hu as <-.
    unfold Schematic.cnodes_append, dindex in Hcn.
    destruct (dget (Schematic.cnodes st) a) as [l|] eqn:El; [|discriminate].
    injection Hcn as <-. apply cnodes_wf_join; auto.
  - apply has_key_true in E1. destruct E1 as [a E1].
    apply has_key_false in E2.
    unfold dindex in Hu. rewrite E1 in Hu. cbn [bind ret] in Hu.
    apply bind_inr in Hu. destruct Hu as [cn [Hcn Hu]]. injection Hu as <-.
    unfold Schematic.cnodes_append, dindex in Hcn.
    destruct (dget (Schematic.cnodes st) a) as [l|] eqn:El; [|discriminate].
    injection Hcn as <-. apply cnodes_wf_join; auto.
  - apply has_key_true in E2. destruct E2 as [b E2].
    apply has_key_false in E1.
    unfold dindex in Hu. rewrite E2 in Hu. cbn [bind ret] in Hu.
    apply bind_inr in Hu. destruct Hu as [cn [Hcn Hu]]. injection Hu as <-.
    unfold Schematic.cnodes_append, dindex in Hcn.
    destruct (dget (Schematic.cnodes st) b) as [l|] eqn:El; [|discriminate].
    injection Hcn as <-. apply cnodes_wf_join; auto.
  - apply has_key_false in E1. apply has_key_false in E2.
    injection Hu as <-.
    pose proof (cnodes_wf_fresh st n1 Hw E1) as Hf.
    set (c := S (Schematic.cnode st)) in *.
    replace (dset (Schematic.cnodes st) c [n1; n2])
      with (dset (dset (Schematic.cnodes st) c [n1]) c ([n1] ++ [n2]))
      by apply dset_dset_same.
    apply (cnodes_wf_join _ n2 c [n1] Hf).
    + cbn [Schematic.cnodes]. apply dget_dset_same.
    + cbn [Schematic.cnode_map]. rewrite dget_dset.
      destruct (keqb n1 n2); [now right|now left].
Qed.

Lemma augment_wf dirs st elt st' :
  cnodes_wf st -> Schematic.augment dirs st elt = inr st' -> cnodes_wf st'.
Proof.
  intros Hw. unfold Schematic.augment. intros Hu.
  apply bind_inr in Hu. destruct Hu as [d [_ Hu]].
  destruct (negb (Schematic.dir_in d dirs)); [now injection Hu as <-|].
  destruct (NetElement.nodes elt) as [n1 n2]. injection Hu as <-.
  now apply fresh_cnode_wf, fresh_cnode_wf.
Qed.

Lemma for_each_inv {A S} (P : S -> Prop) (body : S -> A -> M S) l :
  (forall st x st', P st -> body st x = inr st' -> P st') ->
  forall st st', P st -> for_each body l st = inr st' -> P st'.
Proof.
  intros Hb. induction l as [|x l IH]; simpl; intros st st' Hp Hf.
  - now injection Hf as <-.
  - apply bind_inr in Hf. destruct Hf as [st1 [H1 Hf]]. eauto.
Qed.
(** ** The two graphs *)

Lemma empty_graph_spec n :
  Schematic.empty_graph n = map (fun m => (m, [])) (seq 0 (S n)).
Proof.
  unfold Schematic.empty_graph.
  assert (G : forall k a,
             fold_left (fun (g : Schematic.graph) m => dset g m [])
                       (seq a k) (map (fun m => (m, [])) (seq 0 a))
             = map (fun m => (m, [])) (seq 0 (a + k))).
  { induction k as [|k IH]; intros a; cbn [seq fold_left].
    - now rewrite Nat.add_0_r.
    - rewrite dset_new.
      + replace (map (fun m => (m, [])) (seq 0 a) ++ [(a, [])])
          with (map (fun m : nat => (m, @nil (nat * Q))) (seq 0 (S a)))
          by (rewrite seq_S, map_app; reflexivity).
        rewrite IH. f_equal. f_equal. lia.
      + apply dget_None_keys. unfold keys. rewrite map_map. cbn [fst].
        rewrite map_id. rewrite in_seq. lia. }
  exact (G (S n) 0%nat).
Qed.

Lemma empty_graph_keys n : keys (Schematic.empty_graph n) = seq 0 (S n).
Proof.
  rewrite empty_graph_spec. unfold keys. rewrite map_map. cbn [fst].
  apply map_id.
Qed.

Lemma empty_graph_edge n v u s : ~ edge (Schematic.empty_graph n) v u s.
Proof.
  intros [ps [Hd Hi]]. rewrite empty_graph_spec in Hd.
  apply dget_In, in_map_iff in Hd. destruct Hd as [m [[= _ <-] _]].
  contradiction.
Qed.

Lemma graph_append_adds g m x g' :
  Schematic.graph_append g m x = inr g' -> adds_edge g g' m (fst x) (snd x).
Proof.
  unfold Schematic.graph_append, dindex. intros Ha.
  destruct x as [xu xs]. cbn [fst snd].
  destruct (dget g m) as [l|] eqn:El; [|discriminate]. injection Ha as <-.
  split.
  - apply keys_dset_old. unfold has_key. now rewrite El.
  - intros v u s. unfold edge. split.
    + intros [ps [Hd Hi]]. rewrite dget_dset in Hd.
      destruct (keqb_spec m v) as [<-|Hn].
      * injection Hd as <-. apply in_app_or in Hi.
        destruct Hi as [Hi|[[= -> ->]|[]]]; [left; now exists l|].
        right. auto.
      * left. now exists ps.
    + intros [[ps [Hd Hi]]|[-> [-> ->]]].
      * rewrite dget_dset. destruct (keqb_spec m v) as [<-|Hn].
        -- exists (l ++ [(xu, xs)]). split; [reflexivity|].
           rewrite El in Hd. injection Hd as <-. apply in_or_app. now left.
        -- now exists ps.
      * exists (l ++ [(xu, xs)]). rewrite dget_dset_same.
        split; [reflexivity|]. apply in_or_app. right. now left.
Qed.

Lemma dir_in_cases d dirs :
  Schematic.dir_in d dirs = true ->
  Schematic.dir_eq d (fst dirs) = false -> Schematic.dir_eq d (snd dirs) = true.
Proof. unfold Schematic.dir_in. intros Hd He. now rewrite He in Hd. Qed.

(** One pass of the third loop. *)
Lemma connect_step float_of_str dirs cmap gs elt gs' :
  Schematic.connect float_of_str dirs cmap gs elt = inr gs' ->
  exists d,
    dget (NetElement.opts elt) "dir" = Some d
    /\ ((Schematic.dir_in d dirs = false /\ gs' = gs)
        \/ (Schematic.dir_in d dirs = true
            /\ exists m1 m2 szv size,
                dget cmap (fst (NetElement.nodes elt)) = Some m1
                /\ dget cmap (snd (NetElement.nodes elt)) = Some m2
                /\ dget (NetElement.opts elt) "size" = Some szv
                /\ Schematic.float float_of_str szv = inr size
                /\ ((Schematic.dir_eq d (fst dirs) = true
                     /\ adds_edge (fst gs) (fst gs') m1 m2 size
                     /\ adds_edge (snd gs) (snd gs') m2 m1 size)
                    \/ (Schematic.dir_eq d (fst dirs) = false
                        /\ adds_edge (fst gs) (fst gs') m2 m1 size
                        /\ adds_edge (snd gs) (snd gs') m1 m2 size)))).
Proof.
  unfold Schematic.connect. intros Hc.
  apply bind_inr in Hc. destruct Hc as [d [Hd Hc]].
  unfold dindex in Hd.
  destruct (dget (NetElement.opts elt) "dir") as [d'|]; [|discriminate].
  injection Hd as ->. exists d. split; [reflexivity|].
  destruct (Schematic.dir_in d dirs) eqn:Edir; cbn [negb] in Hc;
    [right|left; split; [reflexivity|now injection Hc as <-]].
  split; [reflexivity|].
  apply bind_inr in Hc. destruct Hc as [m1 [H1 Hc]].
  apply bind_inr in Hc. destruct Hc as [m2 [H2 Hc]].
  apply bind_inr in Hc. destruct Hc as [szv [Hs Hc]].
  apply bind_inr in Hc. destruct Hc as [size [Hf Hc]].
  unfold dindex in H1, H2, Hs.
  destruct (dget cmap (fst (NetElement.nodes elt))) as [m1'|]; [|discriminate].
  destruct (dget cmap (snd (NetElement.nodes elt))) as [m2'|]; [|discriminate].
  destruct (dget (NetElement.opts elt) "size") as [szv'|]; [|discriminate].
  injection H1 as ->. injection H2 as ->. injection Hs as ->.
  exists m1, m2, szv, size. repeat (split; [reflexivity || assumption|]).
  destruct (Schematic.dir_eq d (fst dirs)) eqn:E0.
  - left. split; [reflexivity|].
    apply bind_inr in Hc. destruct Hc as [g [Hg Hc]].
    apply bind_inr in Hc. destruct Hc as [r [Hr Hc]].
    injection Hc as <-. cbn [fst snd].
    split; [exact (graph_append_adds _ _ _ _ Hg)|
            exact (graph_append_adds _ _ _ _ Hr)].
  - right. split; [reflexivity|].
    rewrite (dir_in_cases d dirs Edir E0) in Hc.
    apply bind_inr in Hc. destruct Hc as [g [Hg Hc]].
    apply bind_inr in Hc. destruct Hc as [r [Hr Hc]].
    injection Hc as <-. cbn [fst snd].
    split; [exact (graph_append_adds _ _ _ _ Hg)|
            exact (graph_append_adds _ _ _ _ Hr)].
Qed.

Lemma connect_connects float_of_str dirs cmap gs elt gs' :
  Schematic.connect float_of_str dirs cmap gs elt = inr gs' ->
  connects cmap gs gs'.
Proof.
  intros Hc. destruct (connect_step _ _ _ _ _ _ Hc) as [d [_ [[_ ->]|[_ H]]]];
    [now left|].
  destruct H as [m1 [m2 [szv [size [H1 [H2 [_ [_ H]]]]]]]].
  right. destruct H as [[_ [Hg Hr]]|[_ [Hg Hr]]].
  - exists m1, m2, size. repeat split; eauto; apply Hg || apply Hr.
  - exists m2, m1, size. repeat split; eauto; apply Hg || apply Hr.
Qed.

Lemma grown_refl cmap gs : grown cmap gs gs.
Proof.
  unfold grown. split; [reflexivity|]. split; [reflexivity|].
  split; [auto|]. split; [auto|]. split; auto.
Qed.

Lemma grown_step cmap gs0 gs gs' :
  grown cmap gs0 gs -> connects cmap gs gs' -> grown cmap gs0 gs'.
Proof.
  intros Hg [->|[a [b [size [Ha [Hb [[Hk1 He1] [Hk2 He2]]]]]]]]; [assumption|].
  destruct Hg as [K1 [K2 [M1 [M2 [R T]]]]].
  unfold grown. split; [congruence|]. split; [congruence|].
  split; [intros v u s Hi; apply He1; left; now apply M1|].
  split; [intros v u s Hi; apply He2; left; now apply M2|].
  split.
  - intros v u s Hi. apply He1 in Hi.
    destruct Hi as [Hi|[-> [-> ->]]]; [now apply R|right; now split].
  - intros Ht v u s. specialize (T Ht). rewrite He1, He2, (T v u s).
    split; (intros [Hi|[-> [-> ->]]]; [now left|right; auto]).
Qed.

Lemma connect_loop_grown float_of_str dirs cmap elts :
  forall gs gs',
    for_each (Schematic.connect float_of_str dirs cmap) elts gs = inr gs' ->
    grown cmap gs gs'.
Proof.
  intros gs gs'.
  apply (for_each_inv (grown cmap gs)); [|apply grown_refl].
  intros st x st' Hg Hc. eapply grown_step; [exact Hg|].
  eapply connect_connects; exact Hc.
Qed.
Lemma connect_loop_edges float_of_str dirs cmap elts :
  forall gs gs',
    for_each (Schematic.connect float_of_str dirs cmap) elts gs = inr gs' ->
    forall elt, In elt elts ->
      constrained float_of_str dirs cmap (fst gs') (snd gs') elt.
Proof.
  induction elts as [|e elts IH]; intros gs gs' Hf elt Hi; [contradiction|].
  cbn [for_each] in Hf. apply bind_inr in Hf. destruct Hf as [gs1 [Hc Hf]].
  destruct Hi as [<-|Hi]; [|now apply (IH gs1)].
  destruct (connect_loop_grown _ _ _ _ _ _ Hf) as [_ [_ [M1 [M2 _]]]].
  intros d Hd Hdir.
  destruct (connect_step _ _ _ _ _ _ Hc) as [d' [Hd' H]].
  rewrite Hd in Hd'. injection Hd' as <-.
  destruct H as [[Hn _]|[_ H]]; [congruence|].
  destruct H as [m1 [m2 [szv [size [H1 [H2 [Hs [Hfl H]]]]]]]].
  exists m1, m2, szv, size. repeat (split; [assumption|]).
  destruct H as [[E [[_ Hg] [_ Hr]]]|[E [[_ Hg] [_ Hr]]]]; split; intros E';
    try congruence; split.
  - apply M1, Hg. right. auto.
  - apply M2, Hr. right. auto.
  - apply M1, Hg. right. auto.
  - apply M2, Hr. right. auto.
Qed.

Lemma orphan_loop gs ms :
  forall os os',
    for_each (Schematic.orphan gs) ms os = inr os' ->
    (forall u s, In (u, s) (fst os') ->
       In (u, s) (fst os) \/ (In u ms /\ s = 0%Q))
    /\ (forall u s, In (u, s) (snd os') ->
          In (u, s) (snd os) \/ (In u ms /\ s = 0%Q)).
Proof.
  induction ms as [|m ms IH]; intros os os' Hf; cbn [for_each] in Hf.
  - injection Hf as <-. split; auto.
  - apply bind_inr in Hf. destruct Hf as [os1 [Ho Hf]].
    destruct (IH _ _ Hf) as [I1 I2].
    unfold Schematic.orphan in Ho.
    apply bind_inr in Ho. destruct Ho as [gm [_ Ho]].
    apply bind_inr in Ho. destruct Ho as [rm [_ Ho]].
    injection Ho as <-. cbn [fst snd] in *. split.
    + intros u s Hi. destruct (I1 u s Hi) as [H|[H ->]]; [|right; split; [now right|reflexivity]].
      destruct gm; [|now left].
      apply in_app_or in H. destruct H as [H|[[= <- <-]|[]]]; [now left|].
      right. split; [now left|reflexivity].
    + intros u s Hi. destruct (I2 u s Hi) as [H|[H ->]]; [|right; split; [now right|reflexivity]].
      destruct rm; [|now left].
      apply in_app_or in H. destruct H as [H|[[= <- <-]|[]]]; [now left|].
      right. split; [now left|reflexivity].
Qed.

Lemma edge_dset_root (g : Schematic.graph) o v u s :
  edge (dset g 0%nat o) v u s
  <-> (v <> 0%nat /\ edge g v u s) \/ (v = 0%nat /\ In (u, s) o).
Proof.
  unfold edge. split.
  - intros [ps [Hd Hi]]. rewrite dget_dset in Hd.
    destruct (keqb_spec 0%nat v) as [<-|Hn].
    + injection Hd as <-. right. auto.
    + left. split; [auto|now exists ps].
  - intros [[Hn [ps [Hd Hi]]]|[-> Hi]].
    + exists ps. rewrite dget_dset_other by auto. auto.
    + exists o. rewrite dget_dset_same. auto.
Qed.

(** What the first half of [_make_graphs] builds. *)
Lemma axis_graphs_spec float_of_str self dirs st g r :
  Schematic.axis_graphs float_of_str self dirs = inr (st, g, r) ->
  cnodes_wf st
  /\ rooted g (Schematic.cnode st) /\ rooted r (Schematic.cnode st)
  /\ (forall v u s, v <> 0%nat -> u <> 0%nat ->
        (edge g v u s <-> edge r u v s))
  /\ (forall elt, In elt (values (Schematic.elements self)) ->
        constrained float_of_str dirs (Schematic.cnode_map st) g r elt).
Proof.
  unfold Schematic.axis_graphs. intros Ha.
  apply bind_inr in Ha. destruct Ha as [st1 [Hu Ha]].
  apply bind_inr in Ha. destruct Ha as [st2 [Hg Ha]].
  apply bind_inr in Ha. destruct Ha as [gs [Hc Ha]].
  apply bind_inr in Ha. destruct Ha as [[orphans rorphans] [Ho Ha]].
  injection Ha as <- <- <-.
  assert (Hw1 : cnodes_wf st1).
  { eapply (for_each_inv cnodes_wf); [|exact cnodes_wf_empty|exact Hu].
    intros ? ? ?. apply unify_wf. }
  assert (Hw2 : cnodes_wf st2).
  { eapply (for_each_inv cnodes_wf); [|exact Hw1|exact Hg].
    intros ? ? ?. apply augment_wf. }
  pose proof (connect_loop_grown _ _ _ _ _ _ Hc) as [K1 [K2 [_ [_ [R T]]]]].
  pose proof (connect_loop_edges _ _ _ _ _ _ Hc) as Hedges.
  destruct (orphan_loop _ _ _ _ Ho) as [O1 O2]. cbn [fst snd] in *.
  assert (Hrange : forall c, (exists n, dget (Schematic.cnode_map st2) n = Some c) ->
                             c <> 0%nat /\ (c <= Schematic.cnode st2)%nat).
  { intros c [n Hn]. destruct (proj1 Hw2 n c Hn) as [Hr _]. lia. }
  assert (Tr : transposed (fst gs) (snd gs)).
  { apply T. intros v u s. split; intros H; now apply empty_graph_edge in H. }
  assert (Rg : forall v u s, edge (fst gs) v u s ->
                 (v <> 0 /\ v <= Schematic.cnode st2)%nat
                 /\ (u <> 0 /\ u <= Schematic.cnode st2)%nat).
  { intros v u s H. destruct (R v u s H) as [H0|[Hv Hu']];
      [now apply empty_graph_edge in H0|].
    apply Hrange in Hv. apply Hrange in Hu'. tauto. }
  assert (Hroot : forall G : Schematic.graph,
             keys G = keys (Schematic.empty_graph (Schematic.cnode st2)) ->
             forall o, keys (dset G 0%nat o) = seq 0 (S (Schematic.cnode st2))).
  { intros G HK o. rewrite keys_dset_old; [now rewrite HK, empty_graph_keys|].
    apply has_key_keys. rewrite HK, empty_graph_keys. now left. }
  assert (Horph : forall o u s,
             (In (u, s) o ->
              In (u, s) [] \/ In u (seq 1 (Schematic.cnode st2)) /\ s = 0%Q) ->
             In (u, s) o ->
             u <> 0%nat /\ (u <= Schematic.cnode st2)%nat /\ s = 0%Q).
  { intros o u s Ho' Hi. destruct (Ho' Hi) as [[]|[Hs ->]].
    apply in_seq in Hs. repeat split; lia. }
  split; [assumption|]. split; [|split; [|split]].
  - split; [now apply Hroot|].
    intros v u s He. apply edge_dset_root in He.
    destruct He as [[Hv He]|[-> Hi]].
    + apply Rg in He. split; [tauto|]. split; [tauto|contradiction].
    + destruct (Horph rorphans u s (O2 u s) Hi) as [H1 [H2 H3]]. auto.
  - split; [now apply Hroot|].
    intros v u s He. apply edge_dset_root in He.
    destruct He as [[Hv He]|[-> Hi]].
    + apply Tr, Rg in He. split; [tauto|]. split; [tauto|contradiction].
    + destruct (Horph orphans u s (O1 u s) Hi) as [H1 [H2 H3]]. auto.
  - intros v u s Hv Hu'. rewrite !edge_dset_root, (Tr v u s). tauto.
  - intros elt Hi d Hd Hdir.
    destruct (Hedges elt Hi d Hd Hdir)
      as [m1 [m2 [szv [size [H1 [H2 [Hs [Hf [Ht Hfa]]]]]]]]].
    exists m1, m2, szv, size. repeat (split; [assumption|]).
    assert (N1 : m1 <> 0%nat) by (apply Hrange; eauto).
    assert (N2 : m2 <> 0%nat) by (apply Hrange; eauto).
    split; intros E; [destruct (Ht E)|destruct (Hfa E)];
      split; apply edge_dset_root; left; auto.
Qed.
(** ** The position loops *)

Lemma place_loop length memo memor c members :
  forall ps ps',
    for_each (Schematic.place length memo memor c) members ps = inr ps' ->
    forall n,
      (In n members ->
       exists v, centre length memo memor c = Some v
                 /\ dget (snd ps') n = Some v)
      /\ (~ In n members -> dget (snd ps') n = dget (snd ps) n).
Proof.
  induction members as [|m members IH]; intros ps ps' Hf n;
    cbn [for_each] in Hf.
  - injection Hf as <-. split; [intros []|reflexivity].
  - apply bind_inr in Hf. destruct Hf as [ps1 [Hp Hf]].
    destruct (IH _ _ Hf n) as [I1 I2].
    unfold Schematic.place in Hp. destruct ps as [[pos posr] posa].
    apply bind_inr in Hp. destruct Hp as [f [Hm Hp]].
    apply bind_inr in Hp. destruct Hp as [r [Hr Hp]].
    injection Hp as <-. cbn [snd] in *.
    unfold dindex in Hm, Hr.
    destruct (dget memo c) as [f'|] eqn:Ef; [|discriminate].
    destruct (dget memor c) as [r'|] eqn:Er; [|discriminate].
    injection Hm as ->. injection Hr as ->.
    assert (Hc : centre length memo memor c
                 = Some ((1 # 2) * ((length - f) + r))%Q)
      by (unfold centre; now rewrite Ef, Er).
    destruct (in_dec string_dec n members) as [Hi|Hi].
    + split; [intros _; now apply I1|intros Hn; exfalso; apply Hn; now right].
    + split.
      * intros [<-|Hi']; [|contradiction].
        eexists. split; [exact Hc|]. rewrite (I2 Hi). apply dget_dset_same.
      * intros Hn. rewrite (I2 Hi). apply dget_dset_other.
        intros ->. apply Hn. now left.
Qed.

Lemma place_cnode_loop length memo memor cn ks :
  forall ps ps',
    for_each (Schematic.place_cnode length memo memor cn) ks ps = inr ps' ->
    (forall n v, dget (snd ps') n = Some v ->
       dget (snd ps) n = Some v
       \/ exists c l, In c ks /\ c <> 0%nat /\ dget cn c = Some l /\ In n l
                      /\ centre length memo memor c = Some v)
    /\ (forall n, has_key (snd ps) n = true -> has_key (snd ps') n = true)
    /\ (forall c l n, In c ks -> c <> 0%nat -> dget cn c = Some l -> In n l ->
          has_key (snd ps') n = true).
Proof.
  induction ks as [|k ks IH]; intros ps ps' Hf; cbn [for_each] in Hf.
  - injection Hf as <-. split; [auto|]. split; [auto|]. intros ? ? ? [].
  - apply bind_inr in Hf. destruct Hf as [ps1 [Hp Hf]].
    destruct (IH _ _ Hf) as [I1 [I2 I3]].
    unfold Schematic.place_cnode in Hp.
    destruct (Nat.eqb_spec k 0) as [Hk|Hk].
    + injection Hp as <-. split; [|split].
      * intros n v Hd. destruct (I1 n v Hd) as [H|[c [l [Hc H]]]]; [now left|].
        right. exists c, l. split; [now right|assumption].
      * assumption.
      * intros c l n [<-|Hc] Hn; [contradiction|]. now apply I3.
    + apply bind_inr in Hp. destruct Hp as [members [Hm Hp]].
      unfold dindex in Hm.
      destruct (dget cn k) as [members'|] eqn:Ek; [|discriminate].
      injection Hm as ->.
      pose proof (place_loop _ _ _ _ _ _ _ Hp) as Hpl.
      split; [|split].
      * intros n v Hd. destruct (I1 n v Hd) as [H|[c [l [Hc H]]]].
        -- destruct (Hpl n) as [P1 P2].
           destruct (in_dec string_dec n members) as [Hi|Hi].
           ++ right. destruct (P1 Hi) as [v' [Hv' Hd']].
              exists k, members. split; [now left|]. split; [assumption|].
              split; [assumption|]. split; [assumption|]. congruence.
           ++ left. now rewrite <- (P2 Hi).
        -- right. exists c, l. split; [now right|assumption].
      * intros n Hn. apply I2. destruct (Hpl n) as [P1 P2].
        destruct (in_dec string_dec n members) as [Hi|Hi].
        -- destruct (P1 Hi) as [v' [_ Hd']]. unfold has_key. now rewrite Hd'.
        -- unfold has_key. now rewrite (P2 Hi).
      * intros c l n [<-|Hc] Hn Hd Hi; [|now apply (I3 c l)].
        rewrite Ek in Hd. injection Hd as <-. apply I2.
        destruct (proj1 (Hpl n) Hi) as [v' [_ Hd']].
        unfold has_key. now rewrite Hd'.
Qed.

(** What [_make_graphs] returns: every terminal of a collective node gets
    the coordinate computed for the node, [length] being the length the
    second call of [longest_path] returned. *)
Lemma make_graphs_spec float_of_str limit self dirs posa :
  Schematic._make_graphs float_of_str limit self dirs = inr posa ->
  exists st g r L node memo Lr noder memor,
    Schematic.axis_graphs float_of_str self dirs = inr (st, g, r)
    /\ longest_path g limit (keys g) = inr (L, node, memo)
    /\ longest_path r limit (keys g) = inr (Lr, noder, memor)
    /\ (forall n c, dget (Schematic.cnode_map st) n = Some c ->
          exists v, centre Lr memo memor c = Some v /\ dget posa n = Some v)
    /\ (forall n v, dget posa n = Some v ->
          exists c, dget (Schematic.cnode_map st) n = Some c).
Proof.
  unfold Schematic._make_graphs. intros Hm.
  apply bind_inr in Hm. destruct Hm as [[[st g] r] [Ha Hm]].
  apply bind_inr in Hm. destruct Hm as [[[L node] memo] [Hf Hm]].
  apply bind_inr in Hm. destruct Hm as [[[Lr noder] memor] [Hr Hm]].
  apply bind_inr in Hm. destruct Hm as [[[pos posr] posa'] [Hp Hm]].
  injection Hm as <-.
  exists st, g, r, L, node, memo, Lr, noder, memor.
  split; [assumption|]. split; [assumption|]. split; [assumption|].
  destruct (axis_graphs_spec _ _ _ _ _ _ Ha) as [[W1 W2] [[Kg _] _]].
  destruct (place_cnode_loop _ _ _ _ _ _ _ Hp) as [P1 [_ P3]].
  cbn [snd] in *.
  assert (Hval : forall n v, dget posa' n = Some v ->
             exists c, dget (Schematic.cnode_map st) n = Some c
                       /\ centre Lr memo memor c = Some v).
  { intros n v Hd. destruct (P1 n v Hd) as [H|[c [l [_ [_ [Hl [Hi Hc]]]]]]];
      [discriminate|].
    exists c. split; [|assumption]. now apply (proj2 (W2 c l Hl)). }
  split.
  - intros n c Hc. destruct (W1 n c Hc) as [Hrange [l [Hl Hi]]].
    assert (Hk : has_key posa' n = true).
    { apply (P3 c l n); [|lia|assumption|assumption].
      rewrite Kg. apply in_seq. lia. }
    apply has_key_true in Hk. destruct Hk as [v Hv].
    exists v. split; [|assumption].
    destruct (Hval n v Hv) as [c' [Hc' Hcv]]. congruence.
  - intros n v Hd. destruct (Hval n v Hd) as [c [Hc _]]. eauto.
Qed.
(** ** The span of an element *)




Lemma scale_coords_loop scale xpos ypos ks :
  forall coords coords',
    for_each (Schematic.scale_coords scale xpos ypos) ks coords = inr coords' ->
    forall n p, dget coords' n = Some p ->
      dget coords n = Some p
      \/ exists x y, dget xpos n = Some x /\ dget ypos n = Some y
                     /\ p = (x * scale, y * scale)%Q.
Proof.
  induction ks as [|k ks IH]; intros coords coords' Hf n p Hd;
    cbn [for_each] in Hf.
  - injection Hf as <-. now left.
  - apply bind_inr in Hf. destruct Hf as [c1 [Hs Hf]].
    destruct (IH _ _ Hf n p Hd) as [H|H]; [|now right].
    unfold Schematic.scale_coords, dindex in Hs.
    destruct (dget xpos k) as [x|] eqn:Ex; [|discriminate].
    destruct (dget ypos k) as [y|] eqn:Ey; [|discriminate].
    injection Hs as <-. rewrite dget_dset in H.
    destruct (keqb_spec k n) as [<-|Hn]; [|now left].
    injection H as <-. right. now exists x, y.
Qed.

Lemma attach_ok coords :
  forall (elts elts' : dict string NetElement.t),
    Schematic.attach coords elts = (elts', None) ->
    forall elt, In elt (values elts) ->
      exists p1 p2,
        dget coords (fst (NetElement.nodes elt)) = Some p1
        /\ dget coords (snd (NetElement.nodes elt)) = Some p2.
Proof.
  induction elts as [|[k e] elts IH]; intros elts' Ha elt Hi; [contradiction|].
  cbn [Schematic.attach] in Ha.
  destruct (NetElement.nodes e) as [n1 n2] eqn:En.
  destruct (dget coords n1) as [p1|] eqn:E1; [|discriminate].
  destruct (dget coords n2) as [p2|] eqn:E2; [|discriminate].
  destruct (Schematic.attach coords elts) as [rest [e'|]] eqn:Er;
    [discriminate|].
  destruct Hi as [<-|Hi]; [|now apply (IH rest)].
  cbn [snd]. rewrite En. cbn [fst snd]. now exists p1, p2.
Qed.

(** What a layout pass without error stores. *)
Lemma positions_ok float_of_str limit self self' :
  Schematic._positions_calculate float_of_str limit self = (self', None) ->
  exists xpos ypos coords,
    Schematic._make_graphs float_of_str limit self x_axis = inr xpos
    /\ Schematic._make_graphs float_of_str limit self y_axis = inr ypos
    /\ Schematic.coords self' = Some coords
    /\ (forall n p, dget coords n = Some p ->
          exists x y, dget xpos n = Some x /\ dget ypos n = Some y
                      /\ p = (x * Schematic.scale self,
                              y * Schematic.scale self)%Q)
    /\ (forall elt, In elt (values (Schematic.elements self)) ->
          exists p1 p2,
            dget coords (fst (NetElement.nodes elt)) = Some p1
            /\ dget coords (snd (NetElement.nodes elt)) = Some p2).
Proof.
  unfold Schematic._positions_calculate.
  change ("right", "left") with x_axis. change ("up", "down") with y_axis.
  destruct (Schematic._make_graphs float_of_str limit self x_axis)
    as [e|xpos]; [discriminate|].
  destruct (Schematic._make_graphs float_of_str limit self y_axis)
    as [e|ypos]; [discriminate|]. cbn [bind].
  destruct (for_each (Schematic.scale_coords (Schematic.scale self) xpos ypos)
                     (keys xpos) []) as [e|coords] eqn:Ec; [discriminate|].
  destruct (Schematic.attach coords (Schematic.elements self))
    as [elts [e|]] eqn:Ea; [discriminate|].
  intros [= <-]. exists xpos, ypos, coords.
  split; [reflexivity|]. split; [reflexivity|]. split; [reflexivity|]. split.
  - intros n p Hd.
    destruct (scale_coords_loop _ _ _ _ _ _ Ec n p Hd) as [H|H];
      [discriminate|assumption].
  - exact (attach_ok _ _ _ Ea).
Qed.




(** ** Paths and critical lengths *)

Section PathFacts.
Variable g : dict nat (list (nat * Q)).





End PathFacts.

Section Transpose.
Variables (a b : Schematic.graph) (n : nat).
Hypothesis rooted_a : rooted a n.
Hypothesis rooted_b : rooted b n.
Hypothesis transpose :
  forall v u s, v <> 0%nat -> u <> 0%nat -> (edge a v u s <-> edge b u v s).




End Transpose.



(* ================================================================== *)
(** * Part IV: further properties of the code                          *)
(* ================================================================== *)

(** ** The partition of the terminals *)

Lemma cmap_extends_refl st : cmap_extends st st.
Proof. intros n c H. exact H. Qed.

Lemma cmap_extends_trans st1 st2 st3 :
  cmap_extends st1 st2 -> cmap_extends st2 st3 -> cmap_extends st1 st3.
Proof. intros H1 H2 n c H. auto. Qed.

Lemma dset_keeps {K V} `{EqKey K} (d : dict K V) k v :
  dget d k = None \/ dget d k = Some v ->
  forall n c, dget d n = Some c -> dget (dset d k v) n = Some c.
Proof.
  intros Hk n c Hn. rewrite dget_dset.
  destruct (keqb_spec k n) as [Heq|Hne]; [|assumption].
  subst n. destruct Hk; congruence.
Qed.

Lemma dset_within {K V} `{EqKey K} (d : dict K V) k v n :
  has_key (dset d k v) n = true -> has_key d n = true \/ n = k.
Proof.
  rewrite has_key_dset.
  destruct (keqb_spec k n) as [Heq|Hne]; [now right|now left].
Qed.

Lemma unify_step dirs st elt st' :
  Schematic.unify dirs st elt = inr st' ->
  cmap_extends st st'
  /\ cmap_within [elt] st st'
  /\ exists d, dget (NetElement.opts elt) "dir" = Some d
               /\ (Schematic.dir_in d dirs = false -> joined st' elt).
Proof.
  unfold Schematic.unify, cmap_extends, cmap_within, joined, node_refs.
  intros Hu.
  apply bind_inr in Hu. destruct Hu as [d [Hd Hu]].
  unfold dindex in Hd.
  destruct (dget (NetElement.opts elt) "dir") as [d'|]; [|discriminate].
  injection Hd as ->.
  destruct (Schematic.dir_in d dirs) eqn:Edir.
  { injection Hu as <-. split; [auto|]. split; [auto|].
    exists d. split; [reflexivity|intros Hx; congruence]. }
  cbn [flat_map app]. destruct (NetElement.nodes elt) as [n1 n2].
  cbn [fst snd].
  destruct (Schematic.conflict (Schematic.cnode_map st) n1 n2) eqn:Ec;
    [discriminate|].
  unfold Schematic.conflict in Ec.
  destruct (has_key (Schematic.cnode_map st) n1) eqn:E1;
    destruct (has_key (Schematic.cnode_map st) n2) eqn:E2;
    cbn [negb andb] in Hu.
  - apply has_key_true in E1. destruct E1 as [a E1].
    apply has_key_true in E2. destruct E2 as [b E2].
    rewrite E1, E2 in Ec. apply negb_false_iff, Nat.eqb_eq in Ec. subst b.
    unfold dindex in Hu. rewrite E1 in Hu. cbn [bind ret] in Hu.
    apply bind_inr in Hu. destruct Hu as [cn [_ Hu]]. injection Hu as <-.
    cbn [Schematic.cnode_map]. split; [|split].
    + apply dset_keeps. now right.
    + intros n Hn. apply dset_within in Hn.
      destruct Hn as [Hn| ->]; [now left|right; right; now left].
    + exists d. split; [reflexivity|]. intros _. exists a.
      split; [apply dset_keeps; auto|apply dget_dset_same].
  - apply has_key_true in E1. destruct E1 as [a E1].
    apply has_key_false in E2.
    unfold dindex in Hu. rewrite E1 in Hu. cbn [bind ret] in Hu.
    apply bind_inr in Hu. destruct Hu as [cn [_ Hu]]. injection Hu as <-.
    cbn [Schematic.cnode_map]. split; [|split].
    + apply dset_keeps. now left.
    + intros n Hn. apply dset_within in Hn.
      destruct Hn as [Hn| ->]; [now left|right; right; now left].
    + exists d. split; [reflexivity|]. intros _. exists a.
      split; [apply dset_keeps; auto|apply dget_dset_same].
  - apply has_key_true in E2. destruct E2 as [b E2].
    apply has_key_false in E1.
    unfold dindex in Hu. rewrite E2 in Hu. cbn [bind ret] in Hu.
    apply bind_inr in Hu. destruct Hu as [cn [_ Hu]]. injection Hu as <-.
    cbn [Schematic.cnode_map]. split; [|split].
    + apply dset_keeps. now left.
    + intros n Hn. apply dset_within in Hn.
      destruct Hn as [Hn| ->]; [now left|right; now left].
    + exists d. split; [reflexivity|]. intros _. exists b.
      split; [apply dget_dset_same|apply dset_keeps; auto].
  - apply has_key_false in E1. apply has_key_false in E2.
    injection Hu as <-. cbn [Schematic.cnode_map].
    set (c := S (Schematic.cnode st)).
    assert (E2' : dget (dset (Schematic.cnode_map st) n1 c) n2 = None
                  \/ dget (dset (Schematic.cnode_map st) n1 c) n2 = Some c).
    { rewrite dget_dset. destruct (keqb n1 n2); auto. }
    split; [|split].
    + intros n c' Hn. apply dset_keeps; [assumption|].
      apply dset_keeps; auto.
    + intros n Hn. apply dset_within in Hn.
      destruct Hn as [Hn| ->]; [|right; right; now left].
      apply dset_within in Hn.
      destruct Hn as [Hn| ->]; [now left|right; now left].
    + exists d. split; [reflexivity|]. intros _. exists c.
      split; [|apply dget_dset_same].
      apply dset_keeps; [assumption|apply dget_dset_same].
Qed.

Lemma fresh_cnode_step st n :
  cmap_extends st (Schematic.fresh_cnode st n)
  /\ (forall n', has_key (Schematic.cnode_map (Schematic.fresh_cnode st n)) n'
                 = true ->
                 has_key (Schematic.cnode_map st) n' = true \/ n' = n)
  /\ has_key (Schematic.cnode_map (Schematic.fresh_cnode st n)) n = true.
Proof.
  unfold Schematic.fresh_cnode, cmap_extends.
  destruct (has_key (Schematic.cnode_map st) n) eqn:E.
  - repeat split; auto.
  - cbn [Schematic.cnode_map]. apply has_key_false in E. split; [|split].
    + apply dset_keeps. now left.
    + intros n' Hn. now apply dset_within in Hn.
    + rewrite has_key_dset, keqb_refl. reflexivity.
Qed.

Lemma augment_step dirs st elt st' :
  Schematic.augment dirs st elt = inr st' ->
  cmap_extends st st'
  /\ cmap_within [elt] st st'
  /\ exists d, dget (NetElement.opts elt) "dir" = Some d
               /\ (Schematic.dir_in d dirs = true -> mapped st' elt).
Proof.
  unfold Schematic.augment, cmap_within, mapped, node_refs. intros Hu.
  apply bind_inr in Hu. destruct Hu as [d [Hd Hu]].
  unfold dindex in Hd.
  destruct (dget (NetElement.opts elt) "dir") as [d'|]; [|discriminate].
  injection Hd as ->.
  destruct (Schematic.dir_in d dirs) eqn:Edir; cbn [negb] in Hu.
  - cbn [flat_map app]. destruct (NetElement.nodes elt) as [n1 n2].
    injection Hu as <-. cbn [fst snd].
    destruct (fresh_cnode_step st n1) as [X1 [K1 M1]].
    destruct (fresh_cnode_step (Schematic.fresh_cnode st n1) n2)
      as [X2 [K2 M2]].
    split; [eapply cmap_extends_trans; eassumption|]. split.
    + intros n Hn. destruct (K2 n Hn) as [H| ->]; [|right; right; now left].
      destruct (K1 n H) as [H'| ->]; [now left|right; now left].
    + exists d. split; [reflexivity|]. intros _. split.
      * apply has_key_true in M1. destruct M1 as [c Hc]. exists c.
        now apply X2.
      * apply has_key_true in M2. exact M2.
  - injection Hu as <-. split; [apply cmap_extends_refl|].
    split; [intros n Hn; now left|].
    exists d. split; [reflexivity|intros Hx; congruence].
Qed.
Lemma joined_extends st st' elt :
  cmap_extends st st' -> joined st elt -> joined st' elt.
Proof. intros Hx [c [H1 H2]]. exists c. split; now apply Hx. Qed.

Lemma mapped_extends st st' elt :
  cmap_extends st st' -> mapped st elt -> mapped st' elt.
Proof.
  intros Hx [[c1 H1] [c2 H2]]. split; [exists c1|exists c2]; now apply Hx.
Qed.

Lemma joined_mapped st elt : joined st elt -> mapped st elt.
Proof. intros [c [H1 H2]]. split; now exists c. Qed.

Lemma node_refs_cons e elts n :
  In n (node_refs (e :: elts)) <-> In n (node_refs [e]) \/ In n (node_refs elts).
Proof.
  unfold node_refs. cbn [flat_map]. rewrite app_nil_r.
  rewrite in_app_iff. reflexivity.
Qed.

Lemma unify_loop dirs elts :
  forall st st',
    for_each (Schematic.unify dirs) elts st = inr st' ->
    cmap_extends st st' /\ cmap_within elts st st'
    /\ forall elt, In elt elts ->
         exists d, dget (NetElement.opts elt) "dir" = Some d
                   /\ (Schematic.dir_in d dirs = false -> joined st' elt).
Proof.
  induction elts as [|e elts IH]; intros st st' Hf; cbn [for_each] in Hf.
  - injection Hf as <-. split; [apply cmap_extends_refl|].
    split; [intros n Hn; now left|intros ? []].
  - apply bind_inr in Hf. destruct Hf as [st1 [Hu Hf]].
    destruct (unify_step _ _ _ _ Hu) as [X1 [W1 [d [Hd J1]]]].
    destruct (IH _ _ Hf) as [X2 [W2 J2]].
    split; [eapply cmap_extends_trans; eassumption|]. split.
    + intros n Hn. rewrite node_refs_cons.
      destruct (W2 n Hn) as [H|H]; [|auto].
      destruct (W1 n H) as [H'|H']; auto.
    + intros elt [<-|Hi]; [|now apply J2].
      exists d. split; [assumption|]. intros Hdir.
      eapply joined_extends; [exact X2|auto].
Qed.

Lemma augment_loop dirs elts :
  forall st st',
    for_each (Schematic.augment dirs) elts st = inr st' ->
    cmap_extends st st' /\ cmap_within elts st st'
    /\ forall elt, In elt elts ->
         exists d, dget (NetElement.opts elt) "dir" = Some d
                   /\ (Schematic.dir_in d dirs = true -> mapped st' elt).
Proof.
  induction elts as [|e elts IH]; intros st st' Hf; cbn [for_each] in Hf.
  - injection Hf as <-. split; [apply cmap_extends_refl|].
    split; [intros n Hn; now left|intros ? []].
  - apply bind_inr in Hf. destruct Hf as [st1 [Hu Hf]].
    destruct (augment_step _ _ _ _ Hu) as [X1 [W1 [d [Hd J1]]]].
    destruct (IH _ _ Hf) as [X2 [W2 J2]].
    split; [eapply cmap_extends_trans; eassumption|]. split.
    + intros n Hn. rewrite node_refs_cons.
      destruct (W2 n Hn) as [H|H]; [|auto].
      destruct (W1 n H) as [H'|H']; auto.
    + intros elt [<-|Hi]; [|now apply J2].
      exists d. split; [assumption|]. intros Hdir.
      eapply mapped_extends; [exact X2|auto].
Qed.

(** The collective nodes of an axis pass partition the terminals of the
    elements: every terminal of every element has a collective node, no
    other string has one, and the terminals of an element orthogonal to
    the axis share theirs. *)
Lemma axis_partition float_of_str self dirs st g r :
  Schematic.axis_graphs float_of_str self dirs = inr (st, g, r) ->
  (forall elt, In elt (values (Schematic.elements self)) ->
     mapped st elt
     /\ exists d, dget (NetElement.opts elt) "dir" = Some d
                  /\ (Schematic.dir_in d dirs = false -> joined st elt))
  /\ (forall n, has_key (Schematic.cnode_map st) n = true ->
        In n (node_refs (values (Schematic.elements self)))).
Proof.
  unfold Schematic.axis_graphs. intros Ha.
  apply bind_inr in Ha. destruct Ha as [st1 [Hu Ha]].
  apply bind_inr in Ha. destruct Ha as [st2 [Hg Ha]].
  apply bind_inr in Ha. destruct Ha as [gs [Hc Ha]].
  apply bind_inr in Ha. destruct Ha as [[orphans rorphans] [Ho Ha]].
  injection Ha as <- <- <-.
  destruct (unify_loop _ _ _ _ Hu) as [X1 [W1 J1]].
  destruct (augment_loop _ _ _ _ Hg) as [X2 [W2 J2]].
  split.
  - intros elt Hi. destruct (J1 elt Hi) as [d [Hd Hj]].
    destruct (J2 elt Hi) as [d' [Hd' Hm]].
    rewrite Hd in Hd'. injection Hd' as <-.
    assert (Hj' : Schematic.dir_in d dirs = false -> joined st2 elt).
    { intros E. eapply joined_extends; [exact X2|auto]. }
    split; [|exists d; auto].
    destruct (Schematic.dir_in d dirs) eqn:E; [auto|].
    apply joined_mapped. auto.
  - intros n Hn. destruct (W2 n Hn) as [H|H]; [|assumption].
    destruct (W1 n H) as [H'|H']; [discriminate|assumption].
Qed.

Lemma make_graphs_joined float_of_str limit self dirs posa elt d :
  Schematic._make_graphs float_of_str limit self dirs = inr posa ->
  In elt (values (Schematic.elements self)) ->
  dget (NetElement.opts elt) "dir" = Some d ->
  Schematic.dir_in d dirs = false ->
  exists v, dget posa (fst (NetElement.nodes elt)) = Some v
            /\ dget posa (snd (NetElement.nodes elt)) = Some v.
Proof.
  intros Hm Hi Hd Hdir.
  destruct (make_graphs_spec _ _ _ _ _ Hm)
    as [st [g [r [L [node [memo [Lr [noder [memor [Hax [_ [_ [Hpos _]]]]]]]]]]]]].
  destruct (axis_partition _ _ _ _ _ _ Hax) as [Hp _].
  destruct (Hp elt Hi) as [_ [d' [Hd' Hj]]].
  rewrite Hd in Hd'. injection Hd' as <-.
  destruct (Hj Hdir) as [c [H1 H2]].
  destruct (Hpos _ _ H1) as [v1 [C1 P1]].
  destruct (Hpos _ _ H2) as [v2 [C2 P2]].
  exists v1. split; [assumption|]. congruence.
Qed.

(** X1. After a layout pass without error, the two terminals of an
    element that is not declared right or left have the same
    x-coordinate, and the two terminals of an element that is not
    declared up or down have the same y-coordinate. *)
Theorem orthogonal_terminals_aligned (float_of_str : string -> option Q)
    (limit : nat) (self self' : Schematic.t) (elt : NetElement.t)
    (d : value) :
  Schematic._positions_calculate float_of_str limit self = (self', None) ->
  In elt (values (Schematic.elements self)) ->
  dget (NetElement.opts elt) "dir" = Some d ->
  exists coords x1 y1 x2 y2,
    Schematic.coords self' = Some coords
    /\ dget coords (fst (NetElement.nodes elt)) = Some (x1, y1)
    /\ dget coords (snd (NetElement.nodes elt)) = Some (x2, y2)
    /\ (Schematic.dir_in d x_axis = false -> x1 = x2)
    /\ (Schematic.dir_in d y_axis = false -> y1 = y2).
Proof.
  intros Hp Hi Hd.
  destruct (positions_ok _ _ _ _ Hp)
    as [xpos [ypos [coords [Hx [Hy [Hc [Hcoord Helts]]]]]]].
  destruct (Helts elt Hi) as [p1 [p2 [H1 H2]]].
  destruct (Hcoord _ _ H1) as [x1 [y1 [X1 [Y1 ->]]]].
  destruct (Hcoord _ _ H2) as [x2 [y2 [X2 [Y2 ->]]]].
  exists coords, (x1 * Schematic.scale self)%Q, (y1 * Schematic.scale self)%Q,
         (x2 * Schematic.scale self)%Q, (y2 * Schematic.scale self)%Q.
  split; [assumption|]. split; [assumption|]. split; [assumption|]. split.
  - intros E.
    destruct (make_graphs_joined _ _ _ _ _ _ _ Hx Hi Hd E) as [v [V1 V2]].
    congruence.
  - intros E.
    destruct (make_graphs_joined _ _ _ _ _ _ _ Hy Hi Hd E) as [v [V1 V2]].
    congruence.
Qed.

Lemma orthogonal_terminals_aligned_witness :
  let self := snd (build ["R1 a b; right"; "C1 b c; down"]) in
  let elt := NetElement.mk "C1" "C" "$C_{1}$" None ("b", "c")
               [("dir", VStr "down"); ("size", VInt 1)] None None in
  exists self' coords x1 y1 x2 y2,
    Schematic._positions_calculate float_of_decimal 1000 self = (self', None)
    /\ In elt (values (Schematic.elements self))
    /\ dget (NetElement.opts elt) "dir" = Some (VStr "down")
    /\ Schematic.coords self' = Some coords
    /\ dget coords "b" = Some (x1, y1)
    /\ dget coords "c" = Some (x2, y2)
    /\ x1 = x2.
Proof.
  intros self elt. eexists.
  assert (Hp : Schematic._positions_calculate float_of_decimal 1000 self
               = (_, None)) by (vm_compute; reflexivity).
  assert (Hi : In elt (values (Schematic.elements self)))
    by (right; left; reflexivity).
  assert (Hd : dget (NetElement.opts elt) "dir" = Some (VStr "down"))
    by reflexivity.
  destruct (orthogonal_terminals_aligned float_of_decimal 1000 self _ elt _
              Hp Hi Hd) as [coords [x1 [y1 [x2 [y2 [Hc [H1 [H2 [Ex _]]]]]]]]].
  exists coords, x1, y1, x2, y2.
  split; [exact Hp|]. split; [exact Hi|].
  split; [exact Hd|]. split; [exact Hc|]. split; [exact H1|].
  split; [exact H2|]. exact (Ex eq_refl).
Defined.
(** ** The extent of the layout *)



(** What one pass of the first loop does to the collective nodes. *)
Lemma unify_cases dirs st elt st' :
  Schematic.unify dirs st elt = inr st' ->
  st' = st
  \/ (exists n c l, dget (Schematic.cnodes st) c = Some l
                    /\ st' = join_cnode st n c l)
  \/ st' = join_cnode (open_cnode st (fst (NetElement.nodes elt)))
                      (snd (NetElement.nodes elt))
                      (S (Schematic.cnode st))
                      [fst (NetElement.nodes elt)].
Proof.
  unfold Schematic.unify. intros Hu.
  apply bind_inr in Hu. destruct Hu as [d [_ Hu]].
  destruct (Schematic.dir_in d dirs); [left; now injection Hu as <-|].
  destruct (NetElement.nodes elt) as [n1 n2]. cbn [fst snd].
  destruct (Schematic.conflict (Schematic.cnode_map st) n1 n2);
    [discriminate|].
  destruct (negb (has_key (Schematic.cnode_map st) n1)
            && negb (has_key (Schematic.cnode_map st) n2)).
  - injection Hu as <-. right. right.
    unfold join_cnode, open_cnode.
    cbn [Schematic.cnodes Schematic.cnode_map Schematic.cnode].
    now rewrite dset_dset_same.
  - right. left.
    destruct (negb (has_key (Schematic.cnode_map st) n1)).
    + apply bind_inr in Hu. destruct Hu as [node [_ Hu]].
      apply bind_inr in Hu. destruct Hu as [cn [Hcn Hu]].
      injection Hu as <-.
      unfold Schematic.cnodes_append, dindex in Hcn.
      destruct (dget (Schematic.cnodes st) node) as [l|] eqn:El;
        [|discriminate].
      injection Hcn as <-. now exists n1, node, l.
    + apply bind_inr in Hu. destruct Hu as [node [_ Hu]].
      apply bind_inr in Hu. destruct Hu as [cn [Hcn Hu]].
      injection Hu as <-.
      unfold Schematic.cnodes_append, dindex in Hcn.
      destruct (dget (Schematic.cnodes st) node) as [l|] eqn:El;
        [|discriminate].
      injection Hcn as <-. now exists n2, node, l.
Qed.

Lemma join_cnode_full st n c l :
  cnodes_full st -> cnodes_full (join_cnode st n c l).
Proof.
  intros Hf c' Hc'. unfold join_cnode in *.
  cbn [Schematic.cnodes Schematic.cnode] in *.
  rewrite dget_dset. destruct (keqb_spec c c') as [Heq|Hne].
  - exists (l ++ [n]), n. split; [reflexivity|].
    apply in_or_app. right. now left.
  - now apply Hf.
Qed.

Lemma open_cnode_full st n : cnodes_full st -> cnodes_full (open_cnode st n).
Proof.
  intros Hf c' Hc'. unfold open_cnode in *.
  cbn [Schematic.cnodes Schematic.cnode] in *.
  rewrite dget_dset.
  destruct (keqb_spec (S (Schematic.cnode st)) c') as [Heq|Hne].
  - exists [n], n. split; [reflexivity|now left].
  - apply Hf. lia.
Qed.

Lemma unify_full dirs st elt st' :
  cnodes_full st -> Schematic.unify dirs st elt = inr st' -> cnodes_full st'.
Proof.
  intros Hf Hu.
  destruct (unify_cases _ _ _ _ Hu) as [-> |[[n [c [l [_ ->]]]]| ->]];
    [assumption|now apply join_cnode_full|].
  now apply join_cnode_full, open_cnode_full.
Qed.

Lemma augment_full dirs st elt st' :
  cnodes_full st -> Schematic.augment dirs st elt = inr st' -> cnodes_full st'.
Proof.
  intros Hf. unfold Schematic.augment. intros Hu.
  apply bind_inr in Hu. destruct Hu as [d [_ Hu]].
  destruct (negb (Schematic.dir_in d dirs)); [now injection Hu as <-|].
  destruct (NetElement.nodes elt) as [n1 n2]. injection Hu as <-.
  unfold Schematic.fresh_cnode.
  destruct (has_key (Schematic.cnode_map st) n1).
  - destruct (has_key (Schematic.cnode_map st) n2); [assumption|].
    now apply (open_cnode_full st n2).
  - fold (open_cnode st n1).
    destruct (has_key (Schematic.cnode_map (open_cnode st n1)) n2);
      [now apply open_cnode_full|].
    now apply (open_cnode_full (open_cnode st n1) n2), open_cnode_full.
Qed.

Lemma axis_graphs_full float_of_str self dirs st g r :
  Schematic.axis_graphs float_of_str self dirs = inr (st, g, r) ->
  cnodes_full st.
Proof.
  unfold Schematic.axis_graphs. intros Ha.
  apply bind_inr in Ha. destruct Ha as [st1 [Hu Ha]].
  apply bind_inr in Ha. destruct Ha as [st2 [Hg Ha]].
  apply bind_inr in Ha. destruct Ha as [gs [Hc Ha]].
  apply bind_inr in Ha. destruct Ha as [[orphans rorphans] [Ho Ha]].
  injection Ha as <- _ _.
  eapply (for_each_inv cnodes_full); [| |exact Hg].
  - intros ? ? ?. apply augment_full.
  - eapply (for_each_inv cnodes_full); [| |exact Hu].
    + intros ? ? ?. apply unify_full.
    + intros c Hc'. cbn in Hc'. lia.
Qed.


Section Extremes.
Variables (a b : Schematic.graph) (n : nat).
Hypothesis rooted_a : rooted a n.
Hypothesis rooted_b : rooted b n.
Hypothesis transpose :
  forall v u s, v <> 0%nat -> u <> 0%nat -> (edge a v u s <-> edge b u v s).


End Extremes.

(** ** The memo of [get_longest] *)

Section MemoFacts.
Variable g : dict nat (list (nat * Q)).

Lemma best_over_complete h ps :
  (forall memo v val,
      memo_sound g memo -> lp g h v = Some val ->
      exists memo', get_longest g h memo v = inr (val, memo')) ->
  forall b memo val,
    memo_sound g memo -> lp_over (lp g h) ps b = Some val ->
    exists memo', best_over (get_longest g h) ps b memo = inr (val, memo').
Proof.
  intros Hrec. induction ps as [|[u s] ps IH]; cbn [lp_over best_over];
    intros b memo val Hm Hl.
  - injection Hl as <-. now exists memo.
  - destruct (lp g h u) as [w|] eqn:Eu; [|discriminate].
    destruct (Hrec memo u w Hm Eu) as [memo1 Hg]. rewrite Hg. cbn [bind].
    apply IH; [|assumption].
    now destruct (get_longest_sound g h memo u w memo1 Hm Hg).
Qed.

Lemma get_longest_complete h :
  forall memo v val,
    memo_sound g memo -> lp g h v = Some val ->
    exists memo', get_longest g h memo v = inr (val, memo').
Proof.
  induction h as [|h IH]; intros memo v val Hm Hl; [discriminate|].
  cbn [get_longest]. destruct (dget memo v) as [w|] eqn:Ev.
  - exists memo.
    assert (Hw : w = val)
      by (apply (has_longest_unique g v); [now apply Hm|now exists (S h)]).
    now rewrite Hw.
  - cbn [lp] in Hl. unfold dindex.
    destruct (dget g v) as [ps|]; [|discriminate]. cbn [bind ret].
    destruct (best_over_complete h ps IH _ memo val Hm Hl) as [memo1 Hb].
    rewrite Hb. cbn [bind]. eauto.
Qed.

End MemoFacts.

(** X4. The dictionary of [get_longest] changes no value: with a
    dictionary of longest-path values, a call that returns gives the
    value of the recursion without dictionary and stores it, and a call
    that raises does so only where that recursion does not fit the
    recursion limit either. *)
Theorem memo_transparent (g : dict nat (list (nat * Q))) (depth : nat)
    (memo : dict nat Q) (v : nat) :
  memo_sound g memo ->
  match get_longest g depth memo v with
  | inr (val, memo') =>
      has_longest g v val /\ memo_sound g memo' /\ dget memo' v = Some val
  | inl _ => lp g depth v = None
  end.
Proof.
  intros Hm. destruct (get_longest g depth memo v) as [e|[val memo']] eqn:Hg.
  - destruct (lp g depth v) as [val|] eqn:El; [|reflexivity].
    destruct (get_longest_complete g depth memo v val Hm El) as [memo' Hc].
    congruence.
  - destruct (get_longest_sound g depth memo v val memo' Hm Hg) as [Hm' [Hv _]].
    split; [assumption|]. split; [assumption|].
    exact (get_longest_stored g depth memo v val memo' Hg).
Qed.

Lemma memo_transparent_witness :
  let g := [(0, [(1, 0%Q)]); (1, [(2, 1%Q); (3, 2%Q)]); (2, [(3, 3%Q)]);
            (3, [])]%nat in
  memo_sound g [(3%nat, 0%Q)]
  /\ lp g 4 0 = Some 4%Q
  /\ exists memo',
      get_longest g 4 [(3%nat, 0%Q)] 0 = inr (4%Q, memo')
      /\ has_longest g 0 4%Q /\ memo_sound g memo'.
Proof.
  intros g.
  assert (Hm : memo_sound g [(3%nat, 0%Q)]).
  { intros k w Hd. cbn in Hd. destruct k as [|[|[|[|k]]]]; try discriminate.
    injection Hd as <-. exists 1%nat. reflexivity. }
  split; [exact Hm|]. split; [reflexivity|].
  pose proof (memo_transparent g 4 [(3%nat, 0%Q)] 0 Hm) as H.
  destruct (get_longest g 4 [(3%nat, 0%Q)] 0) as [e|[val memo']] eqn:Hg;
    [discriminate H|].
  assert (Hval : val = 4%Q) by (vm_compute in Hg; congruence).
  subst val. exists memo'. split; [reflexivity|]. tauto.
Defined.
(** ** The pattern of the component names *)

Lemma find_longest (f : string -> bool) l t :
  longer_first l = true -> find f l = Some t ->
  In t l /\ f t = true
  /\ forall t', In t' l -> f t' = true ->
                (String.length t' <= String.length t)%nat.
Proof.
  induction l as [|x l IH]; cbn [longer_first find]; intros Hs Hf;
    [discriminate|].
  apply andb_true_iff in Hs. destruct Hs as [Hx Hl].
  destruct (f x) eqn:Ex.
  - injection Hf as <-. split; [now left|]. split; [assumption|].
    intros t' [<-|Hi] _; [lia|].
    rewrite forallb_forall in Hx. apply Nat.leb_le. now apply Hx.
  - destruct (IH Hl Hf) as [Hi [Ht Hall]].
    split; [now right|]. split; [assumption|].
    intros t' [<-|Hi'] Ht'; [congruence|now apply Hall].
Qed.

Lemma cpt_types_keys t : In t cpt_types <-> has_key cpt_type_map t = true.
Proof.
  rewrite has_key_keys. unfold cpt_types, cpt_type_map, keys.
  cbn [map fst In]. tauto.
Qed.

(** X5. The pattern of the component names takes the longest known
    component type the name starts with, and the character after it when
    it is a letter, a digit or an underscore; it fails exactly when the
    name starts with no known type. *)
Theorem pattern_longest_type (name : string) :
  match cpt_type_pattern_match name with
  | Some (t, id) =>
      has_key cpt_type_map t = true
      /\ String.prefix t name = true
      /\ (forall t', has_key cpt_type_map t' = true ->
            String.prefix t' name = true ->
            (String.length t' <= String.length t)%nat)
      /\ id = id_after t name
  | None =>
      forall t', has_key cpt_type_map t' = true ->
                 String.prefix t' name = false
  end.
Proof.
  unfold cpt_type_pattern_match.
  destruct (find (fun t => String.prefix t name) cpt_types) as [t|] eqn:Ef.
  - assert (Hs : longer_first cpt_types = true) by reflexivity.
    destruct (find_longest _ _ _ Hs Ef) as [Hi [Hp Hall]].
    split; [now apply cpt_types_keys|]. split; [assumption|].
    split; [|reflexivity].
    intros t' Hk Hp'. apply Hall; [now apply cpt_types_keys|assumption].
  - intros t' Hk. apply cpt_types_keys in Hk.
    exact (find_none _ _ Ef t' Hk).
Qed.
(** ** The nodes of a schematic *)

Lemma attached_app k calls k0 e :
  attached k (calls ++ [(k0, e)])
  = attached k calls ++ (if String.eqb k0 k then [e] else []).
Proof.
  unfold attached. rewrite filter_app, map_app. cbn [filter fst].
  now destruct (String.eqb k0 k).
Qed.

Lemma node_add_records s calls k0 e :
  node_records s calls ->
  node_records (Schematic._node_add s k0 e) (calls ++ [(k0, e)]).
Proof.
  intros Hr k. rewrite node_add_nodes, attached_app.
  specialize (Hr k) as Hk. specialize (Hr k0) as Hk0.
  destruct (String.eqb_spec k0 k) as [<-|Hne].
  - destruct (dget (Schematic.nodes s) k0) as [nd|].
    + destruct Hk0 as [Hn [Hl [Hp Hne]]].
      cbn [Node.append Node.name Node.list Node.port].
      split; [assumption|]. split; [now rewrite Hl|]. split.
      * rewrite existsb_app, <- Hp. cbn [existsb]. unfold port_type.
        destruct (str_in (NetElement.cpt_type e) ["P"; "port"; "open"]);
          [now rewrite orb_true_r|now rewrite !orb_false_r].
      * intros Hc. now apply app_eq_nil in Hc.
    + cbn [Node.append Node.__init__ Node.name Node.list Node.port].
      rewrite Hk0. cbn [app existsb]. unfold port_type.
      split; [reflexivity|]. split; [reflexivity|]. split; [|discriminate].
      now destruct (str_in (NetElement.cpt_type e) ["P"; "port"; "open"]).
  - rewrite app_nil_r. exact Hk.
Qed.

Lemma elt_add_records s calls e :
  node_records s calls ->
  node_records (Schematic._elt_add s e) (calls ++ node_calls [e]).
Proof.
  intros Hr. unfold Schematic._elt_add, node_calls. cbn [flat_map app].
  destruct (NetElement.nodes e) as [n1 n2]. cbn [fst snd].
  replace (calls ++ [(n1, e); (n2, e)])
    with ((calls ++ [(n1, e)]) ++ [(n2, e)])
    by (rewrite <- app_assoc; reflexivity).
  apply node_add_records, node_add_records. exact Hr.
Qed.

Lemma add_all_records elts :
  forall s calls,
    node_records s calls ->
    node_records (fold_left Schematic._elt_add elts s)
                 (calls ++ node_calls elts).
Proof.
  induction elts as [|e elts IH]; intros s calls Hr; cbn [fold_left].
  - unfold node_calls. cbn [flat_map]. now rewrite app_nil_r.
  - replace (calls ++ node_calls (e :: elts))
      with ((calls ++ node_calls [e]) ++ node_calls elts).
    + apply IH, elt_add_records, Hr.
    + unfold node_calls. cbn [flat_map]. now rewrite app_nil_r, <- app_assoc.
Qed.

(** X6. In a schematic built by adding elements, the node of a terminal
    carries the terminal's name, lists the elements attached to the
    terminal in the order they were added (twice when both terminals of
    an element are this one), and is a port exactly when one of them is
    of type P, port or open; a string that is no terminal of an element
    has no node. *)
Theorem node_bookkeeping (elts : list NetElement.t) :
  node_records (add_all elts) (node_calls elts).
Proof.
  apply (add_all_records elts Schematic.__init__ []).
  intros k. reflexivity.
Qed.
(** ** The implicit wires of a schematic *)



Lemma node_add_nets s k elt :
  nodes_from_keys s ->
  keys (Schematic.vnodes (Schematic._node_add s k elt))
  = encounter (keys (Schematic.vnodes s)) (rootname_of k).
Proof.
  intros Hs. rewrite node_add_vnodes by assumption. cbv zeta.
  fold (rootname_of k). set (r := rootname_of k).
  unfold encounter. rewrite str_in_keys.
  destruct (has_key (Schematic.vnodes s) r) eqn:Eh.
  - match goal with
    | |- context [if ?b then _ else _] => destruct b
    end; [reflexivity|].
    now apply keys_dset_old.
  - rewrite dget_dset_same. cbn [has_key dget].
    rewrite keys_dset_old by (rewrite has_key_dset, keqb_refl; reflexivity).
    now apply keys_dset_new.
Qed.

Lemma add_all_nets elts :
  forall s refs,
    nodes_from_keys s ->
    keys (Schematic.vnodes s) = encounter_order (map rootname_of refs) ->
    keys (Schematic.vnodes (fold_left Schematic._elt_add elts s))
    = encounter_order (map rootname_of (refs ++ node_refs elts)).
Proof.
  induction elts as [|e elts IH]; intros s refs Hs Hk.
  - simpl. now rewrite app_nil_r.
  - cbn [fold_left].
    rewrite (IH (Schematic._elt_add s e) (refs ++ node_refs [e])).
    + now rewrite <- app_assoc.
    + now apply elt_add_from_keys.
    + unfold Schematic._elt_add, node_refs. cbn [flat_map app].
      destruct (NetElement.nodes e) as [n1 n2]. cbn [fst snd].
      set (s1 := Schematic.mk _ _ _ _ _).
      assert (Hs1 : nodes_from_keys s1) by exact Hs.
      rewrite node_add_nets by now apply node_add_from_keys.
      rewrite node_add_nets by assumption.
      change (Schematic.vnodes s1) with (Schematic.vnodes s).
      rewrite Hk, map_app. cbn [map].
      change [rootname_of n1; rootname_of n2]
        with ([rootname_of n1] ++ [rootname_of n2]).
      now rewrite app_assoc, !encounter_order_app.
Qed.

Lemma values_by_keys {V} (d : dict string V) (dflt : V) :
  NoDup (keys d) ->
  values d
  = map (fun k => match dget d k with Some v => v | None => dflt end) (keys d).
Proof.
  unfold keys, values.
  induction d as [|[k v] d IH]; cbn [map fst snd]; intros Hn; [reflexivity|].
  inversion Hn as [|? ? Hk Hd]; subst.
  cbn [dget]. change (keqb k k) with (String.eqb k k). rewrite String.eqb_refl.
  f_equal. rewrite IH by assumption.
  apply map_ext_in. intros k' Hk'.
  change (keqb k k') with (String.eqb k k').
  destruct (String.eqb_spec k k') as [->|Hne]; [contradiction|reflexivity].
Qed.

Lemma make_wires_spec c (s : Schematic.t) :
  Schematic._make_wires c s
  = inr (c, flat_map
              (fun d => map (fun p => wire (fst p) (snd p))
                            (consecutive (keys d)))
              (values (Schematic.vnodes s))).
Proof.
  unfold Schematic._make_wires.
  assert (G : forall l acc,
             for_each
               (fun (st : nat * list NetElement.t)
                    (vnode : dict string NetElement.t) =>
                  ' (counter, ws) <- Schematic._make_wires1 (fst st) vnode ;;
                  ret (counter, (snd st ++ ws)%list))
               l (c, acc)
             = inr (c, (acc ++ flat_map
                          (fun d => map (fun p => wire (fst p) (snd p))
                                        (consecutive (keys d))) l)%list)).
  { induction l as [|d l IH]; intros acc; cbn [for_each flat_map].
    - now rewrite app_nil_r.
    - cbn [fst snd]. rewrite make_wires1_spec. cbn [bind].
      unfold ret at 1. cbn [bind]. rewrite IH. now rewrite <- app_assoc. }
  apply (G _ []).
Qed.

Lemma consecutive_distinct {A} (l : list A) (p : A * A) :
  NoDup l -> In p (consecutive l) -> fst p <> snd p.
Proof.
  unfold consecutive. destruct l as [|x l]; [intros _ []|].
  cbn [tl]. revert x.
  induction l as [|y l IH]; intros x Hn; cbn [combine]; [intros []|].
  intros [<-|Hi].
  - cbn [fst snd]. inversion Hn as [|? ? Hx _]; subst.
    intros ->. apply Hx. now left.
  - apply (IH y); [now inversion Hn|assumption].
Qed.

(** Sums over the nets. *)







Lemma flat_map_map {A B C} (g : A -> B) (f : B -> list C) (l : list A) :
  flat_map f (map g l) = flat_map (fun x => f (g x)) l.
Proof.
  induction l as [|x l IH]; cbn [map flat_map]; [reflexivity|].
  now rewrite IH.
Qed.

Lemma map_flat_map {A B C} (g : B -> C) (f : A -> list B) (l : list A) :
  map g (flat_map f l) = flat_map (fun x => map g (f x)) l.
Proof.
  induction l as [|x l IH]; cbn [flat_map]; [reflexivity|].
  now rewrite map_app, IH.
Qed.

Lemma net_aliases_spec elts root :
  aliases_of (add_all elts) root = net_aliases root elts.
Proof.
  destruct (add_all_aliases elts Schematic.__init__ []) as [_ Ha].
  - intros k nd. discriminate.
  - intros r. reflexivity.
  - apply Ha.
Qed.

Lemma nets_spec elts : keys (Schematic.vnodes (add_all elts)) = nets elts.
Proof.
  apply (add_all_nets elts Schematic.__init__ []).
  - intros k nd. discriminate.
  - reflexivity.
Qed.

Lemma net_aliases_In elts root a :
  In a (net_aliases root elts) ->
  In a (node_refs elts) /\ rootname_of a = root.
Proof.
  unfold net_aliases. intros Hi.
  apply encounter_incl, filter_In in Hi. destruct Hi as [Hi Hn].
  split; [assumption|]. now apply String.eqb_eq in Hn.
Qed.

Lemma wires_nodes elts :
  Forall (fun e => undotted e = true) elts ->
  map NetElement.nodes (net_wires (add_all elts))
  = flat_map (fun root => consecutive (net_aliases root elts)) (nets elts).
Proof.
  intros Hf. unfold net_wires.
  rewrite (values_by_keys _ ([] : dict string NetElement.t))
    by (rewrite nets_spec; apply encounter_NoDup).
  rewrite nets_spec, flat_map_map, map_flat_map.
  apply flat_map_ext. intros root.
  replace (keys match dget (Schematic.vnodes (add_all elts)) root with
                | Some v => v
                | None => []
                end)
    with (aliases_of (add_all elts) root)
    by (unfold aliases_of; now destruct (dget _ root)).
  rewrite net_aliases_spec. apply undot_pairs.
  intros p Hp. apply in_consecutive in Hp. destruct Hp as [H1 H2].
  apply net_aliases_In in H1. apply net_aliases_In in H2.
  split; eapply node_refs_undotted; try exact Hf; tauto.
Qed.

Lemma wires_join elts w :
  Forall (fun e => undotted e = true) elts ->
  In w (net_wires (add_all elts)) -> joins_net elts w.
Proof.
  intros Hf Hw. apply (in_map NetElement.nodes) in Hw.
  rewrite (wires_nodes elts Hf) in Hw.
  apply in_flat_map in Hw. destruct Hw as [root [_ Hp]].
  unfold joins_net. destruct (NetElement.nodes w) as [a b].
  split.
  - apply (consecutive_distinct _ (a, b)) in Hp;
      [assumption|apply encounter_NoDup].
  - apply in_consecutive in Hp. destruct Hp as [H1 H2]. cbn [fst snd] in *.
    apply net_aliases_In in H1. apply net_aliases_In in H2.
    destruct H1 as [H1 R1], H2 as [H2 R2]. repeat split; congruence.
Qed.


(** ** The errors of a layout pass *)

Lemma for_each_error {A S} (P : S -> Prop) (E : exn -> Prop)
    (body : S -> A -> M S) l :
  (forall st x st', In x l -> P st -> body st x = inr st' -> P st') ->
  (forall st x e, In x l -> P st -> body st x = inl e -> E e) ->
  forall st e, P st -> for_each body l st = inl e -> E e.
Proof.
  induction l as [|x l IH]; intros Hs He st e HP Hf; cbn [for_each] in Hf.
  - discriminate.
  - apply bind_inl in Hf. destruct Hf as [Hf|[st' [Hb Hf]]].
    + eapply He; [now left|exact HP|exact Hf].
    + eapply IH; [| | |exact Hf].
      * intros st0 y st0' Hy. apply Hs. now right.
      * intros st0 y e0 Hy. apply He. now right.
      * eapply Hs; [now left|exact HP|exact Hb].
Qed.

Lemma unify_error dirs st elt e :
  cnodes_wf st ->
  (exists d, dget (NetElement.opts elt) "dir" = Some d) ->
  Schematic.unify dirs st elt = inl e -> e = conflict_error elt.
Proof.
  intros [W1 _] [d Hd]. unfold Schematic.unify, dindex. rewrite Hd.
  cbn [bind ret].
  destruct (Schematic.dir_in d dirs); [discriminate|].
  destruct (NetElement.nodes elt) as [n1 n2].
  destruct (Schematic.conflict _ n1 n2); [intros [= <-]; reflexivity|].
  assert (Happ : forall n c x,
             dget (Schematic.cnode_map st) n = Some c ->
             exists cn, Schematic.cnodes_append (Schematic.cnodes st) c x
                        = inr cn).
  { intros n c x Hn. destruct (W1 n c Hn) as [_ [l [Hl _]]].
    unfold Schematic.cnodes_append, dindex. rewrite Hl. cbn. eauto. }
  destruct (has_key (Schematic.cnode_map st) n1) eqn:E1,
           (has_key (Schematic.cnode_map st) n2) eqn:E2; cbn [negb andb];
    try discriminate.
  - apply has_key_true in E1. destruct E1 as [a E1]. rewrite E1. cbn [bind ret].
    destruct (Happ n1 a n2 E1) as [cn ->]. discriminate.
  - apply has_key_true in E1. destruct E1 as [a E1]. rewrite E1. cbn [bind ret].
    destruct (Happ n1 a n2 E1) as [cn ->]. discriminate.
  - apply has_key_true in E2. destruct E2 as [b E2]. rewrite E2. cbn [bind ret].
    destruct (Happ n2 b n1 E2) as [cn ->]. discriminate.
Qed.

Lemma augment_error dirs st elt e :
  (exists d, dget (NetElement.opts elt) "dir" = Some d) ->
  Schematic.augment dirs st elt = inl e -> False.
Proof.
  intros [d Hd]. unfold Schematic.augment, dindex. rewrite Hd. cbn [bind ret].
  destruct (negb (Schematic.dir_in d dirs)); [discriminate|].
  destruct (NetElement.nodes elt). discriminate.
Qed.

Lemma graph_entry (g : Schematic.graph) n m :
  keys g = seq 0 (S n) -> (m <= n)%nat -> exists l, dget g m = Some l.
Proof.
  intros Hk Hm. apply has_key_true, has_key_keys. rewrite Hk.
  apply in_seq. lia.
Qed.

Lemma graph_append_ok (g : Schematic.graph) n m x :
  keys g = seq 0 (S n) -> (m <= n)%nat ->
  exists g', Schematic.graph_append g m x = inr g'.
Proof.
  intros Hk Hm. destruct (graph_entry g n m Hk Hm) as [l Hl].
  unfold Schematic.graph_append, dindex. rewrite Hl. cbn. eauto.
Qed.

Lemma connect_error float_of_str dirs cmap n gs elt e :
  (forall x c, dget cmap x = Some c -> (c <= n)%nat) ->
  keys (fst gs) = seq 0 (S n) -> keys (snd gs) = seq 0 (S n) ->
  has_options elt ->
  (forall d, dget (NetElement.opts elt) "dir" = Some d ->
             Schematic.dir_in d dirs = true ->
             (exists m1, dget cmap (fst (NetElement.nodes elt)) = Some m1)
             /\ exists m2, dget cmap (snd (NetElement.nodes elt)) = Some m2) ->
  Schematic.connect float_of_str dirs cmap gs elt = inl e ->
  e = float_error.
Proof.
  intros Hc K1 K2 [[d Hd] [sz [Hs Hz]]] Hm.
  unfold Schematic.connect, dindex. rewrite Hd. cbn [bind ret].
  destruct (Schematic.dir_in d dirs) eqn:Ed; cbn [negb]; [|discriminate].
  destruct (Hm d Hd Ed) as [[m1 H1] [m2 H2]].
  rewrite H1, H2, Hs. cbn [bind ret].
  assert (L1 : (m1 <= n)%nat) by (eapply Hc; exact H1).
  assert (L2 : (m2 <= n)%nat) by (eapply Hc; exact H2).
  unfold Schematic.float.
  destruct sz as [|z|s]; [contradiction| |].
  all: try (destruct (float_of_str s) as [q|];
            [|intros [= <-]; reflexivity]).
  all: cbn [bind ret].
  all: destruct (Schematic.dir_eq d (fst dirs));
    [|destruct (Schematic.dir_eq d (snd dirs)); [|discriminate]].
  all: repeat match goal with
       | |- context [Schematic.graph_append ?g0 ?m ?x] =>
           let g' := fresh "g" in
           let H := fresh "H" in
           destruct (graph_append_ok g0 n m x) as [g' H];
           [assumption|assumption|rewrite H; cbn [bind ret]]
       end.
  all: discriminate.
Qed.

Lemma connect_keys float_of_str dirs cmap gs elt gs' :
  Schematic.connect float_of_str dirs cmap gs elt = inr gs' ->
  keys (fst gs') = keys (fst gs) /\ keys (snd gs') = keys (snd gs).
Proof.
  intros Hc. apply connect_connects in Hc.
  destruct Hc as [->|[a [b [size [_ [_ [[K1 _] [K2 _]]]]]]]]; [now split|].
  now split.
Qed.

Lemma orphan_error (gs : Schematic.graph * Schematic.graph) n os m e :
  keys (fst gs) = seq 0 (S n) -> keys (snd gs) = seq 0 (S n) ->
  (m <= n)%nat ->
  Schematic.orphan gs os m = inl e -> False.
Proof.
  intros K1 K2 Hm. unfold Schematic.orphan, dindex.
  destruct (graph_entry _ n m K1 Hm) as [l1 ->].
  destruct (graph_entry _ n m K2 Hm) as [l2 ->].
  cbn [bind ret]. discriminate.
Qed.

Lemma axis_graphs_error float_of_str self dirs e :
  (forall elt, In elt (values (Schematic.elements self)) -> has_options elt) ->
  Schematic.axis_graphs float_of_str self dirs = inl e ->
  (exists elt, In elt (values (Schematic.elements self))
               /\ e = conflict_error elt)
  \/ e = float_error.
Proof.
  intros Ho. unfold Schematic.axis_graphs. intros Ha.
  apply bind_inl in Ha. destruct Ha as [Hu|[st1 [Hu Ha]]].
  { left.
    apply (for_each_error cnodes_wf
             (fun e => exists elt, In elt (values (Schematic.elements self))
                                   /\ e = conflict_error elt)) in Hu;
      [exact Hu| | |exact cnodes_wf_empty].
    - intros st x st' _. apply unify_wf.
    - intros st x e0 Hx Hw He. exists x. split; [assumption|].
      eapply unify_error; [exact Hw| |exact He]. apply Ho, Hx. }
  assert (Hw1 : cnodes_wf st1).
  { eapply (for_each_inv cnodes_wf); [|exact cnodes_wf_empty|exact Hu].
    intros ? ? ?. apply unify_wf. }
  apply bind_inl in Ha. destruct Ha as [Hg|[st2 [Hg Ha]]].
  { exfalso.
    apply (for_each_error (fun _ => True) (fun _ => False)) in Hg;
      [exact Hg| | |exact I].
    - trivial.
    - intros st x e0 Hx _ He. eapply augment_error; [|exact He].
      apply Ho, Hx. }
  assert (Hw2 : cnodes_wf st2).
  { eapply (for_each_inv cnodes_wf); [|exact Hw1|exact Hg].
    intros ? ? ?. apply augment_wf. }
  destruct (augment_loop _ _ _ _ Hg) as [_ [_ Hmap]].
  set (n := Schematic.cnode st2) in *.
  assert (Hrange : forall x c, dget (Schematic.cnode_map st2) x = Some c ->
                               (c <= n)%nat).
  { intros x c Hx. destruct (proj1 Hw2 x c Hx) as [Hr _]. subst n. lia. }
  set (P := fun gs : Schematic.graph * Schematic.graph =>
              keys (fst gs) = seq 0 (S n) /\ keys (snd gs) = seq 0 (S n)).
  assert (P0 : P (Schematic.empty_graph n, Schematic.empty_graph n)).
  { split; apply empty_graph_keys. }
  assert (Pstep : forall gs x gs',
             P gs ->
             Schematic.connect float_of_str dirs (Schematic.cnode_map st2)
                               gs x = inr gs' -> P gs').
  { intros gs x gs' [K1 K2] Hc. apply connect_keys in Hc.
    destruct Hc as [C1 C2]. split; congruence. }
  apply bind_inl in Ha. destruct Ha as [Hc|[gs [Hc Ha]]].
  { right.
    apply (for_each_error P (fun e => e = float_error)) in Hc;
      [exact Hc| | |exact P0].
    - intros gs x gs' _. apply Pstep.
    - intros gs x e0 Hx [K1 K2] He.
      eapply connect_error; [exact Hrange|exact K1|exact K2| | |exact He].
      + apply Ho, Hx.
      + intros d Hd Hdir. destruct (Hmap x Hx) as [d' [Hd' Hm]].
        rewrite Hd in Hd'. injection Hd' as <-. exact (Hm Hdir). }
  assert (Pgs : P gs).
  { eapply (for_each_inv P); [|exact P0|exact Hc]. exact Pstep. }
  exfalso.
  apply bind_inl in Ha. destruct Ha as [Hor|[[orphans rorphans] [_ Ha]]];
    [|discriminate].
  apply (for_each_error (fun _ => True) (fun _ => False)) in Hor;
    [exact Hor| | |exact I].
  - trivial.
  - intros os m e0 Hm _ He. destruct Pgs as [K1 K2].
    apply in_seq in Hm.
    eapply (orphan_error gs n os m); [exact K1|exact K2| |exact He]. lia.
Qed.

Lemma longest_all_error g depth all_nodes :
  (forall v u, parent_of g v u -> has_key g u = true) ->
  (forall v, In v all_nodes -> has_key g v = true) ->
  forall memo e,
    longest_all g depth all_nodes memo = inl e -> e = recursion_error.
Proof.
  intros Hp. induction all_nodes as [|u rest IH]; cbn [longest_all];
    intros Hall memo e H; [discriminate|].
  apply bind_inl in H. destruct H as [H|[[w memo1] [_ H]]].
  - eapply get_longest_error; [exact Hp| |exact H]. apply Hall. now left.
  - apply bind_inl in H. destruct H as [H|[[l m2] [_ H]]]; [|discriminate].
    eapply IH; [|exact H]. intros v Hv. apply Hall. now right.
Qed.

Lemma longest_all_items g depth all_nodes :
  forall memo l memo',
    longest_all g depth all_nodes memo = inr (l, memo') ->
    Datatypes.length l = Datatypes.length all_nodes.
Proof.
  induction all_nodes as [|u rest IH]; cbn [longest_all]; intros memo l memo' H.
  - now injection H as <- _.
  - apply bind_inr in H. destruct H as [[w memo1] [_ H]].
    apply bind_inr in H. destruct H as [[l' m2] [Hl H]].
    injection H as <- _. cbn [Datatypes.length]. f_equal.
    eapply IH. exact Hl.
Qed.

Lemma longest_path_error g depth all_nodes e :
  closed_graph g all_nodes -> all_nodes <> [] ->
  longest_path g depth all_nodes = inl e -> e = recursion_error.
Proof.
  intros [Hall Hp] Hne. unfold longest_path. intros H.
  apply bind_inl in H. destruct H as [H|[[l memo] [Hl H]]].
  - eapply longest_all_error; [exact Hp|exact Hall|exact H].
  - exfalso. apply longest_all_items in Hl.
    destruct l as [|x l].
    + destruct all_nodes; [now apply Hne|discriminate].
    + cbn in H. destruct (fold_left _ l x). discriminate.
Qed.

Lemma rooted_closed (g : Schematic.graph) n ks :
  rooted g n -> ks = seq 0 (S n) -> closed_graph g ks /\ ks <> [].
Proof.
  intros [Hk He] ->. split; [split|discriminate].
  - intros v Hv. apply has_key_keys. now rewrite Hk.
  - intros v u [ps [s [Hd Hi]]].
    destruct (He v u s) as [_ [Hu _]]; [now exists ps|].
    apply has_key_keys. rewrite Hk. apply in_seq. lia.
Qed.

Lemma place_loop_ok length memo memor c members :
  (exists f, dget memo c = Some f) -> (exists r, dget memor c = Some r) ->
  forall ps,
    exists ps',
      for_each (Schematic.place length memo memor c) members ps = inr ps'.
Proof.
  intros [f Hf] [r Hr].
  induction members as [|n members IH]; intros ps; cbn [for_each].
  - now exists ps.
  - unfold Schematic.place at 1. destruct ps as [[pos posr] posa].
    unfold dindex. rewrite Hf, Hr. cbn [bind ret]. apply IH.
Qed.

Lemma place_cnode_loop_ok length memo memor
    (cn : dict nat (list string)) ks :
  (forall c, In c ks -> c <> 0%nat ->
     (exists l, dget cn c = Some l)
     /\ (exists f, dget memo c = Some f)
     /\ exists r, dget memor c = Some r) ->
  forall ps,
    exists ps',
      for_each (Schematic.place_cnode length memo memor cn) ks ps = inr ps'.
Proof.
  induction ks as [|c ks IH]; intros Hk ps; cbn [for_each].
  - now exists ps.
  - assert (Hks : forall c', In c' ks -> c' <> 0%nat ->
               (exists l, dget cn c' = Some l)
               /\ (exists f, dget memo c' = Some f)
               /\ exists r, dget memor c' = Some r).
    { intros c' Hc'. apply Hk. now right. }
    unfold Schematic.place_cnode at 1.
    destruct (Nat.eqb_spec c 0) as [->|Hc]; cbn [bind ret].
    + now apply IH.
    + destruct (Hk c (or_introl eq_refl) Hc) as [[l Hl] [Hf Hr]].
      unfold dindex. rewrite Hl. cbn [bind ret].
      destruct (place_loop_ok length memo memor c l Hf Hr ps) as [ps1 ->].
      cbn [bind]. now apply IH.
Qed.

Lemma make_graphs_error float_of_str limit self dirs e :
  (forall elt, In elt (values (Schematic.elements self)) -> has_options elt) ->
  Schematic._make_graphs float_of_str limit self dirs = inl e ->
  layout_error self e.
Proof.
  intros Ho. unfold Schematic._make_graphs. intros H.
  apply bind_inl in H. destruct H as [H|[[[st g] r] [Ha H]]].
  { destruct (axis_graphs_error _ _ _ _ Ho H) as [Hc|Hf];
      [now left|right; now left]. }
  pose proof (axis_graphs_full _ _ _ _ _ _ Ha) as Hfull.
  destruct (axis_graphs_spec _ _ _ _ _ _ Ha) as [_ [Rg [Rr _]]].
  assert (Kg : keys g = seq 0 (S (Schematic.cnode st))) by apply Rg.
  destruct (rooted_closed g _ (keys g) Rg Kg) as [Cg Ng].
  destruct (rooted_closed r _ (keys g) Rr Kg) as [Cr _].
  apply bind_inl in H. destruct H as [H|[[[L node] memo] [Hl H]]].
  { right. right. eapply longest_path_error; [exact Cg|exact Ng|exact H]. }
  apply bind_inl in H. destruct H as [H|[[[Lr noder] memor] [Hlr H]]].
  { right. right. eapply longest_path_error; [exact Cr|exact Ng|exact H]. }
  exfalso.
  destruct (longest_path_sound _ _ _ _ _ _ Hl) as [_ [Hm _]].
  destruct (longest_path_sound _ _ _ _ _ _ Hlr) as [_ [Hmr _]].
  assert (Hcond : forall c, In c (keys g) -> c <> 0%nat ->
             (exists l, dget (Schematic.cnodes st) c = Some l)
             /\ (exists f, dget memo c = Some f)
             /\ exists r, dget memor c = Some r).
  { intros c Hc Hc0. split; [|split].
    - rewrite Kg in Hc. apply in_seq in Hc.
      destruct (Hfull c) as [l [n [Hl' _]]]; [lia|]. now exists l.
    - destruct (Hm c Hc) as [val [Hv _]]. now exists val.
    - destruct (Hmr c Hc) as [val [Hv _]]. now exists val. }
  match type of H with
  | bind (for_each _ _ ?p) _ = _ =>
      destruct (place_cnode_loop_ok Lr memo memor (Schematic.cnodes st)
                                    (keys g) Hcond p) as [ps' Hps]
  end.
  rewrite Hps in H. cbn [bind] in H. destruct ps' as [[pos posr] posa].
  discriminate.
Qed.

Lemma make_graphs_keys float_of_str limit self dirs posa :
  Schematic._make_graphs float_of_str limit self dirs = inr posa ->
  forall n, has_key posa n = true
            <-> In n (node_refs (values (Schematic.elements self))).
Proof.
  intros Hg n.
  destruct (make_graphs_spec _ _ _ _ _ Hg)
    as [st [g [r [L [node [memo [Lr [noder [memor [Ha [_ [_ [P1 P2]]]]]]]]]]]]].
  destruct (axis_partition _ _ _ _ _ _ Ha) as [Hmap Hin].
  split.
  - intros Hk. apply has_key_true in Hk. destruct Hk as [v Hv].
    destruct (P2 n v Hv) as [c Hc]. apply Hin, has_key_true. now exists c.
  - intros Hi. unfold node_refs in Hi. apply in_flat_map in Hi.
    destruct Hi as [elt [He Hn]].
    destruct (Hmap elt He) as [[[c1 H1] [c2 H2]] _].
    apply has_key_true.
    destruct Hn as [<-|[<-|[]]].
    + destruct (P1 _ _ H1) as [v [_ Hv]]. now exists v.
    + destruct (P1 _ _ H2) as [v [_ Hv]]. now exists v.
Qed.

Lemma scale_coords_ok scale (xpos ypos : dict string Q) ks :
  (forall n, In n ks -> has_key xpos n = true /\ has_key ypos n = true) ->
  forall coords,
    exists coords',
      for_each (Schematic.scale_coords scale xpos ypos) ks coords = inr coords'
      /\ (forall n, In n ks -> has_key coords' n = true)
      /\ (forall n, has_key coords n = true -> has_key coords' n = true).
Proof.
  induction ks as [|k ks IH]; intros Hk coords; cbn [for_each].
  - exists coords. split; [reflexivity|]. split; [intros n []|auto].
  - destruct (Hk k (or_introl eq_refl)) as [Hx Hy].
    apply has_key_true in Hx. apply has_key_true in Hy.
    destruct Hx as [x Hx], Hy as [y Hy].
    unfold Schematic.scale_coords at 1. unfold dindex. rewrite Hx, Hy.
    cbn [bind ret].
    destruct (IH (fun n Hn => Hk n (or_intror Hn))
                 (dset coords k (x * scale, y * scale)%Q))
      as [coords' [Hf [H1 H2]]].
    exists coords'. split; [exact Hf|]. split.
    + intros n [<-|Hn]; [|now apply H1].
      apply H2. rewrite has_key_dset, keqb_refl. reflexivity.
    + intros n Hn. apply H2. rewrite has_key_dset, Hn. apply orb_true_r.
Qed.

Lemma attach_none (coords : dict string (Q * Q)) :
  forall elts : dict string NetElement.t,
    (forall elt, In elt (values elts) ->
       has_key coords (fst (NetElement.nodes elt)) = true
       /\ has_key coords (snd (NetElement.nodes elt)) = true) ->
    snd (Schematic.attach coords elts) = None.
Proof.
  induction elts as [|[k elt] rest IH]; intros Hk; cbn [Schematic.attach];
    [reflexivity|].
  destruct (Hk elt (or_introl eq_refl)) as [H1 H2].
  destruct (NetElement.nodes elt) as [n1 n2]. cbn [fst snd] in H1, H2.
  apply has_key_true in H1. apply has_key_true in H2.
  destruct H1 as [p1 ->], H2 as [p2 ->].
  specialize (IH (fun e He => Hk e (or_intror He))).
  destruct (Schematic.attach coords rest) as [rest' o]. exact IH.
Qed.

(** X8. On a schematic whose elements carry a direction and a size that
    is a number or a string, a layout pass that fails raises the
    conflict of an element of the schematic, the error of a size that is
    no number, or the recursion error, and nothing else: no index,
    key or type error comes out of the dictionaries the pass builds.
    The schematic it leaves is the one it was given. *)
Theorem layout_errors (float_of_str : string -> option Q) (limit : nat)
    (self self' : Schematic.t) (e : exn) :
  (forall elt, In elt (values (Schematic.elements self)) -> has_options elt) ->
  Schematic._positions_calculate float_of_str limit self = (self', Some e) ->
  self' = self /\ layout_error self e.
Proof.
  intros Ho H.
  destruct (Schematic._make_graphs float_of_str limit self x_axis)
    as [ex|xpos] eqn:Hx.
  { rewrite (positions_error_x _ _ _ _ Hx) in H. injection H as <- <-.
    split; [reflexivity|]. eapply make_graphs_error; eauto. }
  destruct (Schematic._make_graphs float_of_str limit self y_axis)
    as [ey|ypos] eqn:Hy.
  { rewrite (positions_error_y _ _ _ _ _ Hx Hy) in H. injection H as <- <-.
    split; [reflexivity|]. eapply make_graphs_error; eauto. }
  exfalso.
  pose proof (make_graphs_keys _ _ _ _ _ Hx) as Kx.
  pose proof (make_graphs_keys _ _ _ _ _ Hy) as Ky.
  assert (Hkeys : forall n, In n (keys xpos) ->
             has_key xpos n = true /\ has_key ypos n = true).
  { intros n Hn. apply has_key_keys in Hn. split; [assumption|].
    apply Ky, Kx, Hn. }
  unfold Schematic._positions_calculate in H.
  unfold x_axis in Hx. unfold y_axis in Hy.
  rewrite Hx, Hy in H. cbn [bind] in H.
  match type of H with
  | context [for_each _ _ ?p] =>
      destruct (scale_coords_ok (Schematic.scale self) xpos ypos (keys xpos)
                                Hkeys p) as [coords' [Hs [Hc _]]]
  end.
  rewrite Hs in H.
  assert (Ha : snd (Schematic.attach coords' (Schematic.elements self)) = None).
  { apply attach_none. intros elt He.
    split; apply Hc, has_key_keys, Kx; unfold node_refs; apply in_flat_map;
      exists elt; (split; [assumption|]); cbn; auto. }
  destruct (Schematic.attach coords' (Schematic.elements self)) as [elts o].
  cbn [snd] in Ha. subst o. discriminate.
Qed.

Lemma layout_errors_witness :
  let self := snd (build split_chain_lines) in
  (forall elt, In elt (values (Schematic.elements self)) -> has_options elt)
  /\ exists e,
      Schematic._positions_calculate float_of_decimal 100 self
      = (self, Some e)
      /\ layout_error self e.
Proof.
  intros self.
  assert (Ho : forall elt, In elt (values (Schematic.elements self)) ->
                           has_options elt).
  { intros elt [<-|[<-|[<-|[]]]];
      (split; [eexists; reflexivity|eexists; split; [reflexivity|discriminate]]). }
  assert (H : Schematic._positions_calculate float_of_decimal 100 self
              = (self, Some (conflict_error (resistor "2" "b" "c"))))
    by reflexivity.
  split; [exact Ho|]. eexists. split; [exact H|].
  exact (proj2 (layout_errors float_of_decimal 100 self self _ Ho H)).
Defined.
(** ** The elements [add] stores *)

Lemma raw_options_dset opts k x :
  raw_options opts -> raw_options (dset opts k (VStr x)).
Proof.
  intros [Hd Hs]. unfold raw_options. rewrite !dget_dset.
  change (keqb k "dir") with (String.eqb k "dir").
  change (keqb k "size") with (String.eqb k "size").
  split.
  - destruct (String.eqb k "dir"); [right; now exists x|exact Hd].
  - destruct (String.eqb k "size"); [right; now exists x|exact Hs].
Qed.

Lemma opts_parse_raw str : raw_options (Schematic._opts_parse str).
Proof.
  unfold Schematic._opts_parse.
  assert (G : forall parts opts,
             raw_options opts ->
             raw_options
               (fold_left
                  (fun opts part =>
                     let part := strip part in
                     if str_in part ["up"; "down"; "left"; "right"]
                     then dset opts "dir" (VStr part)
                     else
                       let fields := split "=" part in
                       let key := strip (hd EmptyString fields) in
                       let arg :=
                         match fields with
                         | _ :: f1 :: _ => strip f1
                         | _ => EmptyString
                         end in
                       dset opts key (VStr arg))
                  parts opts)).
  { induction parts as [|p parts IH]; intros opts Ho; cbn [fold_left];
      [exact Ho|].
    apply IH. cbv zeta.
    destruct (str_in (strip p) ["up"; "down"; "left"; "right"]);
      now apply raw_options_dset. }
  apply G. split; left; reflexivity.
Qed.

Lemma dget_filter_keys {V} (f : string -> bool) (d : dict string V) k :
  f k = true -> dget (filter (fun kv => f (fst kv)) d) k = dget d k.
Proof.
  intros Hk. induction d as [|[k' v'] d IH]; cbn [filter dget fst]; [reflexivity|].
  change (keqb k' k) with (String.eqb k' k).
  destruct (f k') eqn:Ef; cbn [dget].
  - change (keqb k' k) with (String.eqb k' k).
    destruct (String.eqb k' k); [reflexivity|exact IH].
  - destruct (String.eqb_spec k' k) as [->|_]; [congruence|exact IH].
Qed.

Lemma init_options c name n1 n2 args opts c' elt :
  raw_options opts ->
  NetElement.__init__ c name n1 n2 args opts = inr (c', elt) ->
  parsed_options (NetElement.opts elt).
Proof.
  intros [Hd Hs] Hi.
  assert (Hkd : has_key opts "dir" = true).
  { apply has_key_true. destruct Hd as [Hd|[d Hd]]; eauto. }
  assert (Hks : has_key opts "size" = true).
  { apply has_key_true. destruct Hs as [Hs|[s Hs]]; eauto. }
  unfold NetElement.__init__ in Hi.
  destruct (cpt_type_pattern_match name) as [[ct id]|] eqn:Ep; [|discriminate].
  rewrite Hkd, Hks in Hi.
  assert (Hopt : forall x,
             parsed_options
               match dget opts "dir" with
               | Some VNone => dset opts "dir" (VStr x)
               | _ => opts
               end).
  { intros x. destruct Hd as [Hd|[d Hd]]; rewrite Hd.
    - split; [exists x; apply dget_dset_same|].
      rewrite dget_dset_other by discriminate. exact Hs.
    - split; [now exists d|exact Hs]. }
  destruct id as [id|]; cbn [ret] in Hi; injection Hi as _ <-;
    cbn [NetElement.opts]; apply Hopt.
Qed.

Lemma call_options c parts str c' elt :
  Schematic.NetElement_call c parts (Schematic._opts_parse str)
  = inr (c', elt) ->
  stored_by_add elt.
Proof.
  unfold Schematic.NetElement_call.
  destruct (has_key (Schematic._opts_parse str) "self"); [discriminate|].
  intros H.
  apply bind_inr in H. destruct H as [name [_ H]].
  apply bind_inr in H. destruct H as [node1 [_ H]].
  apply bind_inr in H. destruct H as [node2 [_ H]].
  cbv zeta in H. split; [eapply init_undotted; exact H|].
  eapply init_options; [|exact H].
  pose proof (opts_parse_raw str) as [Hd Hs].
  set (f := fun k => negb (str_in k ["name"; "node1"; "node2"])).
  change (filter _ (Schematic._opts_parse str))
    with (filter (fun kv : string * value => f (fst kv))
                 (Schematic._opts_parse str)).
  unfold raw_options. rewrite !dget_filter_keys by reflexivity.
  now split.
Qed.

Lemma node_add_elements s k elt :
  Schematic.elements (Schematic._node_add s k elt) = Schematic.elements s.
Proof. reflexivity. Qed.

Lemma elt_add_elements s elt :
  Schematic.elements (Schematic._elt_add s elt)
  = dset (Schematic.elements s) (NetElement.name elt) elt.
Proof.
  unfold Schematic._elt_add. destruct (NetElement.nodes elt) as [n1 n2].
  reflexivity.
Qed.

Lemma values_dset {V} (d : dict string V) k v x :
  In x (values (dset d k v)) -> x = v \/ In x (values d).
Proof.
  unfold values.
  induction d as [|[k' v'] d IH]; cbn [dset map snd In].
  - intros [<-|[]]. now left.
  - destruct (keqb k' k); cbn [map snd In].
    + intros [<-|Hi]; [now left|right; now right].
    + intros [<-|Hi]; [right; now left|].
      destruct (IH Hi) as [->|Hx]; [now left|right; now right].
Qed.

Lemma add_stores st line :
  Forall stored_by_add (values (Schematic.elements (snd st))) ->
  Forall stored_by_add
         (values (Schematic.elements (snd (fst (Schematic.add st line))))).
Proof.
  intros Hs. unfold Schematic.add.
  destruct (Schematic.NetElement_call _ _ _) as [e|[c' elt]] eqn:Hc;
    cbn [fst snd]; [exact Hs|].
  apply call_options in Hc.
  rewrite elt_add_elements. apply Forall_forall. intros x Hx.
  apply values_dset in Hx. destruct Hx as [->|Hx]; [exact Hc|].
  rewrite Forall_forall in Hs. now apply Hs.
Qed.

Lemma parsed_has_options elt :
  parsed_options (NetElement.opts elt) -> has_options elt.
Proof.
  intros [[d Hd] Hs]. split; [now exists (VStr d)|].
  destruct Hs as [Hs|[s Hs]]; eexists; (split; [exact Hs|discriminate]).
Qed.

Lemma build_stores lines :
  forall st,
    Forall stored_by_add (values (Schematic.elements (snd st))) ->
    Forall stored_by_add
      (values (Schematic.elements
         (snd (fold_left (fun st line => fst (Schematic.add st line))
                         lines st)))).
Proof.
  induction lines as [|line lines IH]; intros st Hs; cbn [fold_left];
    [exact Hs|].
  apply IH, add_stores, Hs.
Qed.

(** X9. Every element of a schematic built by [add], line after line,
    has terminals without a dot, a direction that is a string and a
    size that is the default 1 or a string: the elements meet what
    the wire inference and the layout pass ask of them. *)
Theorem built_elements (lines : list string) :
  Forall (fun elt => stored_by_add elt /\ has_options elt)
         (values (Schematic.elements (snd (build lines)))).
Proof.
  eapply Forall_impl; [|apply build_stores; constructor].
  intros elt Hs. split; [exact Hs|]. apply parsed_has_options, Hs.
Qed.
(** ** Netlist lines read back *)

Lemma split_none sep s : contains sep s = false -> split sep s = [s].
Proof.
  induction s as [|c s IH]; cbn [contains split]; [reflexivity|].
  intros Hc. apply orb_false_iff in Hc. destruct Hc as [Hc Hs].
  rewrite Hc, (IH Hs). reflexivity.
Qed.

Lemma split_word sep a b :
  contains sep a = false ->
  split sep (a ++ String sep b) = a :: split sep b.
Proof.
  induction a as [|c a IH]; cbn [contains split append].
  - intros _. now rewrite Ascii.eqb_refl.
  - intros Hc. apply orb_false_iff in Hc. destruct Hc as [Hc Hs].
    rewrite Hc, (IH Hs). reflexivity.
Qed.

Lemma contains_app c a b :
  contains c (a ++ b) = contains c a || contains c b.
Proof.
  induction a as [|x a IH]; cbn [contains append]; [reflexivity|].
  now rewrite IH, orb_assoc.
Qed.

Lemma str_words elt :
  words_without " " elt = true ->
  split " " (NetElement.__str__ elt)
  = [NetElement.name elt; fst (NetElement.nodes elt);
     snd (NetElement.nodes elt)].
Proof.
  unfold words_without, NetElement.__str__. intros H.
  apply andb_true_iff in H. destruct H as [H H3].
  apply andb_true_iff in H. destruct H as [H1 H2].
  apply negb_true_iff in H1. apply negb_true_iff in H2.
  apply negb_true_iff in H3.
  cbn [join append].
  rewrite (split_word " " _ _ H1), (split_word " " _ _ H2).
  now rewrite (split_none " " _ H3).
Qed.

Lemma str_fields elt :
  words_without ";" elt = true ->
  split ";" (NetElement.__str__ elt) = [NetElement.__str__ elt].
Proof.
  unfold words_without. intros H.
  apply andb_true_iff in H. destruct H as [H H3].
  apply andb_true_iff in H. destruct H as [H1 H2].
  apply negb_true_iff in H1. apply negb_true_iff in H2.
  apply negb_true_iff in H3.
  apply split_none. unfold NetElement.__str__. cbn [join].
  rewrite !contains_app, H1, H2, H3. reflexivity.
Qed.

(** X10. Reading back the netlist line of an element whose name and
    terminals hold no space and no semicolon: [add] fails on a name
    that starts with no component type; it stores an element of the
    same name when the name carries an identifier; and it renames the
    element after the counter when the name carries none.  The
    terminals are kept, with dots replaced; the options are the
    defaults. *)
Theorem netlist_line_read_back (c : nat) (s : Schematic.t)
    (elt : NetElement.t) :
  words_without " " elt = true ->
  words_without ";" elt = true ->
  let name := NetElement.name elt in
  let '(n1, n2) := NetElement.nodes elt in
  Schematic.add (c, s) (NetElement.__str__ elt)
  = match cpt_type_pattern_match name with
    | None =>
        ((c, s), Some (ValueError ("Unknown component " ++ name)%string))
    | Some (t, Some id) =>
        ((c, Schematic._elt_add s (plain_element name t id n1 n2)), None)
    | Some (t, None) =>
        let id := ("#" ++ str_of_nat (S c))%string in
        ((S c,
          Schematic._elt_add s (plain_element (t ++ id)%string t id n1 n2)),
         None)
    end.
Proof.
  intros Hsp Hsc name.
  pose proof (str_words elt Hsp) as Hw.
  pose proof (str_fields elt Hsc) as Hf.
  destruct (NetElement.nodes elt) as [n1 n2] eqn:En. cbn [fst snd] in Hw.
  unfold Schematic.add. rewrite Hf. cbn [hd fst snd]. rewrite Hw.
  change (Schematic._opts_parse EmptyString)
    with [("dir", VNone); ("size", VInt 1); ("", VStr "")].
  unfold Schematic.NetElement_call.
  cbn [has_key dget keqb EqKey_string String.eqb Ascii.eqb Bool.eqb
       nth_error Schematic.bind_param bind ret skipn filter fst str_in
       existsb negb orb].
  fold name. unfold NetElement.__init__.
  destruct (cpt_type_pattern_match name) as [[t [id|]]|]; reflexivity.
Qed.

Lemma netlist_line_read_back_witness :
  let elt := resistor "1" "a" "b" in
  words_without " " elt = true
  /\ words_without ";" elt = true
  /\ Schematic.add (0%nat, Schematic.__init__) "R1 a b"
     = ((0%nat, Schematic._elt_add Schematic.__init__
                  (plain_element "R1" "R" "1" "a" "b")), None).
Proof.
  intros elt.
  assert (H1 : words_without " " elt = true) by reflexivity.
  assert (H2 : words_without ";" elt = true) by reflexivity.
  split; [exact H1|]. split; [exact H2|].
  exact (netlist_line_read_back 0 Schematic.__init__ elt H1 H2).
Defined.
(** ** Netlist files *)

Lemma rstrip_head c s : isspace c = false -> rstrip (String c s) <> "".
Proof.
  intros Hc. cbn [rstrip]. rewrite Hc. now destruct (rstrip s).
Qed.

Lemma blank_head c s :
  strip (String c s) = "" -> isspace c = true.
Proof.
  unfold strip. cbn [lstrip]. destruct (isspace c) eqn:Ec; [reflexivity|].
  intros H. now apply rstrip_head in H.
Qed.

Lemma space_no_comment c :
  isspace c = true -> str_in (String c "") ["#"; "%"] = false.
Proof.
  destruct c as [[] [] [] [] [] [] [] []]; cbv; congruence.
Qed.

Lemma netfile_add_comments st comments :
  Forall (fun l => is_comment l = true) comments ->
  forall lines,
    Schematic.netfile_add st (comments ++ lines)
    = Schematic.netfile_add st lines.
Proof.
  induction 1 as [|l comments Hl _ IH]; intros lines; [reflexivity|].
  cbn [app Schematic.netfile_add]. destruct l as [|c l]; [discriminate|].
  cbn [is_comment] in Hl. rewrite Hl. apply IH.
Qed.

(** X11. [netfile_add] skips the lines that start with ['#'] or ['%'],
    whatever follows on them, and has no such rule for a blank line: the
    first line of white space stops the reading with a [TypeError],
    the lines after it are not read, and the schematic stays as the
    lines before left it. *)
Theorem netfile_blank_line (st : nat * Schematic.t)
    (comments : list string) (line : string) (rest : list string) :
  Forall (fun l => is_comment l = true) comments ->
  is_blank line = true ->
  exists msg,
    Schematic.netfile_add st (comments ++ line :: rest)
    = (st, Some (TypeError msg)).
Proof.
  intros Hc Hb. rewrite netfile_add_comments by assumption.
  unfold is_blank in Hb. apply andb_true_iff in Hb. destruct Hb as [Hn Hs].
  apply String.eqb_eq in Hs.
  destruct line as [|c l]; [discriminate|].
  cbn [Schematic.netfile_add].
  rewrite (space_no_comment c (blank_head c l Hs)), Hs.
  eexists. reflexivity.
Qed.

Lemma netfile_blank_line_witness :
  let nl := String (ascii_of_nat 10) "" in
  exists msg,
    Schematic.netfile_add (0%nat, Schematic.__init__)
      (["# a netlist"; "% R1 1 2"] ++ nl :: ["R1 1 2"])
    = ((0%nat, Schematic.__init__), Some (TypeError msg)).
Proof.
  intros nl.
  apply (netfile_blank_line (0%nat, Schematic.__init__)
           ["# a netlist"; "% R1 1 2"] nl ["R1 1 2"]).
  - repeat constructor.
  - reflexivity.
Defined.

(** ** Elements by name *)

Lemma add_all_lookup elts name :
  forall s,
    dget (Schematic.elements (fold_left Schematic._elt_add elts s)) name
    = match last_named name elts with
      | Some e => Some e
      | None => dget (Schematic.elements s) name
      end.
Proof.
  unfold last_named.
  induction elts as [|e elts IH] using rev_ind; intros s; [reflexivity|].
  rewrite fold_left_app, rev_app_distr. cbn [fold_left rev app find].
  rewrite elt_add_elements, dget_dset.
  change (keqb (NetElement.name e) name)
    with (String.eqb (NetElement.name e) name).
  destruct (String.eqb (NetElement.name e) name); [reflexivity|apply IH].
Qed.

(** X12. After elements are added, [sch[name]] is the last element added
    under that name, an earlier one of the same name being overridden;
    it raises [KeyError] for a name no element was added under.  The
    overridden element stays in the list of the node of each of its
    terminals. *)
Theorem lookup_last_added (elts : list NetElement.t) (name : string) :
  Schematic.__getitem__ (add_all elts) name
  = match last_named name elts with
    | Some e => inr e
    | None => inl KeyError
    end
  /\ forall e, In e elts ->
       forall n, n = fst (NetElement.nodes e) \/ n = snd (NetElement.nodes e) ->
         exists nd, dget (Schematic.nodes (add_all elts)) n = Some nd
                    /\ In e (Node.list nd).
Proof.
  split.
  - unfold Schematic.__getitem__, dindex, add_all. rewrite add_all_lookup.
    now destruct (last_named name elts).
  - intros e He n Hn.
    pose proof (add_all_records elts Schematic.__init__ []
                  (fun k => eq_refl)) as Hr.
    specialize (Hr n). cbn [app] in Hr. fold (add_all elts) in Hr.
    assert (Hin : In e (attached n (node_calls elts))).
    { unfold attached, node_calls. apply in_map_iff.
      exists (n, e). split; [reflexivity|]. apply filter_In. split.
      - apply in_flat_map. exists e. split; [assumption|].
        destruct Hn as [->| ->]; cbn; auto.
      - apply String.eqb_refl. }
    destruct (dget (Schematic.nodes (add_all elts)) n) as [nd|].
    + exists nd. split; [reflexivity|].
      destruct Hr as [_ [Hl _]]. now rewrite Hl.
    + rewrite Hr in Hin. destruct Hin.
Qed.

Lemma lookup_last_added_witness :
  let old := resistor "1" "a" "b" in
  let new := resistor "1" "c" "d" in
  let s := add_all [old; new] in
  Schematic.__getitem__ s "R1" = inr new
  /\ exists nd, dget (Schematic.nodes s) "a" = Some nd /\ In old (Node.list nd).
Proof.
  intros old new s.
  destruct (lookup_last_added [old; new] "R1") as [Hg Hn].
  split; [exact Hg|].
  apply (Hn old); [now left|now left].
Defined.

(** ** The marks of the terminals *)

Lemma attached_In elts e n :
  In e elts ->
  n = fst (NetElement.nodes e) \/ n = snd (NetElement.nodes e) ->
  In e (attached n (node_calls elts)).
Proof.
  intros He Hn. unfold attached, node_calls. apply in_map_iff.
  exists (n, e). split; [reflexivity|]. apply filter_In. split.
  - apply in_flat_map. exists e. split; [assumption|].
    destruct Hn as [->| ->]; cbn; auto.
  - apply String.eqb_refl.
Qed.

Lemma node_mark_spec elts n b :
  In n (node_refs elts) ->
  Schematic.node_mark (add_all elts) n b = inr (mark_of elts b n).
Proof.
  intros Hn. unfold node_refs in Hn. apply in_flat_map in Hn.
  destruct Hn as [e [He Hn]].
  assert (Hin : In e (attached n (node_calls elts))).
  { apply attached_In; [assumption|]. destruct Hn as [<-|[<-|[]]]; auto. }
  pose proof (add_all_records elts Schematic.__init__ []
                (fun k => eq_refl)) as Hr.
  specialize (Hr n). cbn [app] in Hr. fold (add_all elts) in Hr.
  unfold Schematic.node_mark, dindex, mark_of.
  destruct (dget (Schematic.nodes (add_all elts)) n) as [nd|].
  - destruct Hr as [_ [_ [Hp _]]]. cbn [bind ret]. rewrite Hp.
    now destruct (existsb port_type (attached n (node_calls elts))).
  - rewrite Hr in Hin. destruct Hin.
Qed.

(** X13. Drawing a schematic built by adding elements, [_node_str] finds
    the node of every terminal it is asked for, for the elements and for
    the implicit wires alike.  The mark of a terminal is an open circle
    when an element of type P, port or open is attached to it, a dot
    when nodes are drawn and its name has no underscore, and nothing
    otherwise; two empty marks give the empty string. *)
Theorem terminal_marks (elts : list NetElement.t) (c : nat)
    (draw_nodes : bool) :
  Forall (fun e => undotted e = true) elts ->
  exists wires,
    Schematic._make_wires c (add_all elts) = inr (c, wires)
    /\ forall e, In e (elts ++ wires) ->
         let '(n1, n2) := NetElement.nodes e in
         let node_str :=
           (mark_of elts draw_nodes n1 ++ "-"
              ++ mark_of elts draw_nodes n2)%string in
         Schematic._node_str (add_all elts) n1 n2 draw_nodes
         = inr (if String.eqb node_str "-" then ""%string else node_str).
Proof.
  intros Hf. exists (net_wires (add_all elts)).
  split; [apply make_wires_spec|].
  intros e He.
  assert (Hn : In (fst (NetElement.nodes e)) (node_refs elts)
               /\ In (snd (NetElement.nodes e)) (node_refs elts)).
  { apply in_app_or in He. destruct He as [He|He].
    - split; unfold node_refs; apply in_flat_map; exists e;
        (split; [assumption|]); cbn; auto.
    - apply (wires_join elts e Hf) in He. unfold joins_net in He.
      destruct (NetElement.nodes e) as [a b]. cbn [fst snd]. tauto. }
  destruct (NetElement.nodes e) as [n1 n2]. cbn [fst snd] in Hn.
  destruct Hn as [H1 H2]. unfold Schematic._node_str.
  rewrite (node_mark_spec elts n1 draw_nodes H1),
          (node_mark_spec elts n2 draw_nodes H2).
  reflexivity.
Qed.

Lemma terminal_marks_witness :
  let elts := [plain_element "P1" "P" "1" "1" "0_1"; resistor "1" "1" "0"] in
  exists wires,
    Schematic._make_wires 0 (add_all elts) = inr (0%nat, wires)
    /\ map NetElement.nodes wires = [("0_1", "0")]
    /\ Schematic._node_str (add_all elts) "0_1" "0" true = inr "o-*"%string
    /\ Schematic._node_str (add_all elts) "1" "0" false = inr "o-"%string.
Proof.
  intros elts.
  assert (Hf : Forall (fun e => undotted e = true) elts)
    by (repeat constructor).
  destruct (terminal_marks elts 0 true Hf) as [wires [Hw Hm]].
  destruct (terminal_marks elts 0 false Hf) as [wires' [_ Hm']].
  exists wires. split; [exact Hw|].
  assert (Hn : map NetElement.nodes wires = [("0_1", "0")]).
  { rewrite make_wires_spec in Hw. injection Hw as <-. reflexivity. }
  split; [exact Hn|]. split.
  - destruct wires as [|w [|w' ws]]; try discriminate.
    specialize (Hm w (in_or_app elts [w] w (or_intror (or_introl eq_refl)))).
    injection Hn as Hn. rewrite Hn in Hm. exact Hm.
  - exact (Hm' (resistor "1" "1" "0") (or_intror (or_introl eq_refl))).
Defined.

(** ** The scale of a drawing *)

Lemma make_graphs_scale float_of_str limit self k dirs :
  Schematic._make_graphs float_of_str limit
    (Schematic.mk (Schematic.elements self) (Schematic.nodes self)
                  (Schematic.vnodes self) k (Schematic.coords self)) dirs
  = Schematic._make_graphs float_of_str limit self dirs.
Proof. reflexivity. Qed.

Lemma draw_result float_of_str limit self k xpos ypos :
  Schematic._make_graphs float_of_str limit self x_axis = inr xpos ->
  Schematic._make_graphs float_of_str limit self y_axis = inr ypos ->
  exists s, Schematic.draw float_of_str limit self k = (s, None)
            /\ scaled_layout xpos ypos k s.
Proof.
  intros Hx Hy.
  pose proof (make_graphs_keys _ _ _ _ _ Hx) as Kx.
  pose proof (make_graphs_keys _ _ _ _ _ Hy) as Ky.
  assert (Hkeys : forall n, In n (keys xpos) ->
             has_key xpos n = true /\ has_key ypos n = true).
  { intros n Hn. apply has_key_keys in Hn. split; [assumption|].
    apply Ky, Kx, Hn. }
  destruct (scale_coords_ok k xpos ypos (keys xpos) Hkeys
                            ([] : dict string (Q * Q)))
    as [coords' [Hs [Hc _]]].
  pose proof (scale_coords_loop _ _ _ _ _ _ Hs) as Hval.
  assert (Ha : snd (Schematic.attach coords' (Schematic.elements self)) = None).
  { apply attach_none. intros elt He.
    split; apply Hc, has_key_keys, Kx; unfold node_refs; apply in_flat_map;
      exists elt; (split; [assumption|]); cbn; auto. }
  unfold Schematic.draw, Schematic._positions_calculate.
  cbn [Schematic.elements Schematic.scale Schematic.nodes Schematic.vnodes
       Schematic.coords].
  change (Schematic._make_graphs float_of_str limit _ ("right", "left"))
    with (Schematic._make_graphs float_of_str limit self x_axis).
  change (Schematic._make_graphs float_of_str limit _ ("up", "down"))
    with (Schematic._make_graphs float_of_str limit self y_axis).
  rewrite Hx, Hy. cbn [bind]. rewrite Hs.
  destruct (Schematic.attach coords' (Schematic.elements self)) as [elts o].
  cbn [snd] in Ha. subst o.
  eexists. split; [reflexivity|].
  exists coords'. split; [reflexivity|].
  intros n. destruct (dget xpos n) as [x|] eqn:Ex.
  - assert (Hn : In n (keys xpos)).
    { apply has_key_keys, has_key_true. now exists x. }
    destruct (Hkeys n Hn) as [_ Hky]. apply has_key_true in Hky.
    destruct Hky as [y Ey]. rewrite Ey.
    specialize (Hc n Hn). apply has_key_true in Hc. destruct Hc as [p Hp].
    rewrite Hp. destruct (Hval n p Hp) as [Hnil|[x' [y' [Hx' [Hy' ->]]]]];
      [discriminate|].
    congruence.
  - destruct (dget coords' n) as [p|] eqn:Hp; [|reflexivity].
    destruct (Hval n p Hp) as [Hnil|[x' [y' [Hx' _]]]]; [discriminate|].
    congruence.
Qed.

(** X14. The scale of [draw] only multiplies: when a schematic is drawn
    at one scale, it is drawn without error at every scale, and there
    are positions of the terminals on the two axes such that the
    coordinates stored at a scale are these positions times the scale,
    for the same terminals. *)
Theorem draw_scale (float_of_str : string -> option Q) (limit : nat)
    (self s1 : Schematic.t) (k : Q) :
  Schematic.draw float_of_str limit self k = (s1, None) ->
  exists xpos ypos,
    scaled_layout xpos ypos k s1
    /\ forall k',
         exists s2, Schematic.draw float_of_str limit self k' = (s2, None)
                    /\ scaled_layout xpos ypos k' s2.
Proof.
  intros H. unfold Schematic.draw in H.
  destruct (positions_ok _ _ _ _ H) as [xpos [ypos [coords [Hx [Hy _]]]]].
  rewrite make_graphs_scale in Hx, Hy.
  exists xpos, ypos. split.
  - destruct (draw_result float_of_str limit self k xpos ypos Hx Hy)
      as [s [Hd Hl]].
    unfold Schematic.draw in Hd. rewrite H in Hd. now injection Hd as <-.
  - intros k'. now apply draw_result.
Qed.

Lemma draw_scale_witness :
  let self := snd (build series_lines) in
  exists s1 xpos ypos,
    Schematic.draw float_of_decimal 100 self 2 = (s1, None)
    /\ scaled_layout xpos ypos 2 s1
    /\ exists s2, Schematic.draw float_of_decimal 100 self (1 # 2) = (s2, None)
                  /\ scaled_layout xpos ypos (1 # 2) s2.
Proof.
  intros self.
  assert (H : Schematic.draw float_of_decimal 100 self 2
              = (fst (Schematic.draw float_of_decimal 100 self 2), None))
    by (vm_compute; reflexivity).
  destruct (draw_scale float_of_decimal 100 self _ 2 H)
    as [xpos [ypos [H1 H2]]].
  exists (fst (Schematic.draw float_of_decimal 100 self 2)), xpos, ypos.
  split; [exact H|]. split; [exact H1|]. exact (H2 (1 # 2)).
Defined.

(** ** Anonymous names *)

Lemma to_uint_nonnil n : Nat.to_uint n <> Decimal.Nil.
Proof.
  rewrite <- (DecimalNat.Unsigned.of_to n), DecimalNat.Unsigned.to_of.
  unfold Decimal.unorm. now destruct (Decimal.nzhead _).
Qed.

Lemma str_of_nat_inj n m : str_of_nat n = str_of_nat m -> n = m.
Proof.
  unfold str_of_nat. intros H.
  apply DecimalNat.Unsigned.to_uint_inj.
  pose proof (NilZero.usu _ (to_uint_nonnil n)) as Hn.
  pose proof (NilZero.usu _ (to_uint_nonnil m)) as Hm.
  rewrite H in Hn. congruence.
Qed.

Lemma hash_split a b x y :
  contains "#" a = false -> contains "#" b = false ->
  (a ++ String "#" x = b ++ String "#" y)%string -> a = b /\ x = y.
Proof.
  revert b. induction a as [|c a IH]; intros [|d b]; cbn [contains append];
    intros Ha Hb He.
  - injection He as <-. now split.
  - injection He as <- _. rewrite Ascii.eqb_refl in Hb. discriminate.
  - injection He as -> _. rewrite Ascii.eqb_refl in Ha. discriminate.
  - injection He as <- He.
    apply orb_false_iff in Ha. apply orb_false_iff in Hb.
    destruct (IH b (proj2 Ha) (proj2 Hb) He) as [-> ->]. now split.
Qed.

Lemma type_no_hash t : has_key cpt_type_map t = true -> contains "#" t = false.
Proof.
  intros Ht. apply cpt_types_keys in Ht.
  repeat (destruct Ht as [<-|Ht]; [reflexivity|]). destruct Ht.
Qed.

Lemma anonymous_name_inj t t' n n' :
  has_key cpt_type_map t = true -> has_key cpt_type_map t' = true ->
  anonymous_name t n = anonymous_name t' n' -> t = t' /\ n = n'.
Proof.
  intros Ht Ht' He. unfold anonymous_name in He. cbn [append] in He.
  apply hash_split in He; try now apply type_no_hash.
  destruct He as [-> He]. split; [reflexivity|]. now apply str_of_nat_inj.
Qed.

Lemma pattern_anonymous t n :
  has_key cpt_type_map t = true ->
  cpt_type_pattern_match (anonymous_name t n) = Some (t, None).
Proof.
  intros Ht. apply cpt_types_keys in Ht. unfold anonymous_name.
  repeat (destruct Ht as [<-|Ht]; [reflexivity|]). destruct Ht.
Qed.

Lemma pattern_type name t id :
  cpt_type_pattern_match name = Some (t, id) ->
  has_key cpt_type_map t = true.
Proof.
  unfold cpt_type_pattern_match.
  destruct (find _ cpt_types) as [t0|] eqn:Ef; [|discriminate].
  intros [= <- _]. apply cpt_types_keys. now apply find_some in Ef.
Qed.

Lemma init_name c name n1 n2 args opts c' elt :
  NetElement.__init__ c name n1 n2 args opts = inr (c', elt) ->
  (c' = c /\ NetElement.name elt = name
   /\ exists t id, cpt_type_pattern_match name = Some (t, Some id))
  \/ (c' = S c
      /\ exists t, has_key cpt_type_map t = true
                   /\ NetElement.name elt = anonymous_name t (S c)).
Proof.
  unfold NetElement.__init__.
  destruct (cpt_type_pattern_match name) as [[t [id|]]|] eqn:Ep;
    [| |discriminate].
  - intros [= <- <-]. left. cbn [NetElement.name]. eauto.
  - intros [= <- <-]. right. split; [reflexivity|]. exists t.
    split; [eapply pattern_type; exact Ep|reflexivity].
Qed.

Lemma add_stored st line c' s' :
  Schematic.add st line = ((c', s'), None) ->
  exists name n1 n2 args opts elt,
    NetElement.__init__ (fst st) name n1 n2 args opts = inr (c', elt)
    /\ s' = Schematic._elt_add (snd st) elt.
Proof.
  unfold Schematic.add.
  destruct (Schematic.NetElement_call _ _ _) as [e|[c0 elt]] eqn:Hc;
    [discriminate|].
  intros [= <- <-]. unfold Schematic.NetElement_call in Hc.
  destruct (has_key _ "self"); [discriminate|].
  apply bind_inr in Hc. destruct Hc as [name [_ Hc]].
  apply bind_inr in Hc. destruct Hc as [n1 [_ Hc]].
  apply bind_inr in Hc. destruct Hc as [n2 [_ Hc]].
  cbv zeta in Hc. eauto 10.
Qed.

Lemma add_counter_bounds st line :
  counter_bounds st -> counter_bounds (fst (Schematic.add st line)).
Proof.
  intros Hb.
  destruct (Schematic.add st line) as [[c' s'] [e|]] eqn:Ha.
  - unfold Schematic.add in Ha.
    destruct (Schematic.NetElement_call _ _ _) as [e0|[c0 elt]];
      [|discriminate].
    injection Ha as Hst _. cbn [fst]. rewrite <- Hst. exact Hb.
  - destruct (add_stored _ _ _ _ Ha)
      as [name [n1 [n2 [args [opts [elt [Hi ->]]]]]]].
    cbn [fst]. intros t n Ht Hn. cbn [fst snd] in *.
    rewrite elt_add_elements, has_key_dset.
    change (keqb (NetElement.name elt) (anonymous_name t n))
      with (String.eqb (NetElement.name elt) (anonymous_name t n)).
    destruct (init_name _ _ _ _ _ _ _ _ Hi)
      as [[-> [Hname [t0 [id Hp]]]]|[-> [t0 [Ht0 Hname]]]].
    + rewrite (Hb t n Ht Hn), orb_false_r. apply String.eqb_neq.
      intros He. rewrite Hname in He. rewrite He in Hp.
      rewrite (pattern_anonymous t n Ht) in Hp. discriminate.
    + rewrite (Hb t n Ht) by lia. rewrite orb_false_r.
      apply String.eqb_neq. intros He. rewrite Hname in He.
      apply anonymous_name_inj in He; [|assumption|assumption]. lia.
Qed.

Lemma build_counter_bounds lines :
  forall st,
    counter_bounds st ->
    counter_bounds (fold_left (fun st line => fst (Schematic.add st line))
                              lines st).
Proof.
  induction lines as [|line lines IH]; intros st Hb; cbn [fold_left];
    [exact Hb|].
  apply IH, add_counter_bounds, Hb.
Qed.

(** X15. The names [add] makes up never collide: in a schematic built by
    [add] from the counter 0, a call that moves the counter stores its
    element under the name of its type, ['#'] and the new counter, and
    no element was stored under that name before; so an element without
    an identifier never overrides another one. *)
Theorem anonymous_names_fresh (lines : list string) (line : string)
    (c' : nat) (s' : Schematic.t) :
  let st := build lines in
  Schematic.add st line = ((c', s'), None) ->
  c' <> fst st ->
  exists elt t,
    s' = Schematic._elt_add (snd st) elt
    /\ c' = S (fst st)
    /\ has_key cpt_type_map t = true
    /\ NetElement.name elt = anonymous_name t c'
    /\ has_key (Schematic.elements (snd st)) (NetElement.name elt) = false.
Proof.
  intros st Ha Hc.
  assert (Hb : counter_bounds st).
  { apply build_counter_bounds. intros t n _ _. reflexivity. }
  destruct (add_stored _ _ _ _ Ha)
    as [name [n1 [n2 [args [opts [elt [Hi ->]]]]]]].
  destruct (init_name _ _ _ _ _ _ _ _ Hi)
    as [[-> _]|[-> [t [Ht Hname]]]]; [contradiction|].
  exists elt, t. repeat (split; [assumption || reflexivity|]).
  rewrite Hname. apply Hb; [assumption|lia].
Qed.

Lemma anonymous_names_fresh_witness :
  let st := build ["R 1 2; right"; "R1 2 3; right"] in
  exists elt,
    snd (fst (Schematic.add st "R 3 4; right"))
    = Schematic._elt_add (snd st) elt
    /\ NetElement.name elt = "R#2"%string
    /\ has_key (Schematic.elements (snd st)) "R#2" = false.
Proof.
  intros st.
  assert (Ha : Schematic.add st "R 3 4; right"
               = ((2%nat, snd (fst (Schematic.add st "R 3 4; right"))), None))
    by reflexivity.
  destruct (anonymous_names_fresh
              ["R 1 2; right"; "R1 2 3; right"] "R 3 4; right" 2 _ Ha)
    as [elt [t [Hs [_ [Ht [Hn Hk]]]]]]; [discriminate|].
  exists elt. split; [exact Hs|].
  assert (Hname : NetElement.name elt = "R#2"%string).
  { fold st in Hs. rewrite Hn.
    assert (He : dget (Schematic.elements
                         (snd (fst (Schematic.add st "R 3 4; right"))))
                      (NetElement.name elt) = Some elt).
    { rewrite Hs, elt_add_elements. apply dget_dset_same. }
    rewrite Hn in He. apply cpt_types_keys in Ht.
    repeat (destruct Ht as [<-|Ht]; [first [reflexivity|discriminate He]|]).
    destruct Ht. }
  split; [exact Hname|]. rewrite <- Hname. exact Hk.
Defined.
